(** * cmd-plants: ASCII flowers and trees, their colours and their layout

    A shallow embedding of [flowers.py] and [garden.py], the two
    implementations of the garden generator, and of [clean_garden.py],
    with the properties of the shape generators, the colorizer, the ANSI
    stripper, the layout engine and the cleaning script.

    Conventions of the embedding:
    - a Python [str] is a list of Unicode code points ([char := N]), so
      that [len] is [length] also for the blossom glyphs;
    - Python integers are [Z]; [//] is [Z.div] (both floor);
    - Python floats are IEEE binary64, Rocq's primitive floats;
    - [random.Random] is an interface ([RandomSource]): a state that is
      threaded through every draw;
    - an exception (ValueError of [randint], IndexError of [choice] and of
      [lines[0]], ZeroDivisionError of [//]) is [None]. *)

From Stdlib Require Import List ZArith NArith Lia Bool.
From Stdlib Require Import PrimFloat Uint63.
From Stdlib Require String Ascii.
Import ListNotations.
Import String.StringSyntax.
Delimit Scope string_scope with string.
Set Warnings "-inexact-float".

Local Open Scope Z_scope.

(** ** Python strings and built-ins *)

Module Py.

Definition char := N.
Definition str := list char.

(** An ASCII literal of the source as a list of code points. *)
Definition lit (s : String.string) : str :=
  map Ascii.N_of_ascii (String.list_ascii_of_string s).
Arguments lit s%_string.

Definition sp : char := 32%N.
Definition bar : char := 124%N.
Definition ESC : char := 27%N.
Definition NL : char := 10%N.
(** U+273F and U+2740, the two blossom glyphs of the cherry shapes. *)
Definition blossom : str := [10047%N].
Definition blossom2 : str := [10048%N].

(** [s * n]: the empty string for [n <= 0]. *)
Definition str_mul (s : str) (n : Z) : str := concat (repeat s (Z.to_nat n)).

(** [" " * n]. *)
Definition spaces (n : Z) : str := str_mul [sp] n.

(** [range(lo, hi)]. *)
Definition range (lo hi : Z) : list Z :=
  map (fun k => lo + Z.of_nat k) (seq 0 (Z.to_nat (hi - lo))).

(** [range(start, stop, step)] for a positive [step]. *)
Definition range_step (start stop step : Z) : list Z :=
  map (fun k => start + step * Z.of_nat k)
      (seq 0 (Z.to_nat ((stop - start + step - 1) / step))).

(** [l[a:b]] for [0 <= a]. *)
Definition slice {A} (l : list A) (a b : Z) : list A :=
  firstn (Z.to_nat (b - a)) (skipn (Z.to_nat a) l).

(** [len(l)]. *)
Definition len {A} (l : list A) : Z := Z.of_nat (length l).

(** [max(l)] of a non-empty list, and [max(l, default=d)]. *)
Definition max_default (d : Z) (l : list Z) : Z :=
  match l with
  | [] => d
  | x :: xs => fold_left Z.max xs x
  end.

(** The characters [str.isspace] accepts, which [rstrip()] removes. *)
Definition isspace (c : char) : bool :=
  ((9 <=? c) && (c <=? 13) || (28 <=? c) && (c <=? 32)
   || (c =? 133) || (c =? 160) || (c =? 5760)
   || (8192 <=? c) && (c <=? 8202)
   || (c =? 8232) || (c =? 8233) || (c =? 8239) || (c =? 8287)
   || (c =? 12288))%N.

(** [s.rstrip()]. *)
Fixpoint rstrip (s : str) : str :=
  match s with
  | [] => []
  | c :: t =>
      match rstrip t with
      | [] => if isspace c then [] else [c]
      | t' => c :: t'
      end
  end.

(** [sep.join(parts)]. *)
Fixpoint join (sep : str) (parts : list str) : str :=
  match parts with
  | [] => []
  | [p] => p
  | p :: ps => p ++ sep ++ join sep ps
  end.

Fixpoint str_eqb (a b : str) : bool :=
  match a, b with
  | [], [] => true
  | x :: a', y :: b' => N.eqb x y && str_eqb a' b'
  | _, _ => false
  end.

(** [s.startswith(p)] and [s.endswith(p)]. *)
Fixpoint startswith (s p : str) : bool :=
  match p, s with
  | [], _ => true
  | y :: p', x :: s' => N.eqb x y && startswith s' p'
  | _ :: _, [] => false
  end.

Definition endswith (s p : str) : bool := startswith (rev s) (rev p).

(** [s.replace(old, new)] for a one-character [old]. *)
Definition replace_char (old : char) (new : str) (s : str) : str :=
  flat_map (fun c => if N.eqb c old then new else [c]) s.

(** The run of [|] at the head of [s]: [while j < len(line) and
    line[j] == "|"]. *)
Fixpoint takewhile_bar (s : str) : str :=
  match s with
  | c :: t => if N.eqb c bar then c :: takewhile_bar t else []
  | [] => []
  end.

(** [abs(x) <= 1]. *)
Definition abs_le1 (x : Z) : bool := Z.abs x <=? 1.

(** [float(z)] for an integer of small magnitude. *)
Definition float_of_Z (z : Z) : float :=
  if z <? 0 then PrimFloat.opp (PrimFloat.of_uint63 (Uint63.of_Z (- z)))
  else PrimFloat.of_uint63 (Uint63.of_Z z).

End Py.
Import Py.

(** ** The random source

    [random.Random] as the programs use it.  [choice] and [randint] are
    the standard library's: [choice(seq)] is [seq[_randbelow(len(seq))]]
    and [randint(a, b)] is [a + _randbelow(b - a + 1)], a ValueError for an
    empty range.  [_randbelow(n)] returns an integer of [[0, n)]. *)

Class RandomSource (G : Type) := {
  rs_seed : Z -> G;
  rs_randbelow : G -> Z -> Z * G;
  rs_random : G -> float * G;
  rs_randbelow_range :
    forall g n, 0 < n -> 0 <= fst (rs_randbelow g n) < n
}.

Module Rng.
Section WithSource.
Context {G : Type} `{RandomSource G}.

(** Computations that draw from the source and may raise. *)
Definition M (A : Type) : Type := G -> option (A * G).

Definition ret {A} (a : A) : M A := fun g => Some (a, g).

Definition bind {A B} (m : M A) (k : A -> M B) : M B :=
  fun g => match m g with
           | Some (a, g') => k a g'
           | None => None
           end.

Definition raise {A} : M A := fun _ => None.

Definition random : M float := fun g => Some (rs_random g).

Definition choice {A} (seq : list A) : M A :=
  fun g =>
    match seq with
    | [] => None
    | _ =>
        let (i, g') := rs_randbelow g (len seq) in
        match nth_error seq (Z.to_nat i) with
        | Some x => Some (x, g')
        | None => None
        end
    end.

Definition randint (a b : Z) : M Z :=
  fun g =>
    if b <? a then None
    else let (k, g') := rs_randbelow g (b - a + 1) in Some (a + k, g').

(** A loop body run over a list, left to right, collecting its results. *)
Fixpoint mapM {A B} (f : A -> M B) (l : list A) : M (list B) :=
  match l with
  | [] => ret []
  | a :: l' =>
      bind (f a) (fun b => bind (mapM f l') (fun bs => ret (b :: bs)))
  end.

(** A call that draws nothing and may raise, inside a drawing computation. *)
Definition lift {A} (o : option A) : M A :=
  match o with
  | Some a => ret a
  | None => raise
  end.

(** A computation on a source of its own, [random.Random(seed)]: the
    caller's source is left as it was. *)
Definition with_seed {A} (seed : Z) (m : M A) : M A :=
  fun g => match m (rs_seed seed) with
           | Some (a, _) => Some (a, g)
           | None => None
           end.

End WithSource.
Arguments M : clear implicits.
End Rng.
Import Rng.

Declare Scope rng_scope.
Delimit Scope rng_scope with rng.
Notation "x <- m ;; k" := (bind m (fun x => k))
  (at level 61, m at next level, right associativity) : rng_scope.
Local Open Scope rng_scope.

(** ** The environment and the parsed command line

    What a run reads besides its arguments: whether standard output is a
    terminal, the width of the terminal ([terminal_columns]: the [COLUMNS]
    variable when it holds a positive integer, otherwise what the terminal
    reports, [None] when it cannot be asked), and the seed
    [random.Random(None)] takes from the system. *)

Record Env := {
  stdout_isatty : bool;
  terminal_columns : option Z;
  entropy : Z
}.

(** [shutil.get_terminal_size(fallback=(80, 24)).columns]: the fallback of
    80 columns when the width cannot be had, and also when the terminal
    reports 0 columns ([size.columns or fallback[0]]). *)
Definition get_terminal_columns (env : Env) : Z :=
  match terminal_columns env with
  | Some c => if c =? 0 then 80 else c
  | None => 80
  end.

(** The namespace [argparse] returns ([--no-unicode] is parsed by
    flowers.py and read nowhere). *)
Record Args := {
  count : Z;
  size : Z;
  seed : option Z;
  trees : Z;
  color : str;
  layout : str;
  cols : Z;
  auto_fit : bool
}.

(** ** What the two files share word for word

    [ANSI], [_color_wrap], [_strip_ansi] and [_visible_len]
    (flowers.py 35-46 and 264-327, garden.py 21-32 and 193-229). *)

Module Ansi.

Definition sgr (params : String.string) : str :=
  ESC :: lit "[" ++ lit params ++ lit "m".
Arguments sgr params%_string.

Definition ANSI : list (str * str) :=
  [ (lit "reset", sgr "0");
    (lit "red", sgr "31");
    (lit "green", sgr "32");
    (lit "yellow", sgr "33");
    (lit "blue", sgr "34");
    (lit "magenta", sgr "35");
    (lit "cyan", sgr "36");
    (lit "bright_yellow", sgr "93");
    (lit "bright_green", sgr "92");
    (lit "brown", sgr "38;5;94") ].

(** [ANSI.get(key, default)]. *)
Fixpoint dict_get (d : list (str * str)) (key default : str) : str :=
  match d with
  | [] => default
  | (k, v) :: d' => if str_eqb k key then v else dict_get d' key default
  end.

Definition _color_wrap (s color : str) (enabled : bool) : str :=
  if negb enabled then s
  else dict_get ANSI color [] ++ s ++ dict_get ANSI (lit "reset") [].

(** [[0-9;]]. *)
Definition sgr_param (c : char) : bool :=
  ((48 <=? c) && (c <=? 57) || (c =? 59))%N.

(** The longest run of [[0-9;]] at the head of [s]. *)
Fixpoint sgr_params (s : str) : nat :=
  match s with
  | c :: t => if sgr_param c then S (sgr_params t) else O
  | [] => O
  end.

(** The length of the match of [\x1b\[[0-9;]*m] at the head of [s], if
    there is one.  The star is greedy and what follows it, [m], is outside
    its class, so backtracking into the run never finds a match that the
    longest run misses. *)
Definition match_sgr (s : str) : option nat :=
  match s with
  | e :: b :: t =>
      if ((e =? ESC) && (b =? 91))%N then
        let n := sgr_params t in
        match nth_error t n with
        | Some c => if (c =? 109)%N then Some (3 + n)%nat else None
        | None => None
        end
      else None
  | _ => None
  end.

(** [re.sub(pattern, '', s)], scanning left to right: a match is dropped
    and the scan goes on behind it ([skip] counts what is left of it); a
    character where nothing matches is kept. *)
Fixpoint strip_from (skip : nat) (s : str) : str :=
  match s with
  | [] => []
  | c :: t =>
      match skip with
      | S k => strip_from k t
      | O =>
          match match_sgr (c :: t) with
          | Some n => strip_from (n - 1) t
          | None => c :: strip_from 0 t
          end
      end
  end.

Definition _strip_ansi (s : str) : str := strip_from 0 s.

Definition _visible_len (s : str) : Z := len (_strip_ansi s).

End Ansi.
Import Ansi.

(** ** flowers.py *)

Module Flowers.
Section Program.
Context {G : Type} `{RandomSource G}.
(** [os.name == "nt"]. *)
Variable nt : bool.

Definition PETAL_CHARS : list str :=
  [lit "*"; lit "o"; lit "@"; lit "O"; lit "0"; lit "+"; lit "x"; lit "X"].
Definition CENTER_CHARS : list str := [lit "@"; lit "*"; lit "O"; lit "."].
Definition STEM_CHAR : str := lit "|".

(** One cell of the disc.  [** 2] is taken as the float's product with
    itself; the C library's [pow], which Python calls for it, need not
    round a square the same way in the last place, and a cell on the rim of
    a large disc may then differ.  Which cells of a disc are drawn matters
    to no property below, except where the discs of size 1 are computed. *)
Definition round_cell (radius : Z) (petal center : str) (y x : Z) : M G str :=
  let dx := (float_of_Z x / float_of_Z 2)%float in
  let d2 := (dx * dx + float_of_Z (y * y))%float in
  r <- random ;;
  let noise := (r * 0.6)%float in
  let t := (float_of_Z radius + 0.25 - noise)%float in
  if PrimFloat.leb d2 (t * t)%float then
    if abs_le1 x && abs_le1 y then ret center else ret petal
  else ret (lit " ").

Definition _make_round_flower (size : Z) : M G (list str) :=
  let radius := 1 + size in
  let width_scale := 2 in
  petal <- choice PETAL_CHARS ;;
  center <- choice CENTER_CHARS ;;
  lines <- mapM (fun y =>
             row <- mapM (round_cell radius petal center y)
                      (range (- width_scale * radius)
                             (width_scale * radius + 1)) ;;
             ret (rstrip (concat row)))
           (range (- radius) (radius + 1)) ;;
  stem_height <- randint (1 + size) (2 + 2 * size) ;;
  match lines with
  | [] => raise
  | line0 :: _ =>
      let stem_col := len line0 / 2 in
      ret (lines ++ repeat (spaces stem_col ++ STEM_CHAR)
                           (Z.to_nat stem_height))
  end.

Definition _make_star_flower (size : Z) : M G (list str) :=
  petal <- choice PETAL_CHARS ;;
  center <- choice CENTER_CHARS ;;
  let s := size in
  let lines :=
    [ spaces (2 * s) ++ petal;
      spaces s ++ petal ++ spaces (2 * s - 1) ++ petal;
      petal ++ spaces (4 * s - 1) ++ petal;
      spaces s ++ petal ++ spaces (2 * s - 1) ++ petal;
      spaces (2 * s) ++ center ] in
  k <- randint 0 s ;;
  ret (lines ++ repeat (spaces (2 * s) ++ STEM_CHAR) (Z.to_nat (1 + s + k))).

Definition _make_tulip (size : Z) : M G (list str) :=
  petal <- choice PETAL_CHARS ;;
  center <- choice CENTER_CHARS ;;
  let s := size in
  let lines :=
    [ spaces (1 + s) ++ petal ++ spaces s ++ petal;
      spaces s ++ petal ++ spaces (1 + s) ++ center ++ spaces s ++ petal;
      petal ++ spaces (3 + s) ++ petal ] in
  leaves <- choice [lit "<>"; lit "/\"; lit "()"; lit "~~"] ;;
  let lines := lines ++ [spaces (1 + s) ++ leaves] in
  k <- randint 0 2 ;;
  ret (lines ++ repeat (spaces (2 + s) ++ STEM_CHAR) (Z.to_nat (1 + s + k))).

Definition _make_sunflower (size : Z) : M G (list str) :=
  petal <- choice [lit "0"; lit "O"; lit "*"; lit "@"] ;;
  center <- choice [lit "@"; lit "0"; lit "O"] ;;
  let s := size in
  let lines :=
    [ spaces (2 + s) ++ str_mul petal (3 + s);
      spaces (1 + s) ++ petal ++ spaces (1 + s) ++ center
        ++ spaces (1 + s) ++ petal;
      petal ++ spaces (3 + s) ++ petal ] in
  ret (lines ++ repeat (spaces (2 + s) ++ STEM_CHAR) (Z.to_nat (2 + s))).

Definition _make_cherry_flower (size : Z) : M G (list str) :=
  petal <- (if negb nt then choice [lit "o"; blossom; blossom2]
            else choice [lit "o"; lit "*"]) ;;
  center <- choice [lit "."; lit "@"] ;;
  let s := size in
  let lines :=
    [ spaces (1 + s) ++ petal ++ lit " " ++ petal;
      spaces s ++ petal ++ center ++ petal;
      petal ++ spaces (1 + s) ++ petal ] in
  ret (lines ++ repeat (spaces (2 + s) ++ STEM_CHAR) (Z.to_nat (1 + s))).

(** [random_flower(size, seed, rng)] with the [rng] its callers pass. *)
Definition random_flower (size : Z) : M G (list str * str) :=
  kind <- choice [lit "round"; lit "star"; lit "tulip"; lit "sunflower";
                  lit "cherry"] ;;
  if str_eqb kind (lit "round") then
    l <- _make_round_flower size ;; ret (l, kind)
  else if str_eqb kind (lit "star") then
    l <- _make_star_flower size ;; ret (l, kind)
  else if str_eqb kind (lit "sunflower") then
    l <- _make_sunflower size ;; ret (l, kind)
  else if str_eqb kind (lit "cherry") then
    l <- _make_cherry_flower size ;; ret (l, kind)
  else
    l <- _make_tulip size ;; ret (l, kind).


Definition _make_pine_tree (size : Z) : list str :=
  let s := Z.max 1 size in
  let lines :=
    flat_map (fun layer =>
      let width := 1 + 2 * (layer + s) in
      map (fun row =>
             let pad := (4 * s + 2) - row in
             let foliage := str_mul (lit "^") (1 + 2 * row) in
             spaces pad ++ foliage)
          (range 0 width))
      (range 0 3) in
  let trunk_w := 1 + s in
  let trunk_pad := (4 * s + 2) - trunk_w / 2 in
  lines ++ repeat (spaces trunk_pad ++ str_mul (lit "|") trunk_w)
                  (Z.to_nat (1 + s)).

(** One cell of the canopy; [x / 2.0] and [(radius + 0.2) ** 2]. *)
Definition broad_cell (radius : Z) (petal : str) (y x : Z) : str :=
  let dx := (float_of_Z x / 2)%float in
  let t := (float_of_Z radius + 0.2)%float in
  if PrimFloat.leb (dx * dx + float_of_Z (y * y))%float (t * t)%float
  then petal else lit " ".

Definition _make_broad_tree (size : Z) : option (list str) :=
  let radius := 2 + size in
  let petal := lit "#" in
  let lines :=
    map (fun y =>
           rstrip (concat (map (broad_cell radius petal y)
                               (range (- 2 * radius) (2 * radius + 1)))))
        (range (- radius) (radius + 1)) in
  let trunk_w := 1 + size * 2 in
  match lines with
  | [] => None
  | line0 :: _ =>
      let trunk_col := Z.max 0 (len line0 / 2 - trunk_w / 2) in
      Some (lines ++ repeat (spaces trunk_col ++ str_mul (lit "|") trunk_w)
                            (Z.to_nat (1 + size)))
  end.

Definition stylized_art : list str :=
  [ lit "           \\/ |    |/";
    lit "        \\/ / \\||/  /_/___/_";
    lit "         \\/   |/ \\/";
    lit "    _\__\_\   |  /_____/ _";
    lit "           \  | /          /";
    lit "  __ _-----`  |{,-----------~";
    lit "            \ }{";
    lit "             }{{";
    lit "             }}{";
    lit "             {{{}";
    lit "       , -=-~{ .-^- _" ].

Definition _make_stylized_tree (size : Z) : M G (list str) :=
  let art := stylized_art in
  let s := Z.max 1 size in
  let canopy_extra_rows := s * 2 in
  let canopy_variation := Z.max 1 s in
  lines <- mapM (fun r =>
             let patterns := [lit "\/"; lit "\/ \/"; lit " \/ \/"] in
             pat <- choice patterns ;;
             j <- randint 0 canopy_variation ;;
             let prefix_spaces := Z.max 0 (6 - r) + j in
             ret (spaces prefix_spaces
                    ++ str_mul pat (1 + (r mod (1 + canopy_variation)))))
           (range 0 canopy_extra_rows) ;;
  let lines := lines ++ art in
  let trunk_w := 1 + s * 2 in
  let trunk_h := 2 + s in
  let final_width := max_default trunk_w (map _visible_len lines) in
  let trunk_col := Z.max 0 (final_width / 2 - trunk_w / 2) in
  let lines :=
    if 3 <=? s
    then lines ++ [spaces (Z.max 0 (trunk_col - 2))
                     ++ str_mul (lit "~") (trunk_w + 4)]
    else lines in
  ret (lines ++ repeat (spaces trunk_col ++ str_mul (lit "|") trunk_w)
                       (Z.to_nat trunk_h)).

(** [random_tree(size, seed, rng)] with the [rng] its callers pass. *)
Definition random_tree (size : Z) : M G (list str * str) :=
  kind <- choice [lit "pine"; lit "broad"; lit "bonsai"; lit "cherry";
                  lit "stylized"] ;;
  if str_eqb kind (lit "pine") then
    ret (_make_pine_tree size, kind)
  else if str_eqb kind (lit "bonsai") then
    l <- lift (_make_broad_tree (Z.max 1 (size - 1))) ;; ret (l, kind)
  else if str_eqb kind (lit "cherry") then
    canopy <- lift (_make_broad_tree (size + 1)) ;;
    let canopy :=
      map (replace_char 35%N (if negb nt then blossom else lit "o")) canopy in
    ret (canopy, kind)
  else if str_eqb kind (lit "stylized") then
    l <- _make_stylized_tree (size + 1) ;; ret (l, kind)
  else
    l <- lift (_make_broad_tree size) ;; ret (l, kind).

(** The foliage, petal and centre colour of [colorize_lines]. *)
Definition foliage_color (plant_kind : str) : M G str :=
  if endswith plant_kind (lit "cherry")
     || startswith plant_kind (lit "flower_cherry")
  then choice [lit "magenta"; lit "bright_yellow"]
  else if startswith plant_kind (lit "flower_sunflower")
  then choice [lit "yellow"; lit "bright_yellow"]
  else if startswith plant_kind (lit "flower_")
  then choice [lit "bright_green"; lit "green"; lit "bright_yellow";
               lit "magenta"; lit "red"]
  else choice [lit "green"; lit "bright_green"].

(** The [while i < len(line)] loop of [colorize_lines] over what is left
    of the line from [i] on.  After a trunk segment [line[i:j]] the loop
    resumes at [j]: [skip] counts the characters still to pass over. *)
Fixpoint colorize_from (plant_kind : str) (skip : nat) (line : str)
  : M G str :=
  match line with
  | [] => ret []
  | ch :: rest =>
      match skip with
      | S k => colorize_from plant_kind k rest
      | O =>
          if (ch =? sp)%N then
            out <- colorize_from plant_kind 0 rest ;; ret (ch :: out)
          else if (ch =? bar)%N then
            let j := length (takewhile_bar line) in
            let seg := firstn j line in
            let piece :=
              if startswith plant_kind (lit "flower_")
              then _color_wrap seg (lit "green") true
              else _color_wrap seg (lit "brown") true in
            out <- colorize_from plant_kind (j - 1) rest ;;
            ret (piece ++ out)
          else
            c <- foliage_color plant_kind ;;
            out <- colorize_from plant_kind 0 rest ;;
            ret (_color_wrap [ch] c true ++ out)
      end
  end.

Definition colorize_lines (lines : list str) (plant_kind : str)
  (enabled : bool) : M G (list str) :=
  if negb enabled then ret lines
  else mapM (colorize_from plant_kind 0) lines.


(** The visible width of a plant: [max((_visible_len(ln) for ln in p),
    default=0)]. *)
Definition plant_width (p : list str) : Z :=
  max_default 0 (map _visible_len p).

(** One plant of a row-group, padded at the top to [max_h] rows and on the
    right to its own width [w]. *)
Definition pad_plant (max_h : Z) (p : list str) (w : Z) : list str :=
  let pad_top := max_h - len p in
  repeat (spaces w) (Z.to_nat pad_top)
  ++ map (fun ln => let pad_amount := w - _visible_len ln in
                    ln ++ spaces pad_amount) p.

(** The height of a row-group: [max(heights) if heights else 0]. *)
Definition row_height (row : list (list str)) : Z :=
  max_default 0 (map len row).

Definition padded_blocks (row : list (list str)) : list (list str) :=
  let widths := map plant_width row in
  let max_h := row_height row in
  map (fun pw => pad_plant max_h (fst pw) (snd pw)) (combine row widths).

(** The body of the [for row_start] loop: the lines of one row-group and
    the blank line that follows them.  [padded[c][r]] is in range, every
    block having [max_h] rows. *)
Definition render_row (gap : Z) (row : list (list str)) : list str :=
  let max_h := row_height row in
  let padded := padded_blocks row in
  map (fun r =>
         let parts := map (fun blk => nth (Z.to_nat r) blk []) padded in
         rstrip (join (spaces gap) parts))
      (range 0 max_h)
  ++ [[]].

Definition render_horizontal (plants : list (list str)) (cols gap : Z)
  : list str :=
  let cols := if cols <? 1 then 1 else cols in
  flat_map (fun row_start =>
              render_row gap (slice plants row_start (row_start + cols)))
           (range_step 0 (len plants) cols).

(** The column count of the auto-fit branch of [print_garden]. *)
Definition auto_fit_cols (env : Env) (plants : list (list str)) (gap : Z)
  : option Z :=
  let term_w := get_terminal_columns env in
  let max_w := max_default 1 (map plant_width plants) in
  if max_w + gap =? 0 then None
  else Some (Z.max 1 ((term_w + gap) / (max_w + gap))).

(** The vertical branch: the plants one after another, [gap] empty lines
    between two of them. *)
Fixpoint vertical_lines (plants : list (list str)) (gap : Z) : list str :=
  match plants with
  | [] => []
  | [p] => p
  | p :: ps => p ++ repeat [] (Z.to_nat gap) ++ vertical_lines ps gap
  end.

(** [print_garden]: the text written to standard output. *)
Definition print_garden (env : Env) (plants : list (list str))
  (layout : str) (cols gap : Z) (auto_fit : bool) : option str :=
  if str_eqb layout (lit "horizontal") then
    match (if auto_fit then auto_fit_cols env plants gap else Some cols) with
    | None => None
    | Some cols =>
        let lines := render_horizontal plants cols (gap * 2) in
        Some (join [NL] lines ++ [NL])
    end
  else
    Some (join [NL] (vertical_lines plants gap) ++ [NL]).

(** One turn of a generation loop of [main]: a sub-seed from the master
    source, a source of the plant's own, the plant and its colours. *)
Definition make_plant (gen : M G (list str * str)) (category : str)
  (use_color : bool) : M G (list str) :=
  sub_seed <- randint 0 (2 ^ 31 - 1) ;;
  with_seed sub_seed
    (lk <- gen ;;
     colorize_lines (fst lk) (category ++ snd lk) use_color).

(** [main] behind the argument parser: the text written, or [None] when an
    exception ends the run. *)
Definition main (env : Env) (args : Args) : option str :=
  let rng := rs_seed (match seed args with
                      | Some s => s
                      | None => entropy env
                      end) in
  let use_color :=
    if str_eqb (color args) (lit "on") then true
    else if str_eqb (color args) (lit "off") then false
    else stdout_isatty env in
  let generate :=
    flowers <- mapM (fun _ => make_plant (random_flower (size args))
                                (lit "flower_") use_color)
                 (range 0 (count args)) ;;
    trees <- mapM (fun _ => make_plant (random_tree (size args))
                              (lit "tree_") use_color)
               (range 0 (trees args)) ;;
    ret (flowers ++ trees) in
  match generate rng with
  | None => None
  | Some (plants, _) =>
      print_garden env plants (layout args) (Z.max 1 (cols args)) 1
        (auto_fit args)
  end.

End Program.
End Flowers.

(** ** garden.py *)

Module Garden.
Section Program.
Context {G : Type} `{RandomSource G}.
(** [os.name == "nt"]. *)
Variable nt : bool.

Definition PETAL_CHARS : list str :=
  [lit "*"; lit "o"; lit "@"; lit "O"; lit "0"; lit "+"; lit "x"; lit "X"].
Definition CENTER_CHARS : list str := [lit "@"; lit "*"; lit "O"].
Definition STEM_CHARS : list str := [lit "|"; lit "!"; lit "i"; lit "l"].

(** One cell of the disc.  [** 2] is taken as the float's product with
    itself; the C library's [pow], which Python calls for it, need not
    round a square the same way in the last place, and a cell on the rim of
    a large disc may then differ.  Which cells of a disc are drawn matters
    to no property below, except where the discs of size 1 are computed. *)
Definition round_cell (radius : Z) (petal center : str) (y x : Z) : M G str :=
  let dx := (float_of_Z x / float_of_Z 2)%float in
  let d2 := (dx * dx + float_of_Z (y * y))%float in
  r <- random ;;
  let noise := (r * 0.6)%float in
  let t := (float_of_Z radius + 0.25 - noise)%float in
  if PrimFloat.leb d2 (t * t)%float then
    if abs_le1 x && abs_le1 y then ret center else ret petal
  else ret (lit " ").

Definition _make_round_flower (size : Z) : M G (list str) :=
  let radius := 1 + size in
  let width_scale := 2 in
  petal <- choice PETAL_CHARS ;;
  center <- choice CENTER_CHARS ;;
  lines <- mapM (fun y =>
             row <- mapM (round_cell radius petal center y)
                      (range (- width_scale * radius)
                             (width_scale * radius + 1)) ;;
             ret (rstrip (concat row)))
           (range (- radius) (radius + 1)) ;;
  stem_height <- randint (1 + size) (2 + 2 * size) ;;
  match lines with
  | [] => raise
  | line0 :: _ =>
      let stem_col := len line0 / 2 in
      stem_char <- choice STEM_CHARS ;;
      ret (lines ++ repeat (spaces stem_col ++ stem_char)
                           (Z.to_nat stem_height))
  end.

Definition _make_star_flower (size : Z) : M G (list str) :=
  petal <- choice PETAL_CHARS ;;
  center <- choice CENTER_CHARS ;;
  let s := size in
  let lines :=
    [ spaces (2 * s) ++ petal;
      spaces s ++ petal ++ spaces (2 * s - 1) ++ petal;
      petal ++ spaces (4 * s - 1) ++ petal;
      spaces s ++ petal ++ spaces (2 * s - 1) ++ petal;
      spaces (2 * s) ++ center ] in
  stem <- choice STEM_CHARS ;;
  k <- randint 0 s ;;
  ret (lines ++ repeat (spaces (2 * s) ++ stem) (Z.to_nat (1 + s + k))).

Definition _make_tulip (size : Z) : M G (list str) :=
  petal <- choice PETAL_CHARS ;;
  center <- choice CENTER_CHARS ;;
  let s := size in
  let lines :=
    [ spaces (1 + s) ++ petal ++ spaces s ++ petal;
      spaces s ++ petal ++ spaces (1 + s) ++ center ++ spaces s ++ petal;
      petal ++ spaces (3 + s) ++ petal ] in
  leaves <- choice [lit "<>"; lit "/\"; lit "()"; lit "~~"] ;;
  let lines := lines ++ [spaces (1 + s) ++ leaves] in
  stem_char <- choice STEM_CHARS ;;
  k <- randint 0 2 ;;
  ret (lines ++ repeat (spaces (2 + s) ++ stem_char) (Z.to_nat (1 + s + k))).

Definition _make_sunflower (size : Z) : M G (list str) :=
  petal <- choice [lit "0"; lit "O"; lit "*"; lit "@"] ;;
  center <- choice [lit "@"; lit "0"; lit "O"] ;;
  let s := size in
  let lines :=
    [ spaces (2 + s) ++ str_mul petal (3 + s);
      spaces (1 + s) ++ petal ++ spaces (1 + s) ++ center
        ++ spaces (1 + s) ++ petal;
      petal ++ spaces (3 + s) ++ petal ] in
  stem_char <- choice STEM_CHARS ;;
  ret (lines ++ repeat (spaces (2 + s) ++ stem_char) (Z.to_nat (2 + s))).

Definition _make_cherry_flower (size : Z) : M G (list str) :=
  petal <- (if negb nt then choice [lit "o"; blossom; blossom2]
            else choice [lit "o"; lit "*"]) ;;
  center <- choice [lit "."; lit "@"] ;;
  let s := size in
  let lines :=
    [ spaces (1 + s) ++ petal ++ lit " " ++ petal;
      spaces s ++ petal ++ center ++ petal;
      petal ++ spaces (1 + s) ++ petal ] in
  stem_char <- choice STEM_CHARS ;;
  ret (lines ++ repeat (spaces (2 + s) ++ stem_char) (Z.to_nat (1 + s))).

(** [random_flower(size, seed, rng)] with the [rng] its callers pass. *)
Definition random_flower (size : Z) : M G (list str * str) :=
  kind <- choice [lit "round"; lit "star"; lit "tulip"; lit "sunflower";
                  lit "cherry"] ;;
  if str_eqb kind (lit "round") then
    l <- _make_round_flower size ;; ret (l, kind)
  else if str_eqb kind (lit "star") then
    l <- _make_star_flower size ;; ret (l, kind)
  else if str_eqb kind (lit "sunflower") then
    l <- _make_sunflower size ;; ret (l, kind)
  else if str_eqb kind (lit "cherry") then
    l <- _make_cherry_flower size ;; ret (l, kind)
  else
    l <- _make_tulip size ;; ret (l, kind).

Definition _make_pine_tree (size : Z) : list str :=
  let s := Z.max 1 size in
  let lines :=
    flat_map (fun layer =>
      let width := 1 + 2 * (layer + s) in
      map (fun row =>
             let pad := (4 * s + 2) - row in
             let foliage := str_mul (lit "^") (1 + 2 * row) in
             spaces pad ++ foliage)
          (range 0 width))
      (range 0 3) in
  let trunk_w := 1 + (s / 2) in
  let trunk_pad := (4 * s + 2) - trunk_w / 2 in
  lines ++ repeat (spaces trunk_pad ++ str_mul (lit "|") trunk_w)
                  (Z.to_nat (1 + s)).

(** One cell of the canopy; [x / 2.0] and [(radius + 0.2) ** 2]. *)
Definition broad_cell (radius : Z) (petal : str) (y x : Z) : str :=
  let dx := (float_of_Z x / 2)%float in
  let t := (float_of_Z radius + 0.2)%float in
  if PrimFloat.leb (dx * dx + float_of_Z (y * y))%float (t * t)%float
  then petal else lit " ".

Definition _make_broad_tree (size : Z) : option (list str) :=
  let radius := 2 + size in
  let petal := lit "#" in
  let lines :=
    map (fun y =>
           rstrip (concat (map (broad_cell radius petal y)
                               (range (- 2 * radius) (2 * radius + 1)))))
        (range (- radius) (radius + 1)) in
  match lines with
  | [] => None
  | line0 :: _ =>
      let trunk_col := len line0 / 2 in
      let trunk_char := lit "|" in
      Some (lines ++ repeat (spaces trunk_col ++ trunk_char)
                            (Z.to_nat (1 + size)))
  end.

(** [random_tree(size, seed, rng)] with the [rng] its callers pass. *)
Definition random_tree (size : Z) : M G (list str * str) :=
  kind <- choice [lit "pine"; lit "broad"; lit "bonsai"; lit "cherry"] ;;
  if str_eqb kind (lit "pine") then
    ret (_make_pine_tree size, kind)
  else if str_eqb kind (lit "bonsai") then
    l <- lift (_make_broad_tree (Z.max 1 (size - 1))) ;; ret (l, kind)
  else if str_eqb kind (lit "cherry") then
    canopy <- lift (_make_broad_tree (size + 1)) ;;
    let canopy :=
      map (replace_char 35%N (if negb nt then blossom else lit "o")) canopy in
    ret (canopy, kind)
  else
    l <- lift (_make_broad_tree size) ;; ret (l, kind).

(** The colour of one character other than a space: the [if]/[elif]
    chain of [colorize_lines]. *)
Definition char_color (plant_kind : str) : M G str :=
  if endswith plant_kind (lit "cherry")
     || startswith plant_kind (lit "flower_cherry")
  then choice [lit "magenta"; lit "bright_yellow"]
  else if startswith plant_kind (lit "flower_sunflower")
  then choice [lit "yellow"; lit "bright_yellow"]
  else if startswith plant_kind (lit "flower_")
  then choice [lit "bright_green"; lit "green"; lit "bright_yellow";
               lit "magenta"; lit "red"]
  else if endswith plant_kind (lit "bonsai")
          || startswith plant_kind (lit "tree_bonsai")
  then ret (lit "bright_green")
  else choice [lit "green"; lit "bright_green"].

(** The [for ch in line] loop of [colorize_lines]. *)
Fixpoint colorize_line (plant_kind : str) (line : str) : M G str :=
  match line with
  | [] => ret []
  | ch :: rest =>
      if (ch =? sp)%N then
        out <- colorize_line plant_kind rest ;; ret (ch :: out)
      else
        c <- char_color plant_kind ;;
        out <- colorize_line plant_kind rest ;;
        ret (_color_wrap [ch] c true ++ out)
  end.

Definition colorize_lines (lines : list str) (plant_kind : str)
  (enabled : bool) : M G (list str) :=
  if negb enabled then ret lines
  else mapM (colorize_line plant_kind) lines.

(** The visible width of a plant: [max((_visible_len(ln) for ln in p),
    default=0)]. *)
Definition plant_width (p : list str) : Z :=
  max_default 0 (map _visible_len p).

(** One plant of a row-group: its rows padded on the right to its own
    width [w], then rows of spaces up to [max_h] rows. *)
Definition pad_plant (max_h : Z) (p : list str) (w : Z) : list str :=
  let new_lines :=
    map (fun ln => let pad_amount := w - _visible_len ln in
                   ln ++ spaces pad_amount) p in
  new_lines ++ repeat (spaces w) (Z.to_nat (max_h - len new_lines)).

(** The height of a row-group: [max(heights) if heights else 0]. *)
Definition row_height (row : list (list str)) : Z :=
  max_default 0 (map len row).

Definition padded_blocks (row : list (list str)) : list (list str) :=
  let widths := map plant_width row in
  let max_h := row_height row in
  map (fun pw => pad_plant max_h (fst pw) (snd pw)) (combine row widths).

(** The body of the [for row_start] loop: the lines of one row-group and
    the blank line that follows them.  [padded[c][r]] is in range, every
    block having [max_h] rows. *)
Definition render_row (gap : Z) (row : list (list str)) : list str :=
  let max_h := row_height row in
  let padded := padded_blocks row in
  map (fun r =>
         let parts := map (fun blk => nth (Z.to_nat r) blk []) padded in
         rstrip (join (spaces gap) parts))
      (range 0 max_h)
  ++ [[]].

Definition render_horizontal (plants : list (list str)) (cols gap : Z)
  : list str :=
  let cols := if cols <? 1 then 1 else cols in
  flat_map (fun row_start =>
              render_row gap (slice plants row_start (row_start + cols)))
           (range_step 0 (len plants) cols).

(** The column count of the auto-fit branch of [print_garden]. *)
Definition auto_fit_cols (env : Env) (plants : list (list str)) (gap : Z)
  : option Z :=
  let term_w := get_terminal_columns env in
  let max_w := max_default 1 (map plant_width plants) in
  if max_w + gap =? 0 then None
  else Some (Z.max 1 ((term_w + gap) / (max_w + gap))).

(** The vertical branch: the plants one after another, [gap] empty lines
    between two of them. *)
Fixpoint vertical_lines (plants : list (list str)) (gap : Z) : list str :=
  match plants with
  | [] => []
  | [p] => p
  | p :: ps => p ++ repeat [] (Z.to_nat gap) ++ vertical_lines ps gap
  end.

(** [print_garden]: the text written to standard output. *)
Definition print_garden (env : Env) (plants : list (list str))
  (layout : str) (cols gap : Z) (auto_fit : bool) : option str :=
  if str_eqb layout (lit "horizontal") then
    match (if auto_fit then auto_fit_cols env plants gap else Some cols) with
    | None => None
    | Some cols =>
        let lines := render_horizontal plants cols (gap * 2) in
        Some (join [NL] lines ++ [NL])
    end
  else
    Some (join [NL] (vertical_lines plants gap) ++ [NL]).

(** One turn of a generation loop of [main]: a sub-seed from the master
    source, a source of the plant's own, the plant and its colours. *)
Definition make_plant (gen : M G (list str * str)) (category : str)
  (use_color : bool) : M G (list str) :=
  sub_seed <- randint 0 (2 ^ 31 - 1) ;;
  with_seed sub_seed
    (lk <- gen ;;
     colorize_lines (fst lk) (category ++ snd lk) use_color).

(** [main] behind the argument parser: the text written, or [None] when an
    exception ends the run. *)
Definition main (env : Env) (args : Args) : option str :=
  let rng := rs_seed (match seed args with
                      | Some s => s
                      | None => entropy env
                      end) in
  let use_color :=
    if str_eqb (color args) (lit "on") then true
    else if str_eqb (color args) (lit "off") then false
    else stdout_isatty env in
  let generate :=
    flowers <- mapM (fun _ => make_plant (random_flower (size args))
                                (lit "flower_") use_color)
                 (range 0 (count args)) ;;
    trees <- mapM (fun _ => make_plant (random_tree (size args))
                              (lit "tree_") use_color)
               (range 0 (trees args)) ;;
    ret (flowers ++ trees) in
  match generate rng with
  | None => None
  | Some (plants, _) =>
      print_garden env plants (layout args) (Z.max 1 (cols args)) 1
        (auto_fit args)
  end.

End Program.
End Garden.

(** ** Two concrete random sources

    A scripted source replays a list of raw draws (and zeros once the list
    is used up): [_randbelow(n)] is the draw modulo [n], [random()] the draw
    modulo 2^53 over 2^53.  A linear congruential source serves the runs of
    the whole program. *)

Record Script := { draws : list Z }.

Definition float_of_draw (d : Z) : float :=
  (float_of_Z (d mod 2 ^ 53) / float_of_Z (2 ^ 53))%float.

Definition script_randbelow (g : Script) (n : Z) : Z * Script :=
  match draws g with
  | [] => (0, g)
  | d :: ds => (d mod n, {| draws := ds |})
  end.

Definition script_random (g : Script) : float * Script :=
  match draws g with
  | [] => (float_of_draw 0, g)
  | d :: ds => (float_of_draw d, {| draws := ds |})
  end.

Record Lcg := { lcg_state : Z }.

Definition lcg_next (g : Lcg) : Lcg :=
  {| lcg_state :=
       (6364136223846793005 * lcg_state g + 1442695040888963407) mod 2 ^ 64 |}.

Definition lcg_randbelow (g : Lcg) (n : Z) : Z * Lcg :=
  let g' := lcg_next g in ((lcg_state g' / 2 ^ 33) mod n, g').

Definition lcg_random (g : Lcg) : float * Lcg :=
  let g' := lcg_next g in (float_of_draw (lcg_state g' / 2 ^ 11), g').

(** Two environments and one command line, for the runs the properties
    are tried on: a terminal of 120 columns, and a pipe. *)

Definition tty_env : Env :=
  {| stdout_isatty := true; terminal_columns := Some 120; entropy := 1 |}.

Definition pipe_env : Env :=
  {| stdout_isatty := false; terminal_columns := None; entropy := 2 |}.

Definition demo_args : Args :=
  {| count := 2; size := 1; seed := Some 42; trees := 1;
     color := lit "on"; layout := lit "horizontal"; cols := 2;
     auto_fit := false |}.

(** ** clean_garden.py

    The script reads [garden.py] as text, drops the lines that start with
    a Markdown fence and writes the rest back.  [read_text] and
    [write_text] decode and encode the file; the model starts from the text
    read and ends with the text written. *)

Module CleanGarden.

(** The line boundaries of [str.splitlines]: the characters 10 to 13
    (line feed, vertical tab, form feed, carriage return), 28 to 30, 133,
    8232 and 8233; a carriage return and the line feed after it are one
    boundary. *)
Definition linebreak (c : char) : bool :=
  ((10 <=? c) && (c <=? 13) || (28 <=? c) && (c <=? 30)
   || (c =? 133) || (c =? 8232) || (c =? 8233))%N.

(** [s.splitlines()] over what is left of [s]; [after_cr] says that the
    character before was a carriage return, whose line feed belongs to the same boundary.
    A boundary closes a line; what follows the last boundary is a line
    when it is not empty. *)
Fixpoint splitlines_from (after_cr : bool) (s : str) : list str :=
  match s with
  | [] => []
  | c :: t =>
      if after_cr && (c =? 10)%N then splitlines_from false t
      else if linebreak c then [] :: splitlines_from (c =? 13)%N t
      else match splitlines_from false t with
           | [] => [[c]]
           | ln :: lns => (c :: ln) :: lns
           end
  end.

Definition splitlines (s : str) : list str := splitlines_from false s.

(** [s.lstrip()] and [s.strip()]. *)
Fixpoint lstrip (s : str) : str :=
  match s with
  | [] => []
  | c :: t => if isspace c then lstrip t else s
  end.

Definition strip (s : str) : str := rstrip (lstrip s).

(** [lines] after the two comprehensions. *)
Definition lines (s : str) : list str :=
  let lines :=
    filter (fun ln => negb (startswith (strip ln) (lit "```")))
           (splitlines s) in
  filter (fun ln => negb (startswith (strip ln) (lit "````"))) lines.

(** [new]: the text written back. *)
Definition new (s : str) : str := join [NL] (lines s) ++ [NL].

(** A run of the script on the directory of the script, in which
    [garden.py] holds [garden_py] or is missing: the text [garden.py]
    holds afterwards and the line printed, or [None] for the
    FileNotFoundError of [read_text]. *)
Definition run (garden_py : option str) (p : str) : option (str * str) :=
  match garden_py with
  | None => None
  | Some s => Some (new s, lit "cleaned " ++ p ++ [NL])
  end.

End CleanGarden.

(** ** The vocabulary of the specification *)

Module Spec.

(** The glyphs of a stalk or a trunk: [|] in both files, and the other
    three [STEM_CHARS] of garden.py. *)
Definition stem_glyphs : list char := [124; 33; 105; 108]%N.

Fixpoint lstrip_sp (s : str) : str :=
  match s with
  | c :: t => if (c =? sp)%N then lstrip_sp t else s
  | [] => []
  end.

(** A stem or trunk row: spaces, then one stem glyph once or more. *)
Definition stem_row (row : str) : bool :=
  match lstrip_sp row with
  | [] => false
  | c :: t => existsb (N.eqb c) stem_glyphs && forallb (N.eqb c) t
  end.

(** The plant stands on the ground line: it has a last row, a stem row,
    whose last character is no white space. *)
Definition grounded (lines : list str) : bool :=
  match rev lines with
  | [] => false
  | row :: _ => stem_row row && negb (isspace (last row sp))
  end.

(** A plain row: it carries no colour annotation, so stripping leaves it
    as it is. *)
Definition plain (row : str) : Prop := _strip_ansi row = row.

(** What a plant puts on the ground line of its row-group: its last row,
    padded on the right to the plant's width (nothing for a plant without
    rows). *)
Definition bottom_row (p : list str) : str :=
  match rev p with
  | [] => []
  | ln :: _ => ln ++ spaces (max_default 0 (map _visible_len p)
                             - _visible_len ln)
  end.

(** The colour the rule table gives a stem or trunk run. *)
Definition stem_color (plant_kind : str) : str :=
  if startswith plant_kind (lit "flower_") then lit "green" else lit "brown".

(** The annotation of one unit: colour code, text, reset. *)
Definition colored (color text : str) : str :=
  dict_get ANSI color [] ++ text ++ sgr "0".

(** A row all of whose characters other than spaces have one fixed
    colour, each wrapped on its own. *)
Definition paint (color : str) (row : str) : str :=
  flat_map (fun ch => if (ch =? sp)%N then [ch] else colored color [ch]) row.

(** What a generator owes the layout: it returns, and its plant stands on
    a stem row. *)
Definition returns_grounded {G A} (m : M G (list str * A)) (g : G) : Prop :=
  exists lines kind g',
    m g = Some ((lines, kind), g') /\ grounded lines = true.

Definition stands_on_stem_row {G A} (m : M G (list str * A)) (g : G)
  : Prop :=
  exists lines kind g',
    m g = Some ((lines, kind), g')
    /\ (0 < length lines)%nat /\ grounded lines = true.

(** The rows of a trunk below a canopy. *)
Definition trunk_rows (lines : list str) : Prop :=
  exists body p w n,
    lines = body ++ repeat (spaces p ++ str_mul [bar] w) (Z.to_nat n)
    /\ 0 < w /\ 0 < n.

(** The row-groups of the horizontal layout: the slices of [cols] plants
    ([cols] at least 1) that the [for row_start] loop takes. *)
Definition row_groups {A} (plants : list A) (cols : Z) : list (list A) :=
  let cols := Z.max 1 cols in
  map (fun row_start => slice plants row_start (row_start + cols))
      (range_step 0 (len plants) cols).

(** A row of a plant padded on the right to the width [w]. *)
Definition rpad (w : Z) (ln : str) : str := ln ++ spaces (w - _visible_len ln).

(** What a plant of width [w] puts on line [r] of its group when its rows
    keep their index (rows of spaces below the plant), and when they are
    moved down by [shift] lines (rows of spaces above it). *)
Definition cell_top (p : list str) (w : Z) (r : nat) : str :=
  match nth_error p r with
  | Some ln => rpad w ln
  | None => spaces w
  end.

Definition cell_bottom (shift : nat) (p : list str) (w : Z) (r : nat) : str :=
  if (r <? shift)%nat then spaces w else cell_top p w (r - shift).

(** The lists [parts] one after another with [sep] between two of them:
    nothing before the first and nothing after the last. *)
Definition between {A} (sep : list A) (parts : list (list A)) : list A :=
  match parts with
  | [] => []
  | p :: ps => p ++ flat_map (fun q => sep ++ q) ps
  end.

(** The sum of a list of integers. *)
Definition zsum (l : list Z) : Z := fold_right Z.add 0 l.

(** A visible glyph: no white space and not the escape character. *)
Definition glyph (c : char) : bool := negb (isspace c) && negb (c =? ESC)%N.

(** A row as the generators draw it: spaces and glyphs only. *)
Definition drawn (row : str) : bool :=
  forallb (fun c => (c =? sp)%N || glyph c) row.

(** [annotates on off]: the text [on] is the text [off] with some of its
    runs of glyphs wrapped in a colour code of the table and the reset
    code, and nothing else changed. *)
Inductive annotates : str -> str -> Prop :=
| annotates_nil : annotates [] []
| annotates_raw (c : char) (on off : str) :
    c <> ESC -> annotates on off -> annotates (c :: on) (c :: off)
| annotates_wrap (color text on off : str) :
    text <> [] -> forallb glyph text = true -> annotates on off ->
    annotates (dict_get ANSI color [] ++ text ++ sgr "0" ++ on) (text ++ off).

(** The body of the [for row_start] loop with the padding of a plant left
    open: [render_row] of either file is this with the file's own
    [pad_plant]. *)
Definition layout_row (pad : Z -> list str -> Z -> list str) (gap : Z)
  (row : list (list str)) : list str :=
  let max_h := max_default 0 (map len row) in
  let padded :=
    map (fun pw => pad max_h (fst pw) (snd pw))
        (combine row (map (fun p => max_default 0 (map _visible_len p)) row)) in
  map (fun r =>
         let parts := map (fun blk => nth (Z.to_nat r) blk []) padded in
         rstrip (join (spaces gap) parts))
      (range 0 max_h)
  ++ [[]].

(** The parsed arguments with another [--color]. *)
Definition with_color (args : Args) (c : str) : Args :=
  {| count := count args; size := size args; seed := seed args;
     trees := trees args; color := c; layout := layout args;
     cols := cols args; auto_fit := auto_fit args |}.

(** A generator returns, and the rows it returns hold spaces and visible
    characters only, so that a row is as wide as it is long. *)
Definition returns_drawn {G A} (m : M G (list str * A)) (g : G) : Prop :=
  exists lines kind g',
    m g = Some (lines, kind, g')
    /\ Forall (fun row => drawn row = true /\ _visible_len row = len row)
              lines.

(** The box of a flower of a size and a kind: the least and the greatest
    number of rows, and the greatest length of a row. *)
Definition flower_box (size : Z) (kind : str) : Z * Z * Z :=
  let s := size in
  if str_eqb kind (lit "round") then (3 * s + 4, 4 * s + 5, 4 * s + 5)
  else if str_eqb kind (lit "star") then (s + 6, 2 * s + 6, 4 * s + 1)
  else if str_eqb kind (lit "sunflower") then (s + 5, s + 5, 3 * s + 6)
  else if str_eqb kind (lit "cherry") then (s + 4, s + 4, s + 4)
  else (s + 5, s + 7, 3 * s + 4).

Definition in_box (box : Z * Z * Z) (lines : list str) : Prop :=
  let '(h_lo, h_hi, w) := box in
  h_lo <= len lines <= h_hi /\ Forall (fun row => len row <= w) lines.

(** A generator returns a plant that fits the box of its kind. *)
Definition returns_boxed {G} (box : str -> Z * Z * Z)
  (m : M G (list str * str)) (g : G) : Prop :=
  exists lines kind g', m g = Some (lines, kind, g') /\ in_box (box kind) lines.

(** A line that [clean_garden.py] drops: it starts, after white space,
    with a fence of three backticks. *)
Definition fenced (ln : str) : bool :=
  startswith (CleanGarden.strip ln) (lit "```").

End Spec.
Import Spec.

(** * Properties *)

(** ** The concrete sources are random sources *)

Lemma script_randbelow_range :
  forall g n, 0 < n -> 0 <= fst (script_randbelow g n) < n.
Proof.
  intros [ds] n Hn. unfold script_randbelow. cbn [draws].
  destruct ds as [|d ds]; cbn [fst].
  - lia.
  - apply Z.mod_pos_bound. exact Hn.
Qed.

Lemma lcg_randbelow_range :
  forall g n, 0 < n -> 0 <= fst (lcg_randbelow g n) < n.
Proof.
  intros g n Hn. unfold lcg_randbelow. cbn [fst].
  apply Z.mod_pos_bound. exact Hn.
Qed.

#[export] Instance script_source : RandomSource Script := {|
  rs_seed := fun z => {| draws := [z] |};
  rs_randbelow := script_randbelow;
  rs_random := script_random;
  rs_randbelow_range := script_randbelow_range
|}.

#[export] Instance lcg_source : RandomSource Lcg := {|
  rs_seed := fun z => {| lcg_state := z mod 2 ^ 64 |};
  rs_randbelow := lcg_randbelow;
  rs_random := lcg_random;
  rs_randbelow_range := lcg_randbelow_range
|}.

(** ** Drawing from a source *)

Section Draws.
Context {G : Type} `{RandomSource G}.

Lemma bind_some {A B} (m : M G A) (k : A -> M G B) g a g' :
  m g = Some (a, g') -> bind m k g = k a g'.
Proof. intros E. unfold bind. rewrite E. reflexivity. Qed.

Lemma bind_none {A B} (m : M G A) (k : A -> M G B) g :
  m g = None -> bind m k g = None.
Proof. intros E. unfold bind. rewrite E. reflexivity. Qed.

Lemma choice_total {A} (seq : list A) (g : G) :
  seq <> [] -> exists x g', choice seq g = Some (x, g') /\ In x seq.
Proof.
  intros Hne. unfold choice.
  destruct seq as [|a seq']; [congruence|].
  set (seq := a :: seq') in *.
  pose proof (rs_randbelow_range g (len seq)) as Hr.
  destruct (rs_randbelow g (len seq)) as [i g'] eqn:E. cbn [fst] in Hr.
  assert (Hlen : 0 < len seq) by (unfold len, seq; cbn [length]; lia).
  specialize (Hr Hlen).
  destruct (nth_error seq (Z.to_nat i)) as [x|] eqn:En.
  - exists x, g'. split; [reflexivity|]. eapply nth_error_In; eauto.
  - apply nth_error_None in En. unfold len in Hr. lia.
Qed.

Lemma randint_total (a b : Z) (g : G) :
  a <= b -> exists k g', randint a b g = Some (k, g') /\ a <= k <= b.
Proof.
  intros Hab. unfold randint.
  destruct (b <? a) eqn:E; [apply Z.ltb_lt in E; lia|].
  pose proof (rs_randbelow_range g (b - a + 1)) as Hr.
  destruct (rs_randbelow g (b - a + 1)) as [k g']. cbn [fst] in Hr.
  exists (a + k), g'. split; [reflexivity|]. lia.
Qed.

Lemma mapM_total {A B} (f : A -> M G B) (l : list A) :
  (forall a g, In a l -> exists b g', f a g = Some (b, g')) ->
  forall g, exists bs g', mapM f l g = Some (bs, g')
                          /\ length bs = length l.
Proof.
  induction l as [|a l IH]; intros Hf g.
  - exists [], g. split; reflexivity.
  - destruct (Hf a g (or_introl eq_refl)) as (b & g1 & E1).
    destruct (IH (fun a' g' Hin => Hf a' g' (or_intror Hin)) g1)
      as (bs & g2 & E2 & Hlen).
    exists (b :: bs), g2. cbn [mapM].
    rewrite (bind_some _ _ _ _ _ E1), (bind_some _ _ _ _ _ E2).
    split; [reflexivity|]. cbn [length]. now rewrite Hlen.
Qed.

End Draws.

(** Runs a [choice] or a [randint] at the head of the computation of the
    goal, naming what it returns. *)
Ltac draw_choice x Hx :=
  match goal with
  | |- context [bind (choice ?l) ?k ?g] =>
      let g' := fresh "g" in
      let E := fresh "E" in
      destruct (choice_total l g) as (x & g' & E & Hx);
      [discriminate|];
      rewrite (bind_some (choice l) k g x g' E); cbv beta
  end.

Ltac draw_randint x Hx :=
  match goal with
  | |- context [bind (randint ?a ?b) ?k ?g] =>
      let g' := fresh "g" in
      let E := fresh "E" in
      destruct (randint_total a b g) as (x & g' & E & Hx);
      [try lia|];
      rewrite (bind_some (randint a b) k g x g' E); cbv beta
  end.

(** ** Lists and strings *)

Lemma range_length lo hi : length (range lo hi) = Z.to_nat (hi - lo).
Proof. unfold range. now rewrite length_map, length_seq. Qed.

Lemma range_nonempty lo hi : lo < hi -> range lo hi <> [].
Proof.
  intros Hlt E. apply (f_equal (@length Z)) in E.
  rewrite range_length in E. cbn in E. lia.
Qed.

Lemma last_app_repeat {A} (l : list A) (x d : A) (n : nat) :
  (0 < n)%nat -> last (l ++ repeat x n) d = x.
Proof.
  intros Hn. destruct n as [|n]; [lia|].
  replace (repeat x (S n)) with (repeat x n ++ [x]).
  - now rewrite app_assoc, last_last.
  - change [x] with (repeat x 1). rewrite <- repeat_app.
    f_equal. lia.
Qed.

Lemma app_repeat_nonempty {A} (l : list A) (x : A) (n : nat) :
  (0 < n)%nat -> l ++ repeat x n <> [].
Proof.
  intros Hn E. apply (f_equal (@length A)) in E.
  rewrite length_app, repeat_length in E. cbn in E. lia.
Qed.

Lemma str_mul_char (c : char) (n : Z) :
  str_mul [c] n = repeat c (Z.to_nat n).
Proof.
  unfold str_mul. induction (Z.to_nat n) as [|k IH]; cbn; [reflexivity|].
  now rewrite IH.
Qed.

Lemma spaces_repeat n : spaces n = repeat sp (Z.to_nat n).
Proof. apply str_mul_char. Qed.

Lemma spaces_length n : length (spaces n) = Z.to_nat n.
Proof. now rewrite spaces_repeat, repeat_length. Qed.

Lemma fold_left_max_ge (l : list Z) (a : Z) :
  a <= fold_left Z.max l a
  /\ forall x, In x l -> x <= fold_left Z.max l a.
Proof.
  revert a. induction l as [|y l IH]; intros a; cbn [fold_left].
  - split; [lia|intros x []].
  - destruct (IH (Z.max a y)) as [Ha Hin]. split; [lia|].
    intros x [<-|Hx]; [lia|auto].
Qed.

Lemma max_default_ge (d : Z) (l : list Z) (x : Z) :
  In x l -> x <= max_default d l.
Proof.
  destruct l as [|y l]; [intros []|]. cbn [max_default].
  destruct (fold_left_max_ge l y) as [Hy Hin].
  intros [<-|Hx]; auto.
Qed.

Lemma combine_map_r {A B} (f : A -> B) (l : list A) :
  combine l (map f l) = map (fun a => (a, f a)) l.
Proof. induction l as [|a l IH]; cbn; [reflexivity|now rewrite IH]. Qed.

Lemma nth_map_range {A} (f : Z -> A) (h : Z) (k : nat) (d : A) :
  (k < Z.to_nat h)%nat ->
  nth k (map f (range 0 h)) d = f (Z.of_nat k).
Proof.
  intros Hk. unfold range. rewrite map_map.
  rewrite (nth_indep _ d ((fun i : nat => f (0 + Z.of_nat i)) O))
    by (rewrite length_map, length_seq; lia).
  rewrite (map_nth (fun i : nat => f (0 + Z.of_nat i))).
  rewrite seq_nth by lia. f_equal.
Qed.

(** ** Every plant stands on a stem row *)

Lemma stem_row_run (k w : nat) (c : char) :
  In c stem_glyphs -> (0 < w)%nat ->
  stem_row (repeat sp k ++ repeat c w) = true
  /\ isspace (last (repeat sp k ++ repeat c w) sp) = false.
Proof.
  intros Hc Hw.
  assert (Hns : (c =? sp)%N = false /\ isspace c = false).
  { cbn in Hc. destruct Hc as [<-|[<-|[<-|[<-|[]]]]]; split; reflexivity. }
  destruct Hns as [Hsp Hws].
  split.
  - unfold stem_row.
    assert (E : lstrip_sp (repeat sp k ++ repeat c w) = repeat c w).
    { induction k as [|k IH]; cbn.
      - destruct w as [|w]; [lia|]. cbn. now rewrite Hsp.
      - exact IH. }
    rewrite E. destruct w as [|w]; [lia|]. cbn [repeat].
    apply andb_true_iff. split.
    + apply existsb_exists. exists c. split; [exact Hc|apply N.eqb_refl].
    + apply forallb_forall. intros x Hx. apply repeat_spec in Hx. subst x.
      apply N.eqb_refl.
  - replace (last (repeat sp k ++ repeat c w) sp) with c; [exact Hws|].
    symmetry. now apply last_app_repeat.
Qed.

Lemma grounded_stalk (body : list str) (p w n : Z) (c : char) :
  In c stem_glyphs -> 0 < w -> 0 < n ->
  grounded (body ++ repeat (spaces p ++ str_mul [c] w) (Z.to_nat n)) = true.
Proof.
  intros Hc Hw Hn. unfold grounded.
  rewrite spaces_repeat, str_mul_char.
  set (row := repeat sp (Z.to_nat p) ++ repeat c (Z.to_nat w)).
  destruct (Z.to_nat n) as [|m] eqn:En; [lia|].
  replace (repeat row (S m)) with (repeat row m ++ [row]).
  - rewrite app_assoc, rev_app_distr. cbn [rev app].
    destruct (stem_row_run (Z.to_nat p) (Z.to_nat w) c Hc) as [E1 E2];
      [lia|].
    fold row in E1, E2. now rewrite E1, E2.
  - change [row] with (repeat row 1). rewrite <- repeat_app. f_equal. lia.
Qed.

Lemma grounded_length (lines : list str) :
  grounded lines = true -> (0 < length lines)%nat.
Proof.
  unfold grounded. destruct lines as [|l ls]; cbn [rev length].
  - discriminate.
  - lia.
Qed.

Lemma stem_glyph_of_STEM_CHARS (stem : str) :
  In stem Garden.STEM_CHARS ->
  exists c, stem = str_mul [c] 1 /\ In c stem_glyphs.
Proof.
  intros Hin. cbn in Hin.
  destruct Hin as [<-|[<-|[<-|[<-|[]]]]];
    eexists; (split; [reflexivity|]); cbn; tauto.
Qed.

Lemma flat_map_repeat_id {A} (f : A -> list A) (c : A) (n : nat) :
  f c = [c] -> flat_map f (repeat c n) = repeat c n.
Proof.
  intros E. induction n as [|n IH]; cbn; [reflexivity|].
  now rewrite E, IH.
Qed.

Lemma replace_char_stalk (new : str) (p w : Z) :
  replace_char 35%N new (spaces p ++ str_mul [bar] w)
  = spaces p ++ str_mul [bar] w.
Proof.
  unfold replace_char. rewrite spaces_repeat, str_mul_char, flat_map_app.
  now rewrite !flat_map_repeat_id by reflexivity.
Qed.

Section Grounded.
Context {G : Type} `{RandomSource G}.
Variable nt : bool.

Lemma fl_round_rows_total radius petal center (ys : list Z) lo hi (g : G) :
  exists lines g',
    mapM (fun y =>
            row <- mapM (Flowers.round_cell radius petal center y)
                     (range lo hi) ;;
            ret (rstrip (concat row))) ys g = Some (lines, g')
    /\ length lines = length ys.
Proof.
  apply mapM_total. intros y g0 _.
  destruct (mapM_total (Flowers.round_cell radius petal center y)
              (range lo hi)) with (g := g0) as (row & g1 & E & _).
  - intros x g2 _. unfold Flowers.round_cell, bind, random.
    destruct (rs_random g2) as [r g3].
    repeat match goal with |- context [if ?b then _ else _] => destruct b end;
      eexists _, _; reflexivity.
  - rewrite (bind_some _ _ _ _ _ E). eexists _, _. reflexivity.
Qed.

Lemma fl_round_grounded size (g : G) : 1 <= size ->
  exists lines g', Flowers._make_round_flower size g = Some (lines, g')
                   /\ grounded lines = true.
Proof.
  intros Hs. unfold Flowers._make_round_flower.
  draw_choice petal Hp. draw_choice center Hc.
  match goal with |- context [bind (mapM ?f ?l) ?k ?g] =>
    destruct (fl_round_rows_total (1 + size) petal center l
                (- 2 * (1 + size)) (2 * (1 + size) + 1) g)
      as (lines & g' & E' & Hlen);
    rewrite (bind_some (mapM f l) k g lines g' E'); cbv beta
  end.
  draw_randint h Hh.
  destruct lines as [|line0 lines'].
  - rewrite range_length in Hlen. cbn [length] in Hlen. lia.
  - eexists _, _. split; [reflexivity|].
    apply (grounded_stalk _ _ 1 _ bar); [cbn; tauto|lia|lia].
Qed.


Ltac close_flowers_stalk :=
  eexists _, _; split; [reflexivity|];
  apply (grounded_stalk _ _ 1 _ bar); [cbn; tauto|lia|lia].

Lemma fl_star_grounded size (g : G) : 1 <= size ->
  exists lines g', Flowers._make_star_flower size g = Some (lines, g')
                   /\ grounded lines = true.
Proof.
  intros Hs. unfold Flowers._make_star_flower.
  draw_choice petal Hp. draw_choice center Hc. draw_randint k Hk.
  close_flowers_stalk.
Qed.

Lemma fl_tulip_grounded size (g : G) : 1 <= size ->
  exists lines g', Flowers._make_tulip size g = Some (lines, g')
                   /\ grounded lines = true.
Proof.
  intros Hs. unfold Flowers._make_tulip.
  draw_choice petal Hp. draw_choice center Hc. draw_choice leaves Hl.
  draw_randint k Hk. close_flowers_stalk.
Qed.

Lemma fl_sunflower_grounded size (g : G) : 1 <= size ->
  exists lines g', Flowers._make_sunflower size g = Some (lines, g')
                   /\ grounded lines = true.
Proof.
  intros Hs. unfold Flowers._make_sunflower.
  draw_choice petal Hp. draw_choice center Hc. close_flowers_stalk.
Qed.

Lemma fl_cherry_grounded size (g : G) : 1 <= size ->
  exists lines g', Flowers._make_cherry_flower nt size g = Some (lines, g')
                   /\ grounded lines = true.
Proof.
  intros Hs. unfold Flowers._make_cherry_flower.
  destruct nt; cbn [negb];
    draw_choice petal Hp; draw_choice center Hc; close_flowers_stalk.
Qed.

(** Lifts a generator's lemma through the dispatch of [random_flower] and
    [random_tree]. *)
Ltac via_generator L :=
  let lines := fresh "lines" in
  let g' := fresh "g" in
  let E := fresh "E" in
  let Hg := fresh "Hg" in
  destruct L as (lines & g' & E & Hg);
  rewrite (bind_some _ _ _ _ _ E);
  eexists _, _, _; split; [reflexivity|exact Hg].

Lemma fl_random_flower_grounded size (g : G) : 1 <= size ->
  returns_grounded (Flowers.random_flower nt size) g.
Proof.
  intros Hs. unfold returns_grounded, Flowers.random_flower.
  draw_choice kind Hk.
  repeat match goal with
         | |- context [if str_eqb kind ?s then _ else _] =>
             destruct (str_eqb kind s)
         end.
  - via_generator (fl_round_grounded size g0 Hs).
  - via_generator (fl_star_grounded size g0 Hs).
  - via_generator (fl_sunflower_grounded size g0 Hs).
  - via_generator (fl_cherry_grounded size g0 Hs).
  - via_generator (fl_tulip_grounded size g0 Hs).
Qed.

Lemma fl_pine_grounded size :
  grounded (Flowers._make_pine_tree size) = true.
Proof.
  unfold Flowers._make_pine_tree. cbv zeta.
  apply (grounded_stalk _ _ _ _ bar); [cbn; tauto|lia|lia].
Qed.

Lemma trunk_rows_grounded lines : trunk_rows lines -> grounded lines = true.
Proof.
  intros (body & p & w & n & -> & Hw & Hn).
  apply grounded_stalk; [cbn; tauto|lia|lia].
Qed.

Lemma trunk_rows_replace new lines :
  trunk_rows lines -> trunk_rows (map (replace_char 35%N new) lines).
Proof.
  intros (body & p & w & n & -> & Hw & Hn).
  exists (map (replace_char 35%N new) body), p, w, n.
  rewrite map_app, map_repeat, replace_char_stalk. auto.
Qed.

Lemma fl_broad_trunk size : 0 <= size ->
  exists lines, Flowers._make_broad_tree size = Some lines
                /\ trunk_rows lines.
Proof.
  intros Hs. unfold Flowers._make_broad_tree. cbv zeta.
  match goal with |- context [map ?f (range ?a ?b)] =>
    destruct (map f (range a b)) as [|line0 lines'] eqn:E
  end.
  - apply (f_equal (@length str)) in E.
    rewrite length_map, range_length in E. cbn [length] in E. lia.
  - eexists. split; [reflexivity|].
    exists (line0 :: lines'). do 3 eexists.
    split; [reflexivity|]. lia.
Qed.

Lemma fl_stylized_grounded size (g : G) :
  exists lines g', Flowers._make_stylized_tree size g = Some (lines, g')
                   /\ grounded lines = true.
Proof.
  unfold Flowers._make_stylized_tree. cbv zeta.
  match goal with |- context [bind (mapM ?f ?l) ?k ?g] =>
    destruct (mapM_total f l) with (g := g) as (lines & g' & E & _);
    [|rewrite (bind_some (mapM f l) k g lines g' E); cbv beta]
  end.
  - intros r g0 _. draw_choice pat Hp. draw_randint j Hj.
    eexists _, _. reflexivity.
  - eexists _, _. split; [reflexivity|].
    apply (grounded_stalk _ _ _ _ bar); [cbn; tauto|lia|lia].
Qed.

Lemma fl_random_tree_grounded size (g : G) : 1 <= size ->
  returns_grounded (Flowers.random_tree nt size) g.
Proof.
  intros Hs. unfold returns_grounded, Flowers.random_tree.
  draw_choice kind Hk.
  repeat match goal with
         | |- context [if str_eqb kind ?s then _ else _] =>
             destruct (str_eqb kind s)
         end.
  - eexists _, _, _. split; [reflexivity|apply fl_pine_grounded].
  - destruct (fl_broad_trunk (Z.max 1 (size - 1))) as (lines & E' & Ht);
      [lia|].
    rewrite E'. eexists _, _, _. split; [reflexivity|].
    now apply trunk_rows_grounded.
  - destruct (fl_broad_trunk (size + 1)) as (lines & E' & Ht); [lia|].
    rewrite E'. eexists _, _, _. split; [reflexivity|].
    now apply trunk_rows_grounded, trunk_rows_replace.
  - via_generator (fl_stylized_grounded (size + 1) g0).
  - destruct (fl_broad_trunk size) as (lines & E' & Ht); [lia|].
    rewrite E'. eexists _, _, _. split; [reflexivity|].
    now apply trunk_rows_grounded.
Qed.


Ltac close_garden_stalk Hstem :=
  let c := fresh "c" in
  let Hc := fresh "Hc" in
  destruct (stem_glyph_of_STEM_CHARS _ Hstem) as (c & -> & Hc);
  eexists _, _; split; [reflexivity|];
  apply (grounded_stalk _ _ 1 _ c); [exact Hc|lia|lia].

Lemma gd_round_rows_total radius petal center (ys : list Z) lo hi (g : G) :
  exists lines g',
    mapM (fun y =>
            row <- mapM (Garden.round_cell radius petal center y)
                     (range lo hi) ;;
            ret (rstrip (concat row))) ys g = Some (lines, g')
    /\ length lines = length ys.
Proof.
  apply mapM_total. intros y g0 _.
  destruct (mapM_total (Garden.round_cell radius petal center y)
              (range lo hi)) with (g := g0) as (row & g1 & E & _).
  - intros x g2 _. unfold Garden.round_cell, bind, random.
    destruct (rs_random g2) as [r g3].
    repeat match goal with |- context [if ?b then _ else _] => destruct b end;
      eexists _, _; reflexivity.
  - rewrite (bind_some _ _ _ _ _ E). eexists _, _. reflexivity.
Qed.

Lemma gd_round_grounded size (g : G) : 1 <= size ->
  exists lines g', Garden._make_round_flower size g = Some (lines, g')
                   /\ grounded lines = true.
Proof.
  intros Hs. unfold Garden._make_round_flower.
  draw_choice petal Hp. draw_choice center Hc.
  match goal with |- context [bind (mapM ?f ?l) ?k ?g] =>
    destruct (gd_round_rows_total (1 + size) petal center l
                (- 2 * (1 + size)) (2 * (1 + size) + 1) g)
      as (lines & g' & E' & Hlen);
    rewrite (bind_some (mapM f l) k g lines g' E'); cbv beta
  end.
  draw_randint h Hh.
  destruct lines as [|line0 lines'].
  - rewrite range_length in Hlen. cbn [length] in Hlen. lia.
  - draw_choice stem Hstem. close_garden_stalk Hstem.
Qed.

Lemma gd_star_grounded size (g : G) : 1 <= size ->
  exists lines g', Garden._make_star_flower size g = Some (lines, g')
                   /\ grounded lines = true.
Proof.
  intros Hs. unfold Garden._make_star_flower.
  draw_choice petal Hp. draw_choice center Hc. draw_choice stem Hstem.
  draw_randint k Hk. close_garden_stalk Hstem.
Qed.

Lemma gd_tulip_grounded size (g : G) : 1 <= size ->
  exists lines g', Garden._make_tulip size g = Some (lines, g')
                   /\ grounded lines = true.
Proof.
  intros Hs. unfold Garden._make_tulip.
  draw_choice petal Hp. draw_choice center Hc. draw_choice leaves Hl.
  draw_choice stem Hstem. draw_randint k Hk. close_garden_stalk Hstem.
Qed.

Lemma gd_sunflower_grounded size (g : G) : 1 <= size ->
  exists lines g', Garden._make_sunflower size g = Some (lines, g')
                   /\ grounded lines = true.
Proof.
  intros Hs. unfold Garden._make_sunflower.
  draw_choice petal Hp. draw_choice center Hc. draw_choice stem Hstem.
  close_garden_stalk Hstem.
Qed.

Lemma gd_cherry_grounded size (g : G) : 1 <= size ->
  exists lines g', Garden._make_cherry_flower nt size g = Some (lines, g')
                   /\ grounded lines = true.
Proof.
  intros Hs. unfold Garden._make_cherry_flower.
  destruct nt; cbn [negb];
    draw_choice petal Hp; draw_choice center Hc; draw_choice stem Hstem;
    close_garden_stalk Hstem.
Qed.

Lemma gd_random_flower_grounded size (g : G) : 1 <= size ->
  returns_grounded (Garden.random_flower nt size) g.
Proof.
  intros Hs. unfold returns_grounded, Garden.random_flower.
  draw_choice kind Hk.
  repeat match goal with
         | |- context [if str_eqb kind ?s then _ else _] =>
             destruct (str_eqb kind s)
         end.
  - via_generator (gd_round_grounded size g0 Hs).
  - via_generator (gd_star_grounded size g0 Hs).
  - via_generator (gd_sunflower_grounded size g0 Hs).
  - via_generator (gd_cherry_grounded size g0 Hs).
  - via_generator (gd_tulip_grounded size g0 Hs).
Qed.

Lemma gd_pine_grounded size :
  grounded (Garden._make_pine_tree size) = true.
Proof.
  unfold Garden._make_pine_tree. cbv zeta.
  pose proof (Z.div_pos (Z.max 1 size) 2).
  apply (grounded_stalk _ _ _ _ bar); [cbn; tauto|lia|lia].
Qed.

Lemma gd_broad_trunk size : 0 <= size ->
  exists lines, Garden._make_broad_tree size = Some lines
                /\ trunk_rows lines.
Proof.
  intros Hs. unfold Garden._make_broad_tree. cbv zeta.
  match goal with |- context [map ?f (range ?a ?b)] =>
    destruct (map f (range a b)) as [|line0 lines'] eqn:E
  end.
  - apply (f_equal (@length str)) in E.
    rewrite length_map, range_length in E. cbn [length] in E. lia.
  - eexists. split; [reflexivity|].
    exists (line0 :: lines'), (len line0 / 2), 1, (1 + size).
    split; [reflexivity|]. lia.
Qed.

Lemma gd_random_tree_grounded size (g : G) : 1 <= size ->
  returns_grounded (Garden.random_tree nt size) g.
Proof.
  intros Hs. unfold returns_grounded, Garden.random_tree.
  draw_choice kind Hk.
  repeat match goal with
         | |- context [if str_eqb kind ?s then _ else _] =>
             destruct (str_eqb kind s)
         end.
  - eexists _, _, _. split; [reflexivity|apply gd_pine_grounded].
  - destruct (gd_broad_trunk (Z.max 1 (size - 1))) as (lines & E' & Ht);
      [lia|].
    rewrite E'. eexists _, _, _. split; [reflexivity|].
    now apply trunk_rows_grounded.
  - destruct (gd_broad_trunk (size + 1)) as (lines & E' & Ht); [lia|].
    rewrite E'. eexists _, _, _. split; [reflexivity|].
    now apply trunk_rows_grounded, trunk_rows_replace.
  - destruct (gd_broad_trunk size) as (lines & E' & Ht); [lia|].
    rewrite E'. eexists _, _, _. split; [reflexivity|].
    now apply trunk_rows_grounded.
Qed.

End Grounded.

Lemma returns_grounded_stands {G A} (m : M G (list str * A)) (g : G) :
  returns_grounded m g -> stands_on_stem_row m g.
Proof.
  intros (lines & kind & g' & E & Hg).
  exists lines, kind, g'. auto using grounded_length.
Qed.

(** C10.  For every size of at least 1, every random source and either
    platform, [random_flower] and [random_tree] of both files return a
    grid that has at least one row and whose final row is a stem or trunk
    row: spaces, then a run of one stem glyph, so that it ends in a
    character that is no white space. *)
Theorem plants_stand_on_stem_row :
  forall {G : Type} `{RandomSource G} (nt : bool) (size : Z) (g : G),
    1 <= size ->
    stands_on_stem_row (Flowers.random_flower nt size) g
    /\ stands_on_stem_row (Flowers.random_tree nt size) g
    /\ stands_on_stem_row (Garden.random_flower nt size) g
    /\ stands_on_stem_row (Garden.random_tree nt size) g.
Proof.
  intros G RS nt size g Hs.
  repeat split; apply returns_grounded_stands.
  - now apply fl_random_flower_grounded.
  - now apply fl_random_tree_grounded.
  - now apply gd_random_flower_grounded.
  - now apply gd_random_tree_grounded.
Qed.

Lemma plants_stand_on_stem_row_witness :
  1 <= 2
  /\ stands_on_stem_row (Flowers.random_flower false 2) {| lcg_state := 7 |}
  /\ stands_on_stem_row (Flowers.random_tree false 2) {| lcg_state := 7 |}
  /\ stands_on_stem_row (Garden.random_flower false 2) {| lcg_state := 7 |}
  /\ stands_on_stem_row (Garden.random_tree false 2) {| lcg_state := 7 |}.
Proof.
  split; [lia|].
  apply (plants_stand_on_stem_row false 2 {| lcg_state := 7 |}). lia.
Defined.

(** ** Stripping what the colorizer wrote *)

Lemma strip_from_skipn (k : nat) (s : str) :
  strip_from k s = strip_from 0 (skipn k s).
Proof.
  revert s. induction k as [|k IH]; intros s; [reflexivity|].
  destruct s as [|c t]; [reflexivity|]. cbn [strip_from skipn]. apply IH.
Qed.

(** Every entry of the colour table, and the empty default, vanishes. *)
Lemma strip_code (key rest : str) :
  _strip_ansi (dict_get ANSI key [] ++ rest) = _strip_ansi rest.
Proof.
  unfold ANSI. cbn [dict_get].
  repeat match goal with
         | |- context [if str_eqb ?a key then _ else _] =>
             destruct (str_eqb a key); [reflexivity|]
         end.
  reflexivity.
Qed.

Lemma strip_keeps (ch : char) (rest : str) :
  match_sgr (ch :: rest) = None ->
  _strip_ansi (ch :: rest) = ch :: _strip_ansi rest.
Proof. intros E. unfold _strip_ansi. cbn [strip_from]. now rewrite E. Qed.

Lemma match_sgr_before_ESC (ch : char) (rest : str) :
  match_sgr (ch :: ESC :: rest) = None.
Proof.
  unfold match_sgr. destruct (ch =? ESC)%N; reflexivity.
Qed.

Lemma match_sgr_not_ESC (ch : char) (rest : str) :
  ch <> ESC -> match_sgr (ch :: rest) = None.
Proof.
  intros Hne. unfold match_sgr. destruct rest as [|b t]; [reflexivity|].
  apply N.eqb_neq in Hne. now rewrite Hne.
Qed.

(** One wrapped character, whatever it is and whatever the colour. *)
Lemma strip_wrap_char (ch : char) (c rest : str) :
  _strip_ansi (_color_wrap [ch] c true ++ rest) = ch :: _strip_ansi rest.
Proof.
  unfold _color_wrap. cbn [negb]. rewrite <- !app_assoc, strip_code.
  cbn [app]. change (dict_get ANSI (lit "reset") []) with (sgr "0").
  unfold sgr. cbn [app lit map String.list_ascii_of_string].
  rewrite strip_keeps by apply match_sgr_before_ESC.
  reflexivity.
Qed.

Lemma strip_bars (seg rest : str) :
  Forall (fun c => c = bar) seg ->
  _strip_ansi (seg ++ rest) = seg ++ _strip_ansi rest.
Proof.
  induction 1 as [|c seg Hc _ IH]; [reflexivity|].
  cbn [app]. rewrite strip_keeps, IH; [reflexivity|].
  apply match_sgr_not_ESC. subst c. discriminate.
Qed.

Lemma strip_wrap_bars (seg c rest : str) :
  Forall (fun ch => ch = bar) seg ->
  _strip_ansi (_color_wrap seg c true ++ rest) = seg ++ _strip_ansi rest.
Proof.
  intros Hseg. unfold _color_wrap. cbn [negb].
  rewrite <- !app_assoc, strip_code, strip_bars by exact Hseg.
  reflexivity.
Qed.

Lemma takewhile_bar_prefix (s : str) :
  firstn (length (takewhile_bar s)) s = takewhile_bar s
  /\ Forall (fun c => c = bar) (takewhile_bar s).
Proof.
  induction s as [|c t [IH1 IH2]]; cbn; [auto|].
  destruct (N.eqb_spec c bar) as [->|Hne]; cbn.
  - rewrite IH1. auto.
  - auto.
Qed.

Section Colorize.
Context {G : Type} `{RandomSource G}.

Lemma bind_inv {A B} (m : M G A) (k : A -> M G B) g r :
  bind m k g = Some r -> exists a g1, m g = Some (a, g1) /\ k a g1 = Some r.
Proof.
  unfold bind. destruct (m g) as [[a g1]|]; [|discriminate].
  intros E. now exists a, g1.
Qed.

Lemma mapM_inv {A B} (f : A -> M G B) (P : A -> B -> Prop) (l : list A) :
  (forall a g b g', f a g = Some (b, g') -> P a b) ->
  forall g bs g', mapM f l g = Some (bs, g') -> Forall2 P l bs.
Proof.
  intros Hf. induction l as [|a l IH]; intros g bs g' E; cbn [mapM] in E.
  - inversion E. constructor.
  - apply bind_inv in E. destruct E as (b & g1 & E1 & E).
    apply bind_inv in E. destruct E as (bs' & g2 & E2 & E).
    inversion E; subst. constructor; eauto.
Qed.

Lemma fl_foliage_color_total kind (g : G) :
  exists c g', Flowers.foliage_color kind g = Some (c, g').
Proof.
  unfold Flowers.foliage_color.
  repeat match goal with |- context [if ?b then _ else _] => destruct b end;
    match goal with |- context [choice ?l g] =>
      destruct (choice_total l g) as (c & g' & E & _); [discriminate|];
      now exists c, g'
    end.
Qed.

Lemma fl_colorize_from_total kind (line : str) :
  forall skip (g : G),
    exists out g', Flowers.colorize_from kind skip line g = Some (out, g').
Proof.
  induction line as [|ch rest IH]; intros skip g.
  - destruct skip; eexists _, _; reflexivity.
  - cbn [Flowers.colorize_from]. destruct skip as [|k]; [|apply IH].
    destruct (ch =? sp)%N; [|destruct (ch =? bar)%N].
    + destruct (IH 0%nat g) as (out & g' & E).
      rewrite (bind_some _ _ _ _ _ E). eexists _, _. reflexivity.
    + match goal with |- context [bind (Flowers.colorize_from _ ?j _) _ _] =>
        destruct (IH j g) as (out & g' & E)
      end.
      rewrite (bind_some _ _ _ _ _ E). eexists _, _. reflexivity.
    + destruct (fl_foliage_color_total kind g) as (c & g1 & Ec).
      rewrite (bind_some _ _ _ _ _ Ec).
      destruct (IH 0%nat g1) as (out & g' & E).
      rewrite (bind_some _ _ _ _ _ E). eexists _, _. reflexivity.
Qed.

Lemma fl_colorize_from_strip kind (line : str) :
  forall skip (g : G) out g',
    Flowers.colorize_from kind skip line g = Some (out, g') ->
    _strip_ansi out = skipn skip line.
Proof.
  induction line as [|ch rest IH]; intros skip g out g' E.
  - cbn in E. inversion E. now destruct skip.
  - cbn [Flowers.colorize_from] in E. destruct skip as [|k].
    2:{ cbn [skipn]. eapply IH; eauto. }
    cbn [skipn].
    destruct (N.eqb_spec ch sp) as [->|Hsp];
      [|destruct (N.eqb_spec ch bar) as [->|Hbar]].
    + apply bind_inv in E. destruct E as (o & g1 & E1 & E).
      inversion E; subst. apply IH in E1. cbn [skipn] in E1.
      rewrite strip_keeps by (apply match_sgr_not_ESC; discriminate).
      now rewrite E1.
    + apply bind_inv in E. destruct E as (o & g1 & E1 & E).
      apply IH in E1. injection E as <- _.
      destruct (takewhile_bar_prefix (bar :: rest)) as [Hfirst Hall].
      set (n := length (takewhile_bar (bar :: rest))) in *.
      assert (Hn : n = S (length (takewhile_bar rest))).
      { unfold n. cbn [takewhile_bar]. now rewrite N.eqb_refl. }
      assert (Hseg : forall c,
                 _strip_ansi (_color_wrap (firstn n (bar :: rest)) c true ++ o)
                 = bar :: rest).
      { intros c. rewrite strip_wrap_bars by (rewrite Hfirst; exact Hall).
        rewrite E1.
        transitivity (firstn n (bar :: rest) ++ skipn n (bar :: rest));
          [|apply firstn_skipn].
        f_equal. rewrite Hn. cbn [skipn]. f_equal. lia. }
      destruct (startswith kind (lit "flower_")); apply Hseg.
    + apply bind_inv in E. destruct E as (c & g1 & Ec & E).
      apply bind_inv in E. destruct E as (o & g2 & E1 & E).
      inversion E; subst. apply IH in E1. cbn [skipn] in E1.
      now rewrite strip_wrap_char, E1.
Qed.


Lemma gd_char_color_total kind (g : G) :
  exists c g', Garden.char_color kind g = Some (c, g').
Proof.
  unfold Garden.char_color.
  repeat match goal with |- context [if ?b then _ else _] => destruct b end;
    try (eexists _, _; reflexivity);
    match goal with |- context [choice ?l g] =>
      destruct (choice_total l g) as (c & g' & E & _); [discriminate|];
      now exists c, g'
    end.
Qed.

Lemma gd_colorize_line_total kind (line : str) :
  forall g : G, exists out g', Garden.colorize_line kind line g = Some (out, g').
Proof.
  induction line as [|ch rest IH]; intros g.
  - eexists _, _. reflexivity.
  - cbn [Garden.colorize_line]. destruct (ch =? sp)%N.
    + destruct (IH g) as (out & g' & E).
      rewrite (bind_some _ _ _ _ _ E). eexists _, _. reflexivity.
    + destruct (gd_char_color_total kind g) as (c & g1 & Ec).
      rewrite (bind_some _ _ _ _ _ Ec).
      destruct (IH g1) as (out & g' & E).
      rewrite (bind_some _ _ _ _ _ E). eexists _, _. reflexivity.
Qed.

Lemma gd_colorize_line_strip kind (line : str) :
  forall (g : G) out g',
    Garden.colorize_line kind line g = Some (out, g') ->
    _strip_ansi out = line.
Proof.
  induction line as [|ch rest IH]; intros g out g' E.
  - cbn in E. now inversion E.
  - cbn [Garden.colorize_line] in E.
    destruct (N.eqb_spec ch sp) as [->|Hsp].
    + apply bind_inv in E. destruct E as (o & g1 & E1 & E).
      apply IH in E1. injection E as <- _.
      rewrite strip_keeps by (apply match_sgr_not_ESC; discriminate).
      now rewrite E1.
    + apply bind_inv in E. destruct E as (c & g1 & Ec & E).
      apply bind_inv in E. destruct E as (o & g2 & E1 & E).
      apply IH in E1. injection E as <- _.
      now rewrite strip_wrap_char, E1.
Qed.

Lemma mapM_strip (f : str -> M G str) (grid : list str) :
  (forall row g, exists out g', f row g = Some (out, g')) ->
  (forall row g out g', f row g = Some (out, g') -> _strip_ansi out = row) ->
  forall g, exists outs g',
    mapM f grid g = Some (outs, g') /\ map _strip_ansi outs = grid.
Proof.
  intros Htot Hstrip g.
  destruct (mapM_total f grid (fun row g0 _ => Htot row g0) g)
    as (outs & g' & E & _).
  exists outs, g'. split; [exact E|].
  pose proof (mapM_inv f (fun row out => _strip_ansi out = row) grid
                Hstrip g outs g' E) as HF.
  clear E. induction HF as [|row out grid' outs' Hro _ IH]; [reflexivity|].
  cbn [map]. now rewrite Hro, IH.
Qed.

(** Colouring a whole grid and stripping it again, in both files: with
    colours on, whatever the rows hold. *)
Lemma fl_colorize_lines_strip grid kind (g : G) :
  exists outs g',
    Flowers.colorize_lines grid kind true g = Some (outs, g')
    /\ map _strip_ansi outs = grid.
Proof.
  unfold Flowers.colorize_lines. cbn [negb].
  apply mapM_strip.
  - intros row g0. apply fl_colorize_from_total.
  - intros row g0 out g' E. now apply fl_colorize_from_strip in E.
Qed.

Lemma gd_colorize_lines_strip grid kind (g : G) :
  exists outs g',
    Garden.colorize_lines grid kind true g = Some (outs, g')
    /\ map _strip_ansi outs = grid.
Proof.
  unfold Garden.colorize_lines. cbn [negb].
  apply mapM_strip.
  - intros row g0. apply gd_colorize_line_total.
  - intros row g0 out g'. apply gd_colorize_line_strip.
Qed.

End Colorize.

Lemma plain_map_strip (grid : list str) :
  Forall plain grid -> map _strip_ansi grid = grid.
Proof.
  induction 1 as [|row grid Hrow _ IH]; [reflexivity|].
  cbn [map]. now rewrite Hrow, IH.
Qed.

Lemma visible_len_of_strip (outs grid : list str) :
  map _strip_ansi outs = grid -> Forall plain grid ->
  map _visible_len outs = map _visible_len grid.
Proof.
  intros <- Hplain. apply plain_map_strip in Hplain.
  unfold _visible_len. rewrite <- (map_map _strip_ansi len).
  rewrite <- (map_map _strip_ansi len (map _strip_ansi outs)).
  now rewrite Hplain.
Qed.

(** A row without the escape character carries no annotation. *)
Lemma esc_free_plain (row : str) : ~ In ESC row -> plain row.
Proof.
  unfold plain. induction row as [|c t IH]; intros Hno; [reflexivity|].
  rewrite strip_keeps.
  - f_equal. apply IH. intros Hin. apply Hno. now right.
  - apply match_sgr_not_ESC. intros ->. apply Hno. now left.
Qed.

(** C9, as amended.  Stripping the colorizer's result gives the grid back
    character for character, in both files: with colours enabled for every
    grid, and with colours disabled (the colorizer is then the identity)
    for the grids whose rows carry no annotation of their own. *)
Theorem colorize_strip_roundtrip :
  forall {G : Type} `{RandomSource G} (grid : list str) (kind : str)
         (enabled : bool) (g : G),
    enabled = true \/ Forall plain grid ->
    (exists outs g',
        Flowers.colorize_lines grid kind enabled g = Some (outs, g')
        /\ map _strip_ansi outs = grid)
    /\ (exists outs g',
          Garden.colorize_lines grid kind enabled g = Some (outs, g')
          /\ map _strip_ansi outs = grid).
Proof.
  intros G RS grid kind enabled g Hdom.
  destruct enabled.
  - split; [apply fl_colorize_lines_strip|apply gd_colorize_lines_strip].
  - destruct Hdom as [Hon|Hplain]; [discriminate|].
    split; exists grid, g; (split; [reflexivity|now apply plain_map_strip]).
Qed.

Lemma colorize_strip_roundtrip_witness :
  (true = true \/ Forall plain [lit "o |"])
  /\ (exists outs g',
        Flowers.colorize_lines [lit "o |"] (lit "flower_star") true
          {| draws := [3] |} = Some (outs, g')
        /\ map _strip_ansi outs = [lit "o |"])
  /\ (exists outs g',
        Garden.colorize_lines [lit "o |"] (lit "flower_star") true
          {| draws := [3] |} = Some (outs, g')
        /\ map _strip_ansi outs = [lit "o |"]).
Proof.
  split; [now left|].
  apply (colorize_strip_roundtrip [lit "o |"] (lit "flower_star") true
           {| draws := [3] |}).
  now left.
Defined.

(** C9 as stated fails with colours disabled on a row that holds an
    annotation: the colorizer returns the row as it is and stripping
    empties it. *)
Lemma colorize_strip_roundtrip_counterexample :
  Flowers.colorize_lines [sgr "0"] (lit "flower_star") false
    {| draws := [] |} = Some ([sgr "0"], {| draws := [] |})
  /\ Garden.colorize_lines [sgr "0"] (lit "flower_star") false
       {| draws := [] |} = Some ([sgr "0"], {| draws := [] |})
  /\ map _strip_ansi [sgr "0"] = [[]]
  /\ map _strip_ansi [sgr "0"] <> [sgr "0"].
Proof. repeat split. discriminate. Qed.

(** C4, as amended.  Colorization keeps the visible length of every row,
    in both files: with colours disabled (the colorizer is then the
    identity) for every grid, and with colours enabled for the grids whose
    rows carry no annotation of their own. *)
Theorem colorize_keeps_visible_length :
  forall {G : Type} `{RandomSource G} (grid : list str) (kind : str)
         (enabled : bool) (g : G),
    enabled = false \/ Forall plain grid ->
    (exists outs g',
        Flowers.colorize_lines grid kind enabled g = Some (outs, g')
        /\ map _visible_len outs = map _visible_len grid)
    /\ (exists outs g',
          Garden.colorize_lines grid kind enabled g = Some (outs, g')
          /\ map _visible_len outs = map _visible_len grid).
Proof.
  intros G RS grid kind enabled g Hdom.
  destruct enabled.
  - destruct Hdom as [Hoff|Hplain]; [discriminate|].
    destruct (fl_colorize_lines_strip grid kind g) as (o1 & g1 & E1 & S1).
    destruct (gd_colorize_lines_strip grid kind g) as (o2 & g2 & E2 & S2).
    split; [exists o1, g1|exists o2, g2];
      (split; [assumption|now apply visible_len_of_strip]).
  - split; exists grid, g; split; reflexivity.
Qed.

Lemma colorize_keeps_visible_length_witness :
  (true = false \/ Forall plain [lit " @ |"])
  /\ (exists outs g',
        Flowers.colorize_lines [lit " @ |"] (lit "tree_pine") true
          {| draws := [1] |} = Some (outs, g')
        /\ map _visible_len outs = map _visible_len [lit " @ |"])
  /\ (exists outs g',
        Garden.colorize_lines [lit " @ |"] (lit "tree_pine") true
          {| draws := [1] |} = Some (outs, g')
        /\ map _visible_len outs = map _visible_len [lit " @ |"]).
Proof.
  assert (Hp : true = false \/ Forall plain [lit " @ |"])
    by (right; repeat constructor).
  split; [exact Hp|].
  apply (colorize_keeps_visible_length [lit " @ |"] (lit "tree_pine") true
           {| draws := [1] |} Hp).
Defined.

(** C4 as stated fails with colours enabled on a row that holds an
    annotation: its four characters are wrapped one by one and all four
    stay visible, where the row itself had visible length 0. *)
Lemma colorize_keeps_visible_length_counterexample :
  (exists outs g',
      Flowers.colorize_lines [sgr "0"] (lit "tree_pine") true
        {| draws := [] |} = Some (outs, g')
      /\ map _visible_len outs = [4])
  /\ (exists outs g',
        Garden.colorize_lines [sgr "0"] (lit "tree_pine") true
          {| draws := [] |} = Some (outs, g')
        /\ map _visible_len outs = [4])
  /\ map _visible_len [sgr "0"] = [0].
Proof.
  repeat split; eexists _, _; split; vm_compute; reflexivity.
Qed.

(** ** The stalk of the round flower *)

(** X4.  Below the disc of [2 * size + 3] rows the round flower has a
    stalk of between [1 + size] and [2 + 2 * size] rows, each of them the
    stem glyph behind half as many spaces as the first row of the disc is
    long. *)
Theorem round_flower_stalk :
  forall {G : Type} `{RandomSource G} (size : Z) (g : G),
    1 <= size ->
    (exists disc h g',
        Flowers._make_round_flower size g
        = Some (disc ++ repeat (spaces (len (hd [] disc) / 2) ++ lit "|")
                               (Z.to_nat h), g')
        /\ len disc = 2 * size + 3
        /\ 1 + size <= h <= 2 + 2 * size)
    /\ (exists disc h stem g',
          Garden._make_round_flower size g
          = Some (disc ++ repeat (spaces (len (hd [] disc) / 2) ++ stem)
                                 (Z.to_nat h), g')
          /\ len disc = 2 * size + 3
          /\ 1 + size <= h <= 2 + 2 * size
          /\ In stem Garden.STEM_CHARS).
Proof.
  intros G RS size g Hs. split.
  - unfold Flowers._make_round_flower.
    draw_choice petal Hp. draw_choice center Hc.
    match goal with |- context [bind (mapM ?f ?l) ?k ?g] =>
      destruct (fl_round_rows_total (1 + size) petal center l
                  (- 2 * (1 + size)) (2 * (1 + size) + 1) g)
        as (lines & g' & E' & Hlen);
      rewrite (bind_some (mapM f l) k g lines g' E'); cbv beta
    end.
    draw_randint h Hh.
    rewrite range_length in Hlen.
    destruct lines as [|line0 lines']; [cbn [length] in Hlen; lia|].
    exists (line0 :: lines'), h. eexists. split; [reflexivity|].
    split; [|exact Hh].
    unfold len. etransitivity; [apply f_equal; exact Hlen|lia].
  - unfold Garden._make_round_flower.
    draw_choice petal Hp. draw_choice center Hc.
    match goal with |- context [bind (mapM ?f ?l) ?k ?g] =>
      destruct (gd_round_rows_total (1 + size) petal center l
                  (- 2 * (1 + size)) (2 * (1 + size) + 1) g)
        as (lines & g' & E' & Hlen);
      rewrite (bind_some (mapM f l) k g lines g' E'); cbv beta
    end.
    draw_randint h Hh.
    rewrite range_length in Hlen.
    destruct lines as [|line0 lines']; [cbn [length] in Hlen; lia|].
    draw_choice stem Hstem.
    exists (line0 :: lines'), h, stem. eexists. split; [reflexivity|].
    split; [|split; [exact Hh|exact Hstem]].
    unfold len. etransitivity; [apply f_equal; exact Hlen|lia].
Qed.

Lemma round_flower_stalk_witness :
  1 <= 2
  /\ (exists disc h g',
        Flowers._make_round_flower 2 {| lcg_state := 5 |}
        = Some (disc ++ repeat (spaces (len (hd [] disc) / 2) ++ lit "|")
                               (Z.to_nat h), g')
        /\ len disc = 2 * 2 + 3
        /\ 1 + 2 <= h <= 2 + 2 * 2)
  /\ (exists disc h stem g',
        Garden._make_round_flower 2 {| lcg_state := 5 |}
        = Some (disc ++ repeat (spaces (len (hd [] disc) / 2) ++ stem)
                               (Z.to_nat h), g')
        /\ len disc = 2 * 2 + 3
        /\ 1 + 2 <= h <= 2 + 2 * 2
        /\ In stem Garden.STEM_CHARS).
Proof.
  split; [lia|]. apply (round_flower_stalk 2 {| lcg_state := 5 |}). lia.
Defined.

(** C6.  The stalk of a round flower is not under the centre of its disc.
    With size 1 the disc spans the columns 0 to 8 and its centre is column
    4.  The source that draws zeros (no noise) gives a top row of length 7
    and the stalk stands in column 3; the source whose [random()] is
    always one half empties the top row and the stalk stands in column 0.
    garden.py does the same. *)
Theorem round_flower_stalk_off_centre :
  Flowers._make_round_flower 1 {| draws := [] |}
  = Some ([lit "  *****"; lit "***@@@***"; lit "***@@@***";
           lit "***@@@***"; lit "  *****"; lit "   |"; lit "   |"],
          {| draws := [] |})
  /\ Garden._make_round_flower 1 {| draws := [] |}
     = Some ([lit "  *****"; lit "***@@@***"; lit "***@@@***";
              lit "***@@@***"; lit "  *****"; lit "   |"; lit "   |"],
             {| draws := [] |})
  /\ Flowers._make_round_flower 1 {| draws := repeat (2 ^ 52) 48 |}
     = Some ([[]; lit " **@@@**"; lit " **@@@**"; lit " **@@@**";
              []; lit "|"; lit "|"; lit "|"],
             {| draws := [] |}).
Proof. repeat split; vm_compute; reflexivity. Qed.


(** ** The size parameter *)

(** C7.  The star flower uses its size as it comes.  With size 0 the
    repeat counts [2 * s - 1] and [4 * s - 1] are -1 and the petals of the
    three middle rows touch; with size -1 [randint(0, s)] raises.  The
    result for size 0 is not the one for size 1. *)
Theorem star_flower_size_not_clamped :
  Flowers._make_star_flower 0 {| draws := [] |}
  = Some ([lit "*"; lit "**"; lit "**"; lit "**"; lit "@"; lit "|"],
          {| draws := [] |})
  /\ Flowers._make_star_flower (-1) {| draws := [] |} = None
  /\ Flowers._make_star_flower 1 {| draws := [] |}
     = Some ([lit "  *"; lit " * *"; lit "*   *"; lit " * *"; lit "  @";
              lit "  |"; lit "  |"], {| draws := [] |})
  /\ Garden._make_star_flower 0 {| draws := [] |}
     = Some ([lit "*"; lit "**"; lit "**"; lit "**"; lit "@"; lit "|"],
             {| draws := [] |}).
Proof. repeat split; vm_compute; reflexivity. Qed.


(** X5.  The pine and the stylized tree clamp their size to 1. *)
Theorem pine_and_stylized_clamp_size :
  forall {G : Type} `{RandomSource G} (size : Z) (g : G),
    Flowers._make_pine_tree size = Flowers._make_pine_tree (Z.max 1 size)
    /\ Garden._make_pine_tree size = Garden._make_pine_tree (Z.max 1 size)
    /\ Flowers._make_stylized_tree size g
       = Flowers._make_stylized_tree (Z.max 1 size) g.
Proof.
  intros G RS size g.
  unfold Flowers._make_pine_tree, Garden._make_pine_tree,
    Flowers._make_stylized_tree.
  now rewrite !(Z.max_r _ (Z.max 1 size)) by lia.
Qed.

(** ** Stem and trunk runs in flowers.py *)

Lemma takewhile_bar_length_le (s : str) :
  (length (takewhile_bar s) <= length s)%nat.
Proof.
  induction s as [|c t IH]; cbn; [lia|].
  destruct (c =? bar)%N; cbn; lia.
Qed.

(** A run that starts in a text that does not end in [|] ends in it. *)
Lemma takewhile_bar_app (pre rest : str) :
  pre <> [] -> last pre sp <> bar ->
  takewhile_bar (pre ++ rest) = takewhile_bar pre.
Proof.
  induction pre as [|c t IH]; intros Hne Hlast; [congruence|].
  cbn [app takewhile_bar]. destruct (c =? bar)%N eqn:Ec; [|reflexivity].
  f_equal. destruct t as [|c' t'].
  - apply N.eqb_eq in Ec. cbn in Hlast. congruence.
  - apply IH; [discriminate|exact Hlast].
Qed.

Lemma takewhile_bar_run (n : nat) (post : str) :
  hd sp post <> bar ->
  takewhile_bar (repeat bar n ++ post) = repeat bar n.
Proof.
  intros Hhd. induction n as [|n IH]; cbn.
  - destruct post as [|c t]; [reflexivity|]. cbn in Hhd.
    apply N.eqb_neq in Hhd. cbn. now rewrite Hhd.
  - now rewrite IH.
Qed.

Lemma stem_color_flower (kind : str) :
  startswith kind (lit "flower_") = true -> stem_color kind = lit "green".
Proof. intros E. unfold stem_color. now rewrite E. Qed.

Lemma stem_color_tree (kind : str) :
  startswith kind (lit "tree_") = true -> stem_color kind = lit "brown".
Proof.
  intros E. unfold stem_color.
  destruct kind as [|c kind]; [discriminate|].
  cbn in E |- *. apply andb_true_iff in E. destruct E as [E _].
  apply N.eqb_eq in E. subst c. reflexivity.
Qed.

Section StemRuns.
Context {G : Type} `{RandomSource G}.

Lemma fl_colorize_from_skipn kind (line : str) :
  forall skip (g : G),
    Flowers.colorize_from kind skip line g
    = Flowers.colorize_from kind 0 (skipn skip line) g.
Proof.
  induction line as [|ch rest IH]; intros skip g.
  - now destruct skip.
  - destruct skip as [|k]; [reflexivity|].
    cbn [Flowers.colorize_from skipn]. apply IH.
Qed.

(** Both sides run the same two calls: compare them outcome by outcome. *)
Ltac finish_split pre rest :=
  unfold bind, ret;
  match goal with
  | |- context [Flowers.colorize_from ?kind ?k pre ?g] =>
      destruct (Flowers.colorize_from kind k pre g) as [[? ?g1]|];
      [|reflexivity]
  end;
  match goal with
  | |- context [Flowers.colorize_from ?kind 0 rest ?g] =>
      destruct (Flowers.colorize_from kind 0 rest g) as [[? ?]|];
      [|reflexivity]
  end;
  cbn [app]; rewrite <- ?app_assoc; reflexivity.

Lemma fl_colorize_from_app kind (pre rest : str) :
  last pre sp <> bar ->
  forall skip (g : G), (skip <= length pre)%nat ->
    Flowers.colorize_from kind skip (pre ++ rest) g
    = (o1 <- Flowers.colorize_from kind skip pre ;;
       o2 <- Flowers.colorize_from kind 0 rest ;;
       ret (o1 ++ o2)) g.
Proof.
  induction pre as [|ch pre IH]; intros Hlast skip g Hskip.
  - cbn [length] in Hskip. assert (skip = O) as -> by lia.
    cbn [app Flowers.colorize_from]. unfold bind, ret. cbn [app].
    destruct (Flowers.colorize_from kind 0 rest g) as [[o2 g2]|];
      reflexivity.
  - assert (Hlast' : last pre sp <> bar).
    { destruct pre; [discriminate|exact Hlast]. }
    cbn [app Flowers.colorize_from]. destruct skip as [|k].
    2:{ apply IH; [exact Hlast'|cbn [length] in Hskip; lia]. }
    destruct (ch =? sp)%N; [|destruct (ch =? bar)%N eqn:Ebar].
    + unfold bind at 1. rewrite IH by (auto; lia).
      finish_split pre rest.
    + change (ch :: pre ++ rest) with ((ch :: pre) ++ rest).
      rewrite (takewhile_bar_app (ch :: pre) rest) by (auto; discriminate).
      pose proof (takewhile_bar_length_le (ch :: pre)) as Hle.
      assert (Hpos : (0 < length (takewhile_bar (ch :: pre)))%nat).
      { cbn [takewhile_bar]. rewrite Ebar. cbn. lia. }
      rewrite firstn_app.
      replace (length (takewhile_bar (ch :: pre)) - length (ch :: pre))%nat
        with O by lia.
      cbn [firstn]. rewrite app_nil_r.
      cbn [length] in Hle.
      unfold bind at 1. rewrite IH by (auto; lia).
      finish_split pre rest.
    + destruct (Flowers.foliage_color kind g) as [[c g0]|] eqn:Ec;
        unfold bind; rewrite Ec; [|reflexivity].
      rewrite IH by (auto; lia).
      finish_split pre rest.
Qed.

Lemma fl_colorize_from_run kind (n : nat) (post : str) (g : G) :
  (0 < n)%nat -> hd sp post <> bar ->
  Flowers.colorize_from kind 0 (repeat bar n ++ post) g
  = (o2 <- Flowers.colorize_from kind 0 post ;;
     ret (colored (stem_color kind) (repeat bar n) ++ o2)) g.
Proof.
  intros Hn Hhd. destruct n as [|m]; [lia|].
  cbn [repeat app Flowers.colorize_from]. rewrite N.eqb_refl.
  change ((bar =? sp)%N) with false. cbv iota.
  change (bar :: repeat bar m ++ post) with (repeat bar (S m) ++ post).
  rewrite takewhile_bar_run by exact Hhd.
  rewrite repeat_length, firstn_app, repeat_length, Nat.sub_diag.
  rewrite firstn_all2 by (rewrite repeat_length; lia).
  cbn [firstn]. rewrite app_nil_r.
  unfold bind. rewrite fl_colorize_from_skipn.
  replace (S m - 1)%nat with (length (repeat bar m))
    by (rewrite repeat_length; lia).
  rewrite skipn_app, skipn_all, Nat.sub_diag. cbn [skipn app].
  destruct (Flowers.colorize_from kind 0 post g) as [[o2 g2]|];
    [|reflexivity].
  unfold stem_color, colored, _color_wrap. cbn [negb].
  now destruct (startswith kind (lit "flower_")).
Qed.

End StemRuns.

(** X2.  In flowers.py a maximal run of [|] is one unit of the fixed
    colour of its category: green for a kind that starts with [flower_],
    brown for one that starts with [tree_].  The run takes no draw: the
    source goes from what stands before the run to what stands behind it. *)
Theorem fl_colorize_stem_run :
  forall {G : Type} `{RandomSource G} (kind pre post : str) (n : nat) (g : G),
    (0 < n)%nat -> last pre sp <> bar -> hd sp post <> bar ->
    Flowers.colorize_from kind 0 (pre ++ repeat bar n ++ post) g
    = (o1 <- Flowers.colorize_from kind 0 pre ;;
       o2 <- Flowers.colorize_from kind 0 post ;;
       ret (o1 ++ colored (stem_color kind) (repeat bar n) ++ o2)) g
    /\ (startswith kind (lit "flower_") = true ->
        stem_color kind = lit "green")
    /\ (startswith kind (lit "tree_") = true ->
        stem_color kind = lit "brown").
Proof.
  intros G RS kind pre post n g Hn Hlast Hhd.
  split; [|split; [apply stem_color_flower|apply stem_color_tree]].
  rewrite fl_colorize_from_app by (auto; lia). unfold bind.
  destruct (Flowers.colorize_from kind 0 pre g) as [[o1 g1]|]; [|reflexivity].
  rewrite fl_colorize_from_run by assumption. unfold bind.
  now destruct (Flowers.colorize_from kind 0 post g1) as [[o2 g2]|].
Qed.

Lemma fl_colorize_stem_run_witness :
  (0 < 2)%nat /\ last (lit "o ") sp <> bar /\ hd sp (lit " x") <> bar
  /\ Flowers.colorize_from (lit "tree_pine") 0
       (lit "o " ++ repeat bar 2 ++ lit " x") {| draws := [1; 0] |}
     = (o1 <- Flowers.colorize_from (lit "tree_pine") 0 (lit "o ") ;;
        o2 <- Flowers.colorize_from (lit "tree_pine") 0 (lit " x") ;;
        ret (o1 ++ colored (stem_color (lit "tree_pine")) (repeat bar 2)
                ++ o2)) {| draws := [1; 0] |}.
Proof.
  assert (H1 : (0 < 2)%nat) by lia.
  assert (H2 : last (lit "o ") sp <> bar) by discriminate.
  assert (H3 : hd sp (lit " x") <> bar) by discriminate.
  split; [exact H1|split; [exact H2|split; [exact H3|]]].
  exact (proj1 (fl_colorize_stem_run (lit "tree_pine") (lit "o ") (lit " x")
                  2 {| draws := [1; 0] |} H1 H2 H3)).
Defined.

(** C2.  garden.py has no stem run: each [|] is wrapped on its own in a
    colour drawn from the foliage palette of the kind (red and
    bright_yellow for a round flower's stalk on the draws 4 and 2, green
    and bright_green for a pine's trunk on the draws 0 and 1), where
    flowers.py gives one green and one brown unit and draws nothing. *)
Theorem gd_colorize_stem_drawn :
  Garden.colorize_lines [lit "||"] (lit "flower_round") true
    {| draws := [4; 2] |}
  = Some ([colored (lit "red") (lit "|")
           ++ colored (lit "bright_yellow") (lit "|")], {| draws := [] |})
  /\ Garden.colorize_lines [lit "||"] (lit "tree_pine") true
       {| draws := [0; 1] |}
     = Some ([colored (lit "green") (lit "|")
              ++ colored (lit "bright_green") (lit "|")], {| draws := [] |})
  /\ Flowers.colorize_lines [lit "||"] (lit "flower_round") true
       {| draws := [4; 2] |}
     = Some ([colored (lit "green") (lit "||")], {| draws := [4; 2] |})
  /\ Flowers.colorize_lines [lit "||"] (lit "tree_pine") true
       {| draws := [0; 1] |}
     = Some ([colored (lit "brown") (lit "||")], {| draws := [0; 1] |}).
Proof. repeat split; vm_compute; reflexivity. Qed.


(** ** The bonsai rule of garden.py *)

Section Bonsai.
Context {G : Type} `{RandomSource G}.

Lemma gd_colorize_line_bonsai (line : str) (g : G) :
  Garden.colorize_line (lit "tree_bonsai") line g
  = Some (paint (lit "bright_green") line, g).
Proof.
  induction line as [|ch rest IH]; [reflexivity|].
  cbn [Garden.colorize_line paint flat_map].
  destruct (ch =? sp)%N.
  - rewrite (bind_some _ _ _ _ _ IH). reflexivity.
  - change (Garden.char_color (lit "tree_bonsai"))
      with (ret (G := G) (lit "bright_green")).
    unfold bind at 1. cbn [ret].
    rewrite (bind_some _ _ _ _ _ IH). reflexivity.
Qed.

End Bonsai.

(** X3.  In garden.py every character of a bonsai other than a space is
    wrapped in bright_green, and the source is returned as it was given:
    no colour is drawn. *)
Theorem gd_colorize_bonsai_fixed :
  forall {G : Type} `{RandomSource G} (grid : list str) (g : G),
    Garden.colorize_lines grid (lit "tree_bonsai") true g
    = Some (map (paint (lit "bright_green")) grid, g).
Proof.
  intros G RS grid g. unfold Garden.colorize_lines. cbn [negb].
  induction grid as [|row grid IH]; [reflexivity|].
  cbn [mapM map].
  rewrite (bind_some _ _ _ _ _ (gd_colorize_line_bonsai row g)).
  rewrite (bind_some _ _ _ _ _ IH). reflexivity.
Qed.


(** C8.  flowers.py has no bonsai rule: the foliage of a bonsai takes the
    draw of the other trees, green on one draw and bright_green on
    another, and the draw is used up. *)
Theorem fl_colorize_bonsai_draws :
  Flowers.colorize_lines [lit "#"] (lit "tree_bonsai") true
    {| draws := [0] |}
  = Some ([colored (lit "green") (lit "#")], {| draws := [] |})
  /\ Flowers.colorize_lines [lit "#"] (lit "tree_bonsai") true
       {| draws := [1] |}
     = Some ([colored (lit "bright_green") (lit "#")], {| draws := [] |}).
Proof. split; vm_compute; reflexivity. Qed.


(** ** The ground line of the horizontal layout *)

Lemma fl_padded_blocks_eq (row : list (list str)) :
  Flowers.padded_blocks row
  = map (fun p => Flowers.pad_plant (Flowers.row_height row) p
                    (Flowers.plant_width p)) row.
Proof.
  unfold Flowers.padded_blocks. cbv zeta.
  now rewrite combine_map_r, map_map.
Qed.

Lemma fl_height_le (row : list (list str)) (p : list str) :
  In p row -> len p <= Flowers.row_height row.
Proof.
  intros Hin. unfold Flowers.row_height. apply max_default_ge.
  now apply in_map.
Qed.

Lemma fl_pad_plant_length (h w : Z) (p : list str) :
  len p <= h -> len (Flowers.pad_plant h p w) = h.
Proof.
  intros Hle. unfold Flowers.pad_plant, len in *. cbv zeta.
  rewrite length_app, repeat_length, length_map. lia.
Qed.

Lemma fl_pad_plant_bottom (h : Z) (p : list str) :
  len p <= h -> 0 < h ->
  nth (Z.to_nat (h - 1)) (Flowers.pad_plant h p (Flowers.plant_width p)) []
  = bottom_row p.
Proof.
  intros Hle Hh. unfold Flowers.pad_plant, bottom_row, len in *. cbv zeta.
  destruct (rev p) as [|ln q] eqn:Er.
  - assert (p = []) as -> by (apply (f_equal (@rev str)) in Er;
                               now rewrite rev_involutive in Er).
    cbn [map app length]. rewrite app_nil_r.
    rewrite nth_repeat_lt by lia. reflexivity.
  - assert (Hp : p = rev q ++ [ln]).
    { apply (f_equal (@rev str)) in Er. now rewrite rev_involutive in Er. }
    assert (Hlen : length p = S (length q)).
    { rewrite Hp, length_app, length_rev. cbn. lia. }
    rewrite app_nth2 by (rewrite repeat_length; lia).
    rewrite repeat_length.
    replace (Z.to_nat (h - 1) - Z.to_nat (h - Z.of_nat (length p)))%nat
      with (length (rev q)) by (rewrite length_rev; lia).
    rewrite Hp at 1. rewrite map_app, app_nth2 by (rewrite length_map; lia).
    rewrite length_map, Nat.sub_diag. reflexivity.
Qed.

(** X1.  flowers.py bottom-aligns every row-group (the output of
    [render_horizontal] is the lines of [render_row] over the slices of
    [cols] plants, one after another).  Every plant of the group becomes a
    block of exactly [max_h] rows: [max_h - height] rows of spaces of the
    plant's own visible width first, then the plant's rows padded on the
    right to that width.  The group gives [max_h] lines and one empty
    line, and line [max_h - 1] is the last row of every plant, joined with
    the gap and trimmed on the right. *)
Theorem fl_render_row_bottom_aligned :
  forall (gap : Z) (row : list (list str)),
    let max_h := Flowers.row_height row in
    (forall p, In p row ->
       Flowers.pad_plant max_h p (Flowers.plant_width p)
       = repeat (spaces (Flowers.plant_width p)) (Z.to_nat (max_h - len p))
         ++ map (fun ln => ln ++ spaces (Flowers.plant_width p
                                         - _visible_len ln)) p
       /\ len (Flowers.pad_plant max_h p (Flowers.plant_width p)) = max_h)
    /\ len (Flowers.render_row gap row) = max_h + 1
    /\ (0 < max_h ->
        nth (Z.to_nat (max_h - 1)) (Flowers.render_row gap row) []
        = rstrip (join (spaces gap) (map bottom_row row))).
Proof.
  intros gap row max_h.
  assert (Hh : 0 <= max_h).
  { unfold max_h, Flowers.row_height. destruct row as [|p row]; [cbn; lia|].
    cbn [map max_default]. destruct (fold_left_max_ge (map len row) (len p)).
    unfold len in *. lia. }
  split; [|split].
  - intros p Hin. split; [reflexivity|].
    apply fl_pad_plant_length. now apply fl_height_le.
  - unfold Flowers.render_row, len. cbv zeta. fold max_h.
    rewrite length_app, length_map, range_length. cbn [length]. lia.
  - intros Hpos. unfold Flowers.render_row. cbv zeta. fold max_h.
    rewrite app_nth1 by (rewrite length_map, range_length; lia).
    rewrite nth_map_range by lia.
    do 2 f_equal. rewrite fl_padded_blocks_eq, map_map.
    apply map_ext_in. intros p Hin. fold max_h.
    replace (Z.to_nat (Z.of_nat (Z.to_nat (max_h - 1))))
      with (Z.to_nat (max_h - 1)) by lia.
    apply fl_pad_plant_bottom; [now apply fl_height_le|exact Hpos].
Qed.

(** C1.  garden.py pads a shorter plant below its rows: of two plants of
    heights 1 and 2 in one row-group the first ends on output line 0 and
    the second on line 1.  flowers.py puts both last rows on line 1. *)
Theorem gd_render_horizontal_top_aligned :
  Garden.render_horizontal [[lit "a"]; [lit "b"; lit "c"]] 2 1
  = [lit "a b"; lit "  c"; []]
  /\ Flowers.render_horizontal [[lit "a"]; [lit "b"; lit "c"]] 2 1
     = [lit "  b"; lit "a c"; []].
Proof. split; vm_compute; reflexivity. Qed.


(** ** Auto-fit *)

Lemma plant_width_agree (p : list str) :
  Garden.plant_width p = Flowers.plant_width p.
Proof. reflexivity. Qed.

Lemma visible_len_le_width (p : list str) (ln : str) :
  In ln p -> _visible_len ln <= Flowers.plant_width p.
Proof.
  intros Hin. unfold Flowers.plant_width. apply max_default_ge.
  now apply in_map.
Qed.

Lemma fold_left_max_attained (l : list Z) (a : Z) :
  fold_left Z.max l a = a \/ In (fold_left Z.max l a) l.
Proof.
  revert a. induction l as [|y l IH]; intros a; cbn [fold_left]; [now left|].
  destruct (IH (Z.max a y)) as [E|Hin]; [|right; now right].
  rewrite E. destruct (Z.max_spec a y) as [[_ ->]|[_ ->]];
    [right; now left|now left].
Qed.

Lemma max_default_attained (d : Z) (l : list Z) :
  l <> [] -> In (max_default d l) l.
Proof.
  destruct l as [|x l]; [congruence|]. intros _. cbn [max_default].
  destruct (fold_left_max_attained l x) as [->|Hin]; [now left|now right].
Qed.

(** C5, as amended.  With auto-fit in the horizontal layout the column
    count is [max(1, (terminalWidth + gap) // (maxPlantWidth + gap))], in
    both files, whenever the divisor is not zero (it never is for the gap
    1 that [main] passes); the count is then at least 1 and is the one
    [render_horizontal] is called with.  When the divisor is zero the
    division raises and nothing is printed.  [maxPlantWidth] is the one
    maximum over all rows of all plants, the width of one of them, and 1
    for no plants; the terminal width is the one the terminal gives, and
    80 when it gives none or 0. *)
Theorem auto_fit_column_count :
  forall (env : Env) (plants : list (list str)) (cols gap : Z),
    let max_w := max_default 1 (map Flowers.plant_width plants) in
    let term_w := get_terminal_columns env in
    let fit := Z.max 1 ((term_w + gap) / (max_w + gap)) in
    (max_w + gap <> 0 ->
     Flowers.auto_fit_cols env plants gap = Some fit
     /\ Garden.auto_fit_cols env plants gap = Some fit
     /\ 1 <= fit
     /\ Flowers.print_garden env plants (lit "horizontal") cols gap true
        = Some (join [NL] (Flowers.render_horizontal plants fit (gap * 2))
                ++ [NL])
     /\ Garden.print_garden env plants (lit "horizontal") cols gap true
        = Some (join [NL] (Garden.render_horizontal plants fit (gap * 2))
                ++ [NL]))
    /\ (max_w + gap = 0 ->
        Flowers.auto_fit_cols env plants gap = None
        /\ Garden.auto_fit_cols env plants gap = None
        /\ Flowers.print_garden env plants (lit "horizontal") cols gap true
           = None
        /\ Garden.print_garden env plants (lit "horizontal") cols gap true
           = None)
    /\ (terminal_columns env = None -> term_w = 80)
    /\ (forall c, terminal_columns env = Some c ->
                  term_w = if c =? 0 then 80 else c)
    /\ (plants = [] -> max_w = 1)
    /\ (forall p ln, In p plants -> In ln p -> _visible_len ln <= max_w)
    /\ (plants <> [] ->
        exists p, In p plants
                  /\ Flowers.plant_width p = max_w
                  /\ (p = [] /\ max_w = 0
                      \/ exists ln, In ln p /\ _visible_len ln = max_w)).
Proof.
  intros env plants cols gap max_w term_w fit.
  split; [|split; [|split; [|split; [|split; [|split]]]]].
  - intros Hdiv.
    assert (Hf : Flowers.auto_fit_cols env plants gap = Some fit).
    { unfold Flowers.auto_fit_cols. cbv zeta. fold max_w.
      destruct (Z.eqb_spec (max_w + gap) 0); [contradiction|reflexivity]. }
    assert (Hg : Garden.auto_fit_cols env plants gap = Some fit) by exact Hf.
    split; [exact Hf|split; [exact Hg|split; [unfold fit; lia|split]]].
    + unfold Flowers.print_garden. cbn [str_eqb]. now rewrite Hf.
    + unfold Garden.print_garden. cbn [str_eqb]. now rewrite Hg.
  - intros Hdiv.
    assert (Hf : Flowers.auto_fit_cols env plants gap = None).
    { unfold Flowers.auto_fit_cols. cbv zeta. fold max_w.
      destruct (Z.eqb_spec (max_w + gap) 0); [reflexivity|contradiction]. }
    assert (Hg : Garden.auto_fit_cols env plants gap = None) by exact Hf.
    split; [exact Hf|split; [exact Hg|split]].
    + unfold Flowers.print_garden. cbn [str_eqb]. now rewrite Hf.
    + unfold Garden.print_garden. cbn [str_eqb]. now rewrite Hg.
  - intros Hnone. unfold term_w, get_terminal_columns. now rewrite Hnone.
  - intros c Hc. unfold term_w, get_terminal_columns. now rewrite Hc.
  - intros ->. reflexivity.
  - intros p ln Hp Hln. unfold max_w.
    transitivity (Flowers.plant_width p).
    + now apply visible_len_le_width.
    + apply max_default_ge. now apply in_map.
  - intros Hne.
    assert (Hin : In max_w (map Flowers.plant_width plants)).
    { apply max_default_attained. destruct plants; [congruence|discriminate]. }
    apply in_map_iff in Hin. destruct Hin as (p & Hw & Hp).
    exists p. split; [exact Hp|split; [exact Hw|]].
    destruct p as [|ln0 p'].
    + left. split; [reflexivity|]. rewrite <- Hw. reflexivity.
    + right. rewrite <- Hw. unfold Flowers.plant_width.
      assert (Hin : In (max_default 0 (map _visible_len (ln0 :: p')))
                       (map _visible_len (ln0 :: p')))
        by (apply max_default_attained; discriminate).
      apply in_map_iff in Hin. destruct Hin as (ln & Hl & Hln).
      exists ln. split; [exact Hln|exact Hl].
Qed.

Lemma auto_fit_column_count_witness :
  max_default 1 (map Flowers.plant_width
                   [[lit " o"; lit "ooo"; lit " |"]; [lit "^"; lit "|"]])
  + 1 <> 0
  /\ Flowers.auto_fit_cols
       {| stdout_isatty := false; terminal_columns := None; entropy := 0 |}
       [[lit " o"; lit "ooo"; lit " |"]; [lit "^"; lit "|"]] 1
     = Some 20
  /\ Garden.auto_fit_cols
       {| stdout_isatty := false; terminal_columns := None; entropy := 0 |}
       [[lit " o"; lit "ooo"; lit " |"]; [lit "^"; lit "|"]] 1
     = Some 20.
Proof.
  assert (Hdiv : max_default 1 (map Flowers.plant_width
                   [[lit " o"; lit "ooo"; lit " |"]; [lit "^"; lit "|"]])
                 + 1 <> 0) by (vm_compute; discriminate).
  split; [exact Hdiv|].
  destruct (proj1 (auto_fit_column_count
              {| stdout_isatty := false; terminal_columns := None;
                 entropy := 0 |}
              [[lit " o"; lit "ooo"; lit " |"]; [lit "^"; lit "|"]] 3 1) Hdiv)
    as (Hf & Hg & _).
  split; [exact Hf|exact Hg].
Defined.

(** C5 as stated fails where the divisor is zero: one plant of one empty
    row has width 0, and with a gap of 0 the division raises
    ZeroDivisionError in both files, so that there is no column count. *)
Lemma auto_fit_column_count_counterexample :
  max_default 1 (map Flowers.plant_width [[[]]]) + 0 = 0
  /\ Flowers.auto_fit_cols tty_env [[[]]] 0 = None
  /\ Garden.auto_fit_cols tty_env [[[]]] 0 = None
  /\ Flowers.print_garden tty_env [[[]]] (lit "horizontal") 3 0 true = None
  /\ Garden.print_garden tty_env [[[]]] (lit "horizontal") 3 0 true = None.
Proof. repeat split. Qed.

(** With a positive gap, as in every run of the program, the divisor is
    positive. *)
Lemma auto_fit_divisor_positive (plants : list (list str)) (gap : Z) :
  0 < gap -> 0 < max_default 1 (map Flowers.plant_width plants) + gap.
Proof.
  intros Hgap. destruct plants as [|p ps]; cbn [map max_default]; [lia|].
  destruct (fold_left_max_ge (map Flowers.plant_width ps)
              (Flowers.plant_width p)) as [Hp _].
  assert (0 <= Flowers.plant_width p); [|lia].
  unfold Flowers.plant_width.
  destruct p as [|ln p]; cbn [map max_default]; [lia|].
  destruct (fold_left_max_ge (map _visible_len p) (_visible_len ln))
    as [Hl _].
  unfold _visible_len, len in *. lia.
Qed.

(** ** Runs of the whole program *)

Lemma fl_print_garden_env (e1 e2 : Env) plants layout cols gap fit :
  fit = false \/ terminal_columns e1 = terminal_columns e2 ->
  Flowers.print_garden e1 plants layout cols gap fit
  = Flowers.print_garden e2 plants layout cols gap fit.
Proof.
  intros Hsame. unfold Flowers.print_garden, Flowers.auto_fit_cols,
    get_terminal_columns.
  destruct Hsame as [-> | ->]; reflexivity.
Qed.

Lemma gd_print_garden_env (e1 e2 : Env) plants layout cols gap fit :
  fit = false \/ terminal_columns e1 = terminal_columns e2 ->
  Garden.print_garden e1 plants layout cols gap fit
  = Garden.print_garden e2 plants layout cols gap fit.
Proof.
  intros Hsame. unfold Garden.print_garden, Garden.auto_fit_cols,
    get_terminal_columns.
  destruct Hsame as [-> | ->]; reflexivity.
Qed.

Section Runs.
Context {G : Type} `{RandomSource G}.
Variable nt : bool.

Lemma fl_colorize_lines_total grid kind enabled (g : G) :
  exists outs g', Flowers.colorize_lines grid kind enabled g = Some (outs, g').
Proof.
  destruct enabled.
  - destruct (fl_colorize_lines_strip grid kind g) as (outs & g' & E & _).
    now exists outs, g'.
  - now exists grid, g.
Qed.

Lemma gd_colorize_lines_total grid kind enabled (g : G) :
  exists outs g', Garden.colorize_lines grid kind enabled g = Some (outs, g').
Proof.
  destruct enabled.
  - destruct (gd_colorize_lines_strip grid kind g) as (outs & g' & E & _).
    now exists outs, g'.
  - now exists grid, g.
Qed.

Lemma fl_make_plant_total gen category use_color (g : G) :
  (forall g0, returns_grounded gen g0) ->
  exists plant g', Flowers.make_plant gen category use_color g
                   = Some (plant, g').
Proof.
  intros Hgen. unfold Flowers.make_plant.
  draw_randint sub_seed Hsub. unfold with_seed.
  destruct (Hgen (rs_seed sub_seed)) as (lines & kind & g1 & E1 & _).
  rewrite (bind_some _ _ _ _ _ E1). cbn [fst snd].
  destruct (fl_colorize_lines_total lines (category ++ kind) use_color g1)
    as (outs & g2 & E2).
  rewrite E2. now exists outs, g0.
Qed.

Lemma gd_make_plant_total gen category use_color (g : G) :
  (forall g0, returns_grounded gen g0) ->
  exists plant g', Garden.make_plant gen category use_color g
                   = Some (plant, g').
Proof.
  intros Hgen. unfold Garden.make_plant.
  draw_randint sub_seed Hsub. unfold with_seed.
  destruct (Hgen (rs_seed sub_seed)) as (lines & kind & g1 & E1 & _).
  rewrite (bind_some _ _ _ _ _ E1). cbn [fst snd].
  destruct (gd_colorize_lines_total lines (category ++ kind) use_color g1)
    as (outs & g2 & E2).
  rewrite E2. now exists outs, g0.
Qed.

Lemma fl_print_garden_total env plants layout cols fit :
  exists out, Flowers.print_garden env plants layout cols 1 fit = Some out.
Proof.
  unfold Flowers.print_garden, Flowers.auto_fit_cols. cbv zeta.
  pose proof (auto_fit_divisor_positive plants 1 ltac:(lia)) as Hpos.
  destruct (str_eqb layout (lit "horizontal")); [|eexists; reflexivity].
  destruct fit; [|eexists; reflexivity].
  destruct (Z.eqb_spec
              (max_default 1 (map Flowers.plant_width plants) + 1) 0);
    [lia|eexists; reflexivity].
Qed.

Lemma gd_print_garden_total env plants layout cols fit :
  exists out, Garden.print_garden env plants layout cols 1 fit = Some out.
Proof.
  unfold Garden.print_garden, Garden.auto_fit_cols. cbv zeta.
  pose proof (auto_fit_divisor_positive plants 1 ltac:(lia)) as Hpos.
  destruct (str_eqb layout (lit "horizontal")); [|eexists; reflexivity].
  destruct fit; [|eexists; reflexivity].
  destruct (Z.eqb_spec
              (max_default 1 (map Garden.plant_width plants) + 1) 0);
    [change Garden.plant_width with Flowers.plant_width in *; lia
    |eexists; reflexivity].
Qed.

(** Runs a generation loop of [main] whose every turn returns. *)
Ltac run_loop plants turn :=
  match goal with
  | |- context [bind (mapM ?f ?l) ?k ?g0] =>
      let Hf := fresh "Hf" in
      let g' := fresh "g" in
      let E := fresh "E" in
      assert (Hf : forall a g, In a l -> exists b g1, f a g = Some (b, g1))
        by (intros ? ? _; turn);
      destruct (mapM_total f l Hf g0) as (plants & g' & E & _);
      rewrite (bind_some (mapM f l) k g0 plants g' E); cbv beta
  end.

Lemma fl_main_total (env : Env) (args : Args) :
  1 <= size args -> exists out, Flowers.main nt env args = Some out.
Proof.
  intros Hsize. unfold Flowers.main. cbv zeta.
  run_loop flower_plants ltac:(apply fl_make_plant_total; intros g1;
                         now apply fl_random_flower_grounded).
  run_loop tree_plants ltac:(apply fl_make_plant_total; intros g1;
                       now apply fl_random_tree_grounded).
  cbn [ret]. apply fl_print_garden_total.
Qed.

Lemma gd_main_total (env : Env) (args : Args) :
  1 <= size args -> exists out, Garden.main nt env args = Some out.
Proof.
  intros Hsize. unfold Garden.main. cbv zeta.
  run_loop flower_plants ltac:(apply gd_make_plant_total; intros g1;
                         now apply gd_random_flower_grounded).
  run_loop tree_plants ltac:(apply gd_make_plant_total; intros g1;
                       now apply gd_random_tree_grounded).
  cbn [ret]. apply gd_print_garden_total.
Qed.

End Runs.

(** C3.  The text a run writes is a function of the parsed arguments and
    the seed alone: two runs of one installation with the same arguments,
    a seed given and colour forced on or off, write the same text in
    whatever environments they run, provided auto-fit is off or the two
    terminals are equally wide.  Whether standard output is a terminal and
    what the system would have seeded are not read.  For a size of at
    least 1 (the parser admits 1, 2 and 3) the run does write a text: no
    exception ends it. *)
Theorem main_deterministic :
  forall {G : Type} `{RandomSource G} (nt : bool) (args : Args)
         (e1 e2 : Env) (s : Z),
    seed args = Some s ->
    color args = lit "on" \/ color args = lit "off" ->
    auto_fit args = false \/ terminal_columns e1 = terminal_columns e2 ->
    Flowers.main nt e1 args = Flowers.main nt e2 args
    /\ Garden.main nt e1 args = Garden.main nt e2 args
    /\ (1 <= size args ->
        (exists out, Flowers.main nt e1 args = Some out)
        /\ (exists out, Garden.main nt e1 args = Some out)).
Proof.
  intros G RS nt args e1 e2 s Hseed Hcolor Hfit.
  split; [|split].
  3:{ intros Hsize. split; [now apply fl_main_total|now apply gd_main_total]. }
  all: unfold Flowers.main, Garden.main; rewrite Hseed; cbv zeta.
  all: assert (Huse : forall e : Env,
             (if str_eqb (color args) (lit "on") then true
              else if str_eqb (color args) (lit "off") then false
                   else stdout_isatty e)
             = str_eqb (color args) (lit "on"))
         by (intros e; destruct Hcolor as [-> | ->]; reflexivity).
  all: rewrite !Huse.
  all: match goal with |- match ?r with _ => _ end = _ =>
         destruct r as [[plants g']|]; [|reflexivity]
       end.
  - now apply fl_print_garden_env.
  - now apply gd_print_garden_env.
Qed.

Lemma main_deterministic_witness :
  seed demo_args = Some 42
  /\ color demo_args = lit "on"
  /\ auto_fit demo_args = false
  /\ Flowers.main (G := Lcg) false tty_env demo_args
     = Flowers.main (G := Lcg) false pipe_env demo_args
  /\ Garden.main (G := Lcg) false tty_env demo_args
     = Garden.main (G := Lcg) false pipe_env demo_args
  /\ (1 <= size demo_args ->
      (exists out, Flowers.main (G := Lcg) false tty_env demo_args = Some out)
      /\ (exists out,
             Garden.main (G := Lcg) false tty_env demo_args = Some out)).
Proof.
  assert (Hseed : seed demo_args = Some 42) by reflexivity.
  assert (Hcolor : color demo_args = lit "on") by reflexivity.
  assert (Hfit : auto_fit demo_args = false) by reflexivity.
  split; [exact Hseed|split; [exact Hcolor|split; [exact Hfit|]]].
  exact (main_deterministic (G := Lcg) false demo_args tty_env pipe_env 42
           Hseed (or_introl Hcolor) (or_introl Hfit)).
Defined.

(** ** What the stripper removes and what it keeps *)

Lemma strip_from_length (s : str) :
  forall k, (length (strip_from k s) <= length s)%nat.
Proof.
  induction s as [|c t IH]; intros k; [destruct k; cbn; lia|].
  cbn [strip_from]. destruct k as [|k].
  - destruct (match_sgr (c :: t)) as [n|].
    + specialize (IH (n - 1)%nat). cbn [length]. lia.
    + specialize (IH O). cbn [length]. lia.
  - specialize (IH k). cbn [length]. lia.
Qed.

Lemma sgr_params_run (ps : str) (c : char) (rest : str) :
  forallb sgr_param ps = true -> sgr_param c = false ->
  sgr_params (ps ++ c :: rest) = length ps
  /\ nth_error (ps ++ c :: rest) (length ps) = Some c.
Proof.
  intros Hps Hc. induction ps as [|p ps IH]; cbn [app sgr_params length].
  - rewrite Hc. auto.
  - cbn [forallb] in Hps. apply andb_true_iff in Hps. destruct Hps as [Hp Hps].
    rewrite Hp. destruct (IH Hps) as [-> E]. auto.
Qed.

Lemma strip_params_kept (ps rest : str) :
  forallb sgr_param ps = true ->
  _strip_ansi (ps ++ rest) = ps ++ _strip_ansi rest.
Proof.
  intros Hps. induction ps as [|p ps IH]; [reflexivity|].
  cbn [forallb] in Hps. apply andb_true_iff in Hps. destruct Hps as [Hp Hps].
  cbn [app]. rewrite strip_keeps.
  - now rewrite IH.
  - apply match_sgr_not_ESC. intros ->. discriminate.
Qed.

Lemma skipn_run {A} (ps : list A) (c : A) (rest : list A) :
  skipn (S (length ps)) (ps ++ c :: rest) = rest.
Proof. induction ps as [|p ps IH]; [reflexivity|exact IH]. Qed.

(** Rewrites the run and the character behind it where [match_sgr] reads
    them. *)
Ltac use_run E1 E2 :=
  match goal with
  | |- context [@nth_error ?A ?t (sgr_params ?t)] =>
      let F1 := fresh in
      let F2 := fresh in
      pose proof E1 as F1; pose proof E2 as F2;
      match type of F1 with _ = ?n =>
        change (sgr_params t = n) in F1;
        match type of F2 with _ = ?r =>
          change (@nth_error A t n = r) in F2
        end
      end;
      rewrite F1, F2
  end.

Lemma match_sgr_complete (ps rest : str) :
  forallb sgr_param ps = true ->
  match_sgr (ESC :: 91%N :: ps ++ 109%N :: rest) = Some (3 + length ps)%nat.
Proof.
  intros Hps. unfold match_sgr. cbv zeta.
  destruct (sgr_params_run ps 109%N rest Hps eq_refl) as [E1 E2].
  use_run E1 E2. reflexivity.
Qed.

Lemma match_sgr_other_final (ps rest : str) (c : char) :
  forallb sgr_param ps = true -> sgr_param c = false -> c <> 109%N ->
  match_sgr (ESC :: 91%N :: ps ++ c :: rest) = None.
Proof.
  intros Hps Hc Hm. unfold match_sgr. cbv zeta.
  destruct (sgr_params_run ps c rest Hps Hc) as [E1 E2].
  use_run E1 E2. apply N.eqb_neq in Hm. rewrite Hm. reflexivity.
Qed.

Lemma sgr_run_split (t : str) (c : char) :
  nth_error t (sgr_params t) = Some c ->
  exists qs r, forallb sgr_param qs = true /\ t = qs ++ c :: r.
Proof.
  induction t as [|x t IH]; cbn [sgr_params]; [discriminate|].
  destruct (sgr_param x) eqn:Ex.
  - cbn [nth_error]. intros E. destruct (IH E) as (qs & r & Hqs & ->).
    exists (x :: qs), r. cbn [forallb]. rewrite Ex, Hqs. now split.
  - cbn [nth_error]. intros E. inversion E; subst.
    exists [], t. now split.
Qed.

(** A match of the pattern is a sequence ESC [ parameters m. *)
Lemma match_sgr_sound (s : str) (n : nat) :
  match_sgr s = Some n ->
  exists qs r, forallb sgr_param qs = true
               /\ s = ESC :: 91%N :: qs ++ 109%N :: r.
Proof.
  unfold match_sgr. destruct s as [|e [|b t]]; try discriminate.
  destruct (N.eqb_spec e ESC) as [->|]; [|discriminate].
  destruct (N.eqb_spec b 91) as [->|]; [|discriminate].
  cbn [andb]. cbv zeta.
  destruct (nth_error t (sgr_params t)) as [c|] eqn:En; [|discriminate].
  destruct (N.eqb_spec c 109) as [->|]; [|discriminate].
  intros _. destruct (sgr_run_split t 109%N En) as (qs & r & Hqs & ->).
  now exists qs, r.
Qed.

(** X6.  [_strip_ansi] removes exactly the sequences ESC [ parameters m.
    One whose parameters are digits and semicolons vanishes, whatever
    follows it; the same head before another final character (a cursor or
    erase sequence) stays where it is; a character at which no such
    sequence starts is kept, and the text behind it is stripped; the empty
    text is stripped to itself.  So a text without the escape character is
    left as it is, and the result is never longer than the text. *)
Theorem strip_ansi_removes_only_sgr :
  forall (ps rest : str),
    forallb sgr_param ps = true ->
    _strip_ansi (ESC :: 91%N :: ps ++ 109%N :: rest) = _strip_ansi rest
    /\ (forall c : char,
          sgr_param c = false -> c <> 109%N ->
          _strip_ansi (ESC :: 91%N :: ps ++ c :: rest)
          = ESC :: 91%N :: ps ++ _strip_ansi (c :: rest))
    /\ (forall (c : char) (t : str),
          (forall qs r, forallb sgr_param qs = true ->
                        c :: t <> ESC :: 91%N :: qs ++ 109%N :: r) ->
          _strip_ansi (c :: t) = c :: _strip_ansi t)
    /\ _strip_ansi [] = []
    /\ (~ In ESC rest -> _strip_ansi rest = rest)
    /\ 0 <= _visible_len rest <= len rest.
Proof.
  intros ps rest Hps. split; [|split; [|split; [|split; [|split]]]].
  - unfold _strip_ansi. cbn [strip_from].
    rewrite (match_sgr_complete ps rest Hps).
    etransitivity; [apply strip_from_skipn|].
    replace (3 + length ps - 1)%nat with (S (S (length ps))) by lia.
    cbn [skipn]. f_equal. apply skipn_run.
  - intros c Hc Hm.
    assert (Hno : match_sgr (ESC :: 91%N :: ps ++ c :: rest) = None)
      by now apply match_sgr_other_final.
    rewrite strip_keeps by exact Hno.
    rewrite strip_keeps by (apply match_sgr_not_ESC; discriminate).
    now rewrite strip_params_kept.
  - intros c t Hnone. apply strip_keeps.
    destruct (match_sgr (c :: t)) as [n|] eqn:E; [|reflexivity].
    destruct (match_sgr_sound _ _ E) as (qs & r & Hqs & Hs).
    now destruct (Hnone qs r Hqs).
  - reflexivity.
  - apply esc_free_plain.
  - unfold _visible_len, len, _strip_ansi.
    pose proof (strip_from_length rest 0). lia.
Qed.

Lemma strip_ansi_removes_only_sgr_witness :
  forallb sgr_param (lit "38;5;94") = true
  /\ _strip_ansi (ESC :: 91%N :: lit "38;5;94" ++ 109%N :: lit "|||")
     = _strip_ansi (lit "|||").
Proof.
  assert (Hps : forallb sgr_param (lit "38;5;94") = true) by reflexivity.
  split; [exact Hps|].
  exact (proj1 (strip_ansi_removes_only_sgr (lit "38;5;94") (lit "|||") Hps)).
Defined.

(** A text that ends before an escape character is stripped on its own. *)
Lemma sgr_params_app_ESC (t r : str) :
  sgr_params (t ++ ESC :: r) = sgr_params t.
Proof.
  induction t as [|c t IH]; cbn [app sgr_params]; [reflexivity|].
  now rewrite IH.
Qed.

Lemma match_sgr_app_ESC (s r : str) :
  s <> [] -> match_sgr (s ++ ESC :: r) = match_sgr s.
Proof.
  intros Hne. destruct s as [|e [|b t]]; [congruence| |].
  - cbn [app match_sgr]. destruct (e =? ESC)%N; reflexivity.
  - cbn [app match_sgr]. destruct ((e =? ESC)%N && (b =? 91)%N); [|reflexivity].
    rewrite sgr_params_app_ESC.
    destruct (nth_error t (sgr_params t)) as [c|] eqn:En.
    + rewrite nth_error_app1 by (apply nth_error_Some; congruence).
      now rewrite En.
    + apply nth_error_None in En.
      assert (Hle : (sgr_params t <= length t)%nat).
      { clear. induction t as [|c t IH]; cbn; [lia|].
        destruct (sgr_param c); cbn; lia. }
      assert (sgr_params t = length t) as -> by lia.
      rewrite nth_error_app2, Nat.sub_diag by lia. reflexivity.
Qed.

Lemma match_sgr_bound (s : str) (n : nat) :
  match_sgr s = Some n -> (1 <= n <= length s)%nat.
Proof.
  destruct s as [|e [|b t]]; cbn [match_sgr]; try discriminate.
  destruct ((e =? ESC)%N && (b =? 91)%N); [|discriminate].
  destruct (nth_error t (sgr_params t)) as [c|] eqn:En; [|discriminate].
  destruct (c =? 109)%N; [|discriminate].
  intros E. inversion E; subst.
  assert (sgr_params t < length t)%nat by (apply nth_error_Some; congruence).
  cbn [length]. lia.
Qed.

Lemma strip_from_app_ESC (s r : str) :
  forall k, (k <= length s)%nat ->
    strip_from k (s ++ ESC :: r) = strip_from k s ++ _strip_ansi (ESC :: r).
Proof.
  induction s as [|c t IH]; intros k Hk.
  - cbn [length] in Hk. assert (k = O) as -> by lia. reflexivity.
  - cbn [app strip_from]. destruct k as [|k].
    + change (c :: t ++ ESC :: r) with ((c :: t) ++ ESC :: r).
      rewrite match_sgr_app_ESC by discriminate.
      destruct (match_sgr (c :: t)) as [n|] eqn:Em.
      * apply match_sgr_bound in Em. cbn [length] in Em.
        apply IH. lia.
      * cbn [app]. f_equal. apply IH. lia.
    + apply IH. cbn [length] in Hk. lia.
Qed.

Lemma strip_app_ESC (s r : str) :
  _strip_ansi (s ++ ESC :: r) = _strip_ansi s ++ _strip_ansi (ESC :: r).
Proof. apply strip_from_app_ESC. lia. Qed.

(** X7.  [_color_wrap] is invisible: for every text, every colour name
    (known to the table or not) and either value of the flag, stripping
    the wrapped text gives what stripping the text gives, so the visible
    length is the text's. *)
Theorem color_wrap_invisible :
  forall (s color : str) (enabled : bool),
    _strip_ansi (_color_wrap s color enabled) = _strip_ansi s
    /\ _visible_len (_color_wrap s color enabled) = _visible_len s.
Proof.
  intros s color enabled.
  assert (E : _strip_ansi (_color_wrap s color enabled) = _strip_ansi s).
  { unfold _color_wrap. destruct enabled; cbn [negb]; [|reflexivity].
    rewrite strip_code.
    change (dict_get ANSI (lit "reset") []) with (ESC :: lit "[0m").
    rewrite strip_app_ESC.
    change (_strip_ansi (ESC :: lit "[0m")) with (@nil char).
    apply app_nil_r. }
  split; [exact E|]. unfold _visible_len. now rewrite E.
Qed.

(** ** Row-groups *)

Lemma firstn_plus {A} (a b : nat) (l : list A) :
  firstn (a + b) l = firstn a l ++ firstn b (skipn a l).
Proof.
  revert l. induction a as [|a IH]; intros l; [reflexivity|].
  destruct l as [|x l]; cbn [Nat.add firstn skipn app].
  - now rewrite firstn_nil.
  - now rewrite IH.
Qed.

Lemma chunks_concat {A} (c : nat) (l : list A) (m : nat) :
  concat (map (fun k => firstn c (skipn (c * k) l)) (seq 0 m))
  = firstn (c * m) l.
Proof.
  induction m as [|m IH].
  - now rewrite Nat.mul_0_r.
  - rewrite seq_S, map_app, concat_app, IH. cbn [map concat Nat.add].
    rewrite app_nil_r, Nat.mul_succ_r. symmetry. apply firstn_plus.
Qed.

Lemma row_groups_chunks {A} (plants : list A) (cols : Z) :
  row_groups plants cols
  = map (fun k => firstn (Z.to_nat (Z.max 1 cols))
                    (skipn (Z.to_nat (Z.max 1 cols) * k) plants))
        (seq 0 (Z.to_nat ((len plants + Z.max 1 cols - 1) / Z.max 1 cols))).
Proof.
  unfold row_groups, range_step, slice. cbv zeta. rewrite map_map.
  rewrite Z.sub_0_r. apply map_ext. intros k. f_equal; [f_equal; lia|].
  f_equal. rewrite Z.add_0_l, Z2Nat.inj_mul, Nat2Z.id by lia. reflexivity.
Qed.

Lemma group_count_bounds (n c : Z) :
  0 <= n -> 1 <= c ->
  let m := (n + c - 1) / c in
  0 <= m /\ n <= c * m /\ c * (m - 1) < n \/ (n = 0 /\ m = 0).
Proof.
  intros Hn Hc m.
  pose proof (Z.div_mod (n + c - 1) c ltac:(lia)) as Hdm.
  pose proof (Z.mod_pos_bound (n + c - 1) c ltac:(lia)) as Hmod.
  fold m in Hdm. left. repeat split; nia.
Qed.

Lemma row_groups_concat {A} (plants : list A) (cols : Z) :
  concat (row_groups plants cols) = plants.
Proof.
  rewrite row_groups_chunks, chunks_concat. apply firstn_all2.
  destruct (group_count_bounds (len plants) (Z.max 1 cols))
    as [(Hm & Hge & _)|[H0 Hm]]; unfold len in *; nia.
Qed.

Lemma row_groups_sizes {A} (plants : list A) (cols : Z) :
  Forall (fun row => 1 <= len row <= Z.max 1 cols) (row_groups plants cols).
Proof.
  rewrite row_groups_chunks. apply Forall_forall. intros row Hin.
  apply in_map_iff in Hin. destruct Hin as (k & <- & Hk).
  apply in_seq in Hk.
  destruct (group_count_bounds (len plants) (Z.max 1 cols))
    as [(Hm & _ & Hlt)|[H0 Hm]]; unfold len in *; try lia.
  rewrite length_firstn, length_skipn.
  assert (Z.of_nat (Z.to_nat (Z.max 1 cols) * k)
          <= Z.max 1 cols
             * ((Z.of_nat (length plants) + Z.max 1 cols - 1)
                  / Z.max 1 cols - 1)) by nia.
  lia.
Qed.

Lemma flat_map_of_map {A B C} (f : B -> list C) (g : A -> B) (l : list A) :
  flat_map f (map g l) = flat_map (fun a => f (g a)) l.
Proof. induction l as [|a l IH]; cbn; [reflexivity|now rewrite IH]. Qed.

Lemma len_flat_map {A B} (f : A -> list B) (l : list A) :
  len (flat_map f l) = zsum (map (fun a => len (f a)) l).
Proof.
  unfold len. induction l as [|a l IH]; cbn [flat_map map zsum fold_right];
    [reflexivity|].
  rewrite length_app, Nat2Z.inj_add. unfold zsum in IH. now rewrite IH.
Qed.

Lemma max_default_nonneg (l : list Z) :
  Forall (fun x => 0 <= x) l -> 0 <= max_default 0 l.
Proof.
  destruct l as [|x l]; cbn [max_default]; [lia|].
  intros HF. inversion HF; subst.
  destruct (fold_left_max_ge l x) as [Hx _]. lia.
Qed.

Lemma row_height_nonneg (row : list (list str)) :
  0 <= Flowers.row_height row.
Proof.
  unfold Flowers.row_height. apply max_default_nonneg.
  apply Forall_forall. intros x Hx. apply in_map_iff in Hx.
  destruct Hx as (p & <- & _). unfold len. lia.
Qed.

Lemma fl_render_row_len (gap : Z) (row : list (list str)) :
  len (Flowers.render_row gap row) = Flowers.row_height row + 1.
Proof.
  pose proof (row_height_nonneg row).
  unfold Flowers.render_row, len. cbv zeta.
  rewrite length_app, length_map, range_length. cbn [length]. lia.
Qed.

Lemma gd_render_row_len (gap : Z) (row : list (list str)) :
  len (Garden.render_row gap row) = Garden.row_height row + 1.
Proof.
  pose proof (row_height_nonneg row).
  unfold Garden.render_row, len. cbv zeta.
  change (Garden.row_height row) with (Flowers.row_height row).
  rewrite length_app, length_map, range_length. cbn [length]. lia.
Qed.

Lemma fl_render_horizontal_flat (plants : list (list str)) (cols gap : Z) :
  Flowers.render_horizontal plants cols gap
  = flat_map (Flowers.render_row gap) (row_groups plants cols).
Proof.
  assert (Hc : (if cols <? 1 then 1 else cols) = Z.max 1 cols)
    by (destruct (Z.ltb_spec cols 1); lia).
  unfold Flowers.render_horizontal, row_groups. cbv zeta.
  now rewrite Hc, flat_map_of_map.
Qed.

Lemma gd_render_horizontal_flat (plants : list (list str)) (cols gap : Z) :
  Garden.render_horizontal plants cols gap
  = flat_map (Garden.render_row gap) (row_groups plants cols).
Proof.
  assert (Hc : (if cols <? 1 then 1 else cols) = Z.max 1 cols)
    by (destruct (Z.ltb_spec cols 1); lia).
  unfold Garden.render_horizontal, row_groups. cbv zeta.
  now rewrite Hc, flat_map_of_map.
Qed.

(** X8.  The horizontal layout of both files loses no plant and repeats
    none: the row-groups, taken in order, are the plant list cut into
    pieces of at least one and at most [max(1, cols)] plants; the output is
    the lines of the groups one after another, and it has as many lines as
    the heights of the groups add up to, plus one empty line for each. *)
Theorem render_horizontal_groups :
  forall (plants : list (list str)) (cols gap : Z),
    concat (row_groups plants cols) = plants
    /\ Forall (fun row => 1 <= len row <= Z.max 1 cols)
              (row_groups plants cols)
    /\ Flowers.render_horizontal plants cols gap
       = flat_map (Flowers.render_row gap) (row_groups plants cols)
    /\ Garden.render_horizontal plants cols gap
       = flat_map (Garden.render_row gap) (row_groups plants cols)
    /\ len (Flowers.render_horizontal plants cols gap)
       = zsum (map (fun row => Flowers.row_height row + 1)
                   (row_groups plants cols))
    /\ len (Garden.render_horizontal plants cols gap)
       = zsum (map (fun row => Garden.row_height row + 1)
                   (row_groups plants cols)).
Proof.
  intros plants cols gap.
  pose proof (fl_render_horizontal_flat plants cols gap) as Hf.
  pose proof (gd_render_horizontal_flat plants cols gap) as Hg.
  split; [|split; [|split; [|split; [|split]]]].
  - apply row_groups_concat.
  - apply row_groups_sizes.
  - exact Hf.
  - exact Hg.
  - rewrite Hf, len_flat_map. f_equal. apply map_ext. intros row.
    apply fl_render_row_len.
  - rewrite Hg, len_flat_map. f_equal. apply map_ext. intros row.
    apply gd_render_row_len.
Qed.

(** ** The lines of a row-group *)

Lemma gd_padded_blocks_eq (row : list (list str)) :
  Garden.padded_blocks row
  = map (fun p => Garden.pad_plant (Garden.row_height row) p
                    (Garden.plant_width p)) row.
Proof.
  unfold Garden.padded_blocks. cbv zeta.
  now rewrite combine_map_r, map_map.
Qed.

Lemma nth_map_or {A B} (f : A -> B) (l : list A) (r : nat) (d : B) :
  nth r (map f l) d = match nth_error l r with
                      | Some a => f a
                      | None => d
                      end.
Proof.
  revert r. induction l as [|a l IH]; intros [|r]; cbn; auto.
Qed.

Lemma fl_pad_plant_nth (h : Z) (p : list str) (w : Z) (r : nat) :
  len p <= h -> Z.of_nat r < h ->
  nth r (Flowers.pad_plant h p w) []
  = cell_bottom (Z.to_nat (h - len p)) p w r.
Proof.
  intros Hle Hr. unfold Flowers.pad_plant, cell_bottom, cell_top, rpad, len in *.
  cbv zeta. destruct (Nat.ltb_spec r (Z.to_nat (h - Z.of_nat (length p)))).
  - rewrite app_nth1 by (rewrite repeat_length; lia).
    apply nth_repeat_lt. lia.
  - rewrite app_nth2 by (rewrite repeat_length; lia).
    rewrite repeat_length, nth_map_or.
    destruct (nth_error p (r - Z.to_nat (h - Z.of_nat (length p))))
      as [ln|] eqn:En; [reflexivity|].
    apply nth_error_None in En. lia.
Qed.

Lemma gd_pad_plant_nth (h : Z) (p : list str) (w : Z) (r : nat) :
  len p <= h -> Z.of_nat r < h ->
  nth r (Garden.pad_plant h p w) [] = cell_top p w r.
Proof.
  intros Hle Hr. unfold Garden.pad_plant, cell_top, rpad, len in *.
  cbv zeta. rewrite length_map.
  destruct (nth_error p r) as [ln|] eqn:En.
  - rewrite app_nth1
      by (rewrite length_map; apply nth_error_Some; congruence).
    rewrite nth_map_or, En. reflexivity.
  - apply nth_error_None in En.
    rewrite app_nth2 by (rewrite length_map; lia).
    apply nth_repeat_lt. rewrite length_map. lia.
Qed.

(** X9.  Line by line, what a row-group prints.  In flowers.py a plant
    shows spaces of its own width on the first [max_h - height] lines of
    the group and its rows below them; in garden.py a plant shows its rows
    from the first line of the group on and spaces of its own width below
    them.  Every row is padded on the right to the plant's width, the
    plants of the group are joined with the gap, and the line is trimmed
    on the right. *)
Theorem render_row_lines :
  forall (gap : Z) (row : list (list str)) (r : nat),
    Z.of_nat r < Flowers.row_height row ->
    nth r (Flowers.render_row gap row) []
    = rstrip (join (spaces gap)
        (map (fun p => cell_bottom
                         (Z.to_nat (Flowers.row_height row - len p))
                         p (Flowers.plant_width p) r) row))
    /\ nth r (Garden.render_row gap row) []
       = rstrip (join (spaces gap)
           (map (fun p => cell_top p (Garden.plant_width p) r) row)).
Proof.
  intros gap row r Hr. split.
  - unfold Flowers.render_row. cbv zeta.
    rewrite app_nth1 by (rewrite length_map, range_length; lia).
    rewrite nth_map_range by lia.
    do 2 f_equal. rewrite fl_padded_blocks_eq, map_map.
    apply map_ext_in. intros p Hin. rewrite Nat2Z.id.
    apply fl_pad_plant_nth; [now apply fl_height_le|exact Hr].
  - unfold Garden.render_row. cbv zeta.
    change (Garden.row_height row) with (Flowers.row_height row).
    rewrite app_nth1 by (rewrite length_map, range_length; lia).
    rewrite nth_map_range by lia.
    do 2 f_equal. rewrite gd_padded_blocks_eq, map_map.
    apply map_ext_in. intros p Hin. rewrite Nat2Z.id.
    apply gd_pad_plant_nth; [now apply fl_height_le|exact Hr].
Qed.

Lemma render_row_lines_witness :
  Z.of_nat 0 < Flowers.row_height [[lit "a"]; [lit "b"; lit "c"]]
  /\ nth 0 (Flowers.render_row 1 [[lit "a"]; [lit "b"; lit "c"]]) []
     = lit "  b"
  /\ nth 0 (Garden.render_row 1 [[lit "a"]; [lit "b"; lit "c"]]) []
     = lit "a b".
Proof.
  assert (Hr : Z.of_nat 0 < Flowers.row_height [[lit "a"]; [lit "b"; lit "c"]])
    by (vm_compute; reflexivity).
  split; [exact Hr|].
  exact (render_row_lines 1 [[lit "a"]; [lit "b"; lit "c"]] 0 Hr).
Defined.

(** ** One plant to a line *)

Lemma rstrip_repeat_sp (n : nat) : rstrip (repeat sp n) = [].
Proof. induction n as [|n IH]; cbn; [reflexivity|now rewrite IH]. Qed.

Lemma rstrip_app_spaces (s : str) (k : Z) : rstrip (s ++ spaces k) = rstrip s.
Proof.
  rewrite spaces_repeat. induction s as [|c t IH]; cbn [app rstrip].
  - apply rstrip_repeat_sp.
  - now rewrite IH.
Qed.

Lemma map_nth_range {A B} (f : A -> B) (l : list A) (d : A) :
  map (fun r => f (nth (Z.to_nat r) l d)) (range 0 (len l)) = map f l.
Proof.
  unfold range, len. rewrite map_map, Z.sub_0_r, Nat2Z.id.
  induction l as [|a l IH]; [reflexivity|].
  cbn [length seq map]. f_equal.
  rewrite <- seq_shift, map_map. rewrite <- IH. apply map_ext.
  intros k. replace (Z.to_nat (0 + Z.of_nat (S k))) with (S (Z.to_nat (0 + Z.of_nat k))) by lia.
  reflexivity.
Qed.

Lemma row_groups_singletons {A} (plants : list A) (cols : Z) :
  cols <= 1 -> row_groups plants cols = map (fun p => [p]) plants.
Proof.
  intros Hc. rewrite row_groups_chunks.
  replace (Z.max 1 cols) with 1 by lia.
  replace ((len plants + 1 - 1) / 1) with (len plants)
    by (rewrite Z.div_1_r; lia).
  unfold len. rewrite Nat2Z.id. change (Z.to_nat 1) with 1%nat.
  induction plants as [|p plants IH]; [reflexivity|].
  cbn [length seq map]. f_equal.
  rewrite <- seq_shift, map_map, <- IH. apply map_ext. intros k.
  now rewrite !Nat.mul_1_l.
Qed.

Lemma fl_render_row_single (gap : Z) (p : list str) :
  Flowers.render_row gap [p] = map rstrip p ++ [[]].
Proof.
  unfold Flowers.render_row. cbv zeta. rewrite fl_padded_blocks_eq.
  f_equal. cbn [map]. unfold Flowers.row_height. cbn [map max_default].
  unfold Flowers.pad_plant. cbv zeta. rewrite Z.sub_diag. cbn [Z.to_nat repeat app].
  cbn [join].
  replace (len p) with (len (map (fun ln => ln ++ spaces (Flowers.plant_width p - _visible_len ln)) p))
    by (unfold len; now rewrite length_map).
  rewrite (map_nth_range rstrip). rewrite map_map. apply map_ext.
  intros ln. apply rstrip_app_spaces.
Qed.

Lemma gd_pad_plant_full (p : list str) (w : Z) :
  Garden.pad_plant (len p) p w
  = map (fun ln => ln ++ spaces (w - _visible_len ln)) p.
Proof.
  unfold Garden.pad_plant, len. cbv zeta.
  rewrite length_map, Z.sub_diag. apply app_nil_r.
Qed.

Lemma gd_render_row_single (gap : Z) (p : list str) :
  Garden.render_row gap [p] = map rstrip p ++ [[]].
Proof.
  unfold Garden.render_row. cbv zeta. rewrite gd_padded_blocks_eq.
  f_equal. cbn [map]. unfold Garden.row_height.
  cbn [map max_default fold_left]. rewrite gd_pad_plant_full. cbn [join].
  replace (len p)
    with (len (map (fun ln => ln ++ spaces (Garden.plant_width p
                                            - _visible_len ln)) p))
    by (unfold len; now rewrite length_map).
  rewrite (map_nth_range rstrip). rewrite map_map. apply map_ext.
  intros ln. apply rstrip_app_spaces.
Qed.

(** X10.  With one column ([cols] of 1 or less, which the layout takes
    for 1) both files print the same: every plant's rows, trimmed on the
    right, and one empty line after each plant.  The gap plays no part. *)
Theorem render_horizontal_one_column :
  forall (plants : list (list str)) (cols gap : Z),
    cols <= 1 ->
    Flowers.render_horizontal plants cols gap
    = flat_map (fun p => map rstrip p ++ [[]]) plants
    /\ Garden.render_horizontal plants cols gap
       = flat_map (fun p => map rstrip p ++ [[]]) plants.
Proof.
  intros plants cols gap Hc.
  rewrite fl_render_horizontal_flat, gd_render_horizontal_flat.
  rewrite row_groups_singletons by exact Hc.
  rewrite !flat_map_of_map. split; apply flat_map_ext; intros p.
  - apply fl_render_row_single.
  - apply gd_render_row_single.
Qed.

Lemma render_horizontal_one_column_witness :
  0 <= 1
  /\ Flowers.render_horizontal [[lit "a "; lit "bc"]; [lit "d"]] 0 4
     = flat_map (fun p => map rstrip p ++ [[]]) [[lit "a "; lit "bc"]; [lit "d"]]
  /\ Garden.render_horizontal [[lit "a "; lit "bc"]; [lit "d"]] 0 4
     = flat_map (fun p => map rstrip p ++ [[]]) [[lit "a "; lit "bc"]; [lit "d"]].
Proof.
  assert (Hc : 0 <= 1) by lia.
  split; [exact Hc|].
  exact (render_horizontal_one_column [[lit "a "; lit "bc"]; [lit "d"]] 0 4 Hc).
Defined.

(** ** The vertical layout *)

Lemma fl_vertical_lines_cons (p q : list str) (ps : list (list str)) (gap : Z) :
  Flowers.vertical_lines (p :: q :: ps) gap
  = p ++ repeat [] (Z.to_nat gap) ++ Flowers.vertical_lines (q :: ps) gap.
Proof. reflexivity. Qed.

Lemma gd_vertical_lines_same (plants : list (list str)) (gap : Z) :
  Garden.vertical_lines plants gap = Flowers.vertical_lines plants gap.
Proof.
  induction plants as [|p [|q ps] IH]; [reflexivity|reflexivity|].
  rewrite fl_vertical_lines_cons, <- IH. reflexivity.
Qed.

(** X11.  The vertical layout of both files prints the plants' rows in
    order and nothing else but the separators: the lines are the rows of
    the first plant and then, for every further plant, [gap] empty lines
    and the rows of that plant; nothing comes before the first plant and
    nothing after the last.  With a gap of 0 or less the lines are the rows
    of all plants, one plant after another, and in general there are as
    many lines as rows plus [gap] empty lines between two plants. *)
Theorem vertical_lines_shape :
  forall (plants : list (list str)) (gap : Z),
    Flowers.vertical_lines plants gap
    = between (repeat [] (Z.to_nat gap)) plants
    /\ (gap <= 0 -> Flowers.vertical_lines plants gap = concat plants)
    /\ (plants <> [] ->
        len (Flowers.vertical_lines plants gap)
        = zsum (map len plants) + Z.max 0 gap * (len plants - 1))
    /\ Garden.vertical_lines plants gap = Flowers.vertical_lines plants gap.
Proof.
  intros plants gap. split; [|split; [|split]].
  - induction plants as [|p [|q ps] IH]; [reflexivity| |].
    + cbn. now rewrite app_nil_r.
    + rewrite fl_vertical_lines_cons, IH. cbn [between flat_map].
      now rewrite <- app_assoc.
  - intros Hgap.
    induction plants as [|p [|q ps] IH]; [reflexivity| |].
    + cbn. now rewrite app_nil_r.
    + rewrite fl_vertical_lines_cons, IH.
      replace (Z.to_nat gap) with O by lia. reflexivity.
  - intros Hne.
    induction plants as [|p [|q ps] IH]; [congruence| |].
    + cbn [Flowers.vertical_lines map zsum fold_right length]. unfold len.
      cbn [length]. lia.
    + rewrite fl_vertical_lines_cons. specialize (IH ltac:(discriminate)).
      unfold len in *. rewrite !length_app, repeat_length.
      cbn [map zsum fold_right length] in *. unfold len in *.
      unfold str, char in *. nia.
  - apply gd_vertical_lines_same.
Qed.

(** ** An empty garden *)

Lemma range_empty (lo hi : Z) : hi <= lo -> range lo hi = [].
Proof.
  intros Hle. unfold range. replace (Z.to_nat (hi - lo)) with O by lia.
  reflexivity.
Qed.

Lemma row_groups_nil {A} (cols : Z) : row_groups (@nil A) cols = [].
Proof.
  rewrite row_groups_chunks. unfold len. cbn [length Z.of_nat].
  rewrite Z.add_0_l, Z.div_small by lia. reflexivity.
Qed.

Lemma fl_render_horizontal_nil (cols gap : Z) :
  Flowers.render_horizontal [] cols gap = [].
Proof. now rewrite fl_render_horizontal_flat, row_groups_nil. Qed.

Lemma gd_render_horizontal_nil (cols gap : Z) :
  Garden.render_horizontal [] cols gap = [].
Proof. now rewrite gd_render_horizontal_flat, row_groups_nil. Qed.

Lemma fl_print_garden_nil env layout cols fit :
  Flowers.print_garden env [] layout cols 1 fit = Some [NL].
Proof.
  unfold Flowers.print_garden, Flowers.auto_fit_cols.
  destruct (str_eqb layout (lit "horizontal")); [|reflexivity].
  destruct fit; cbn [map max_default]; cbv zeta;
    change (1 + 1 =? 0) with false; cbv iota;
    now rewrite fl_render_horizontal_nil.
Qed.

Lemma gd_print_garden_nil env layout cols fit :
  Garden.print_garden env [] layout cols 1 fit = Some [NL].
Proof.
  unfold Garden.print_garden, Garden.auto_fit_cols.
  destruct (str_eqb layout (lit "horizontal")); [|reflexivity].
  destruct fit; cbn [map max_default]; cbv zeta;
    change (1 + 1 =? 0) with false; cbv iota;
    now rewrite gd_render_horizontal_nil.
Qed.

(** X12.  A run that is asked for no plant (a count and a number of trees
    of 0 or less) writes one newline and nothing else, in both files, in
    either layout, with or without auto-fit, and whatever the seed, the
    colour mode and the environment: the empty garden is no error. *)
Theorem empty_garden_prints_newline :
  forall {G : Type} `{RandomSource G} (nt : bool) (env : Env) (args : Args),
    count args <= 0 -> trees args <= 0 ->
    Flowers.main nt env args = Some [NL]
    /\ Garden.main nt env args = Some [NL].
Proof.
  intros G RS nt env args Hc Ht.
  unfold Flowers.main, Garden.main. cbv zeta.
  rewrite !(range_empty 0 (count args)), !(range_empty 0 (trees args)) by lia.
  cbn [mapM]. unfold bind, ret. cbn [app].
  split; [apply fl_print_garden_nil|apply gd_print_garden_nil].
Qed.

Lemma empty_garden_prints_newline_witness :
  0 <= 0 /\ -3 <= 0
  /\ Flowers.main (G := Lcg) false tty_env
       {| count := 0; size := 2; seed := None; trees := -3;
          color := lit "auto"; layout := lit "horizontal"; cols := 0;
          auto_fit := true |} = Some [NL]
  /\ Garden.main (G := Lcg) false tty_env
       {| count := 0; size := 2; seed := None; trees := -3;
          color := lit "auto"; layout := lit "horizontal"; cols := 0;
          auto_fit := true |} = Some [NL].
Proof.
  assert (Hc : 0 <= 0) by lia. assert (Ht : -3 <= 0) by lia.
  split; [exact Hc|split; [exact Ht|]].
  exact (empty_garden_prints_newline (G := Lcg) false tty_env
           {| count := 0; size := 2; seed := None; trees := -3;
              color := lit "auto"; layout := lit "horizontal"; cols := 0;
              auto_fit := true |} Hc Ht).
Defined.

(** ** Annotated text *)

Lemma glyph_not_ESC (c : char) : glyph c = true -> c <> ESC.
Proof.
  unfold glyph. intros Hg ->. apply andb_true_iff in Hg.
  destruct Hg as [_ Hg]. discriminate.
Qed.

Lemma strip_glyphs (text rest : str) :
  forallb glyph text = true ->
  _strip_ansi (text ++ rest) = text ++ _strip_ansi rest.
Proof.
  intros Ht. induction text as [|c t IH]; [reflexivity|].
  cbn [forallb] in Ht. apply andb_true_iff in Ht. destruct Ht as [Hc Ht].
  cbn [app]. rewrite strip_keeps.
  - now rewrite IH.
  - apply match_sgr_not_ESC. now apply glyph_not_ESC.
Qed.

Lemma annotates_strip (on off : str) :
  annotates on off -> _strip_ansi on = off.
Proof.
  induction 1 as [|c on off Hc _ IH|color text on off Hne Ht _ IH].
  - reflexivity.
  - rewrite strip_keeps by (now apply match_sgr_not_ESC). f_equal. exact IH.
  - rewrite strip_code, strip_glyphs by exact Ht.
    change (sgr "0") with (dict_get ANSI (lit "reset") []).
    rewrite strip_code. f_equal. exact IH.
Qed.

Lemma annotates_refl (s : str) : ~ In ESC s -> annotates s s.
Proof.
  induction s as [|c t IH]; intros Hno; constructor.
  - intros ->. apply Hno. now left.
  - apply IH. intros Hin. apply Hno. now right.
Qed.

Lemma annotates_plain (on off : str) : annotates on off -> ~ In ESC off.
Proof.
  induction 1 as [|c on off Hc _ IH|color text on off Hne Ht _ IH].
  - intros [].
  - intros [E|Hin]; [congruence|auto].
  - intros Hin. apply in_app_or in Hin. destruct Hin as [Hin|Hin]; [|auto].
    rewrite forallb_forall in Ht. specialize (Ht ESC Hin). discriminate.
Qed.

Lemma annotates_app (on off on' off' : str) :
  annotates on off -> annotates on' off' ->
  annotates (on ++ on') (off ++ off').
Proof.
  intros H1 H2.
  induction H1 as [|c on off Hc _ IH|color text on off Hne Ht _ IH].
  - exact H2.
  - cbn [app]. now constructor.
  - rewrite <- !app_assoc. now constructor.
Qed.

Lemma annotates_visible_len (on off : str) :
  annotates on off -> _visible_len on = _visible_len off.
Proof.
  intros Ha. unfold _visible_len.
  rewrite (annotates_strip on off Ha).
  now rewrite (annotates_strip off off (annotates_refl off (annotates_plain _ _ Ha))).
Qed.

Lemma annotates_spaces (n : Z) : annotates (spaces n) (spaces n).
Proof.
  apply annotates_refl. rewrite spaces_repeat. intros Hin.
  apply repeat_spec in Hin. discriminate.
Qed.

Lemma annotates_join (sep : str) (ons offs : list str) :
  annotates sep sep -> Forall2 annotates ons offs ->
  annotates (join sep ons) (join sep offs).
Proof.
  intros Hsep HF. induction HF as [|on off ons offs Ha HF IH]; [constructor|].
  cbn [join]. destruct HF as [|on2 off2 ons2 offs2 Ha2 HF2]; [exact Ha|].
  apply annotates_app; [exact Ha|]. apply annotates_app; [exact Hsep|exact IH].
Qed.

(** Trimming on the right: the wrapped runs are glyphs and the codes end
    in [m], so white space is trimmed from both texts alike. *)
Lemma rstrip_app_nonblank (a b : str) :
  rstrip b <> [] -> rstrip (a ++ b) = a ++ rstrip b.
Proof.
  intros Hb. induction a as [|c a IH]; [reflexivity|].
  cbn [app rstrip]. rewrite IH.
  destruct (a ++ rstrip b) eqn:E; [|reflexivity].
  apply app_eq_nil in E. tauto.
Qed.

Lemma rstrip_glyphs (text : str) :
  forallb glyph text = true -> rstrip text = text.
Proof.
  induction text as [|c t IH]; intros Ht; [reflexivity|].
  cbn [forallb] in Ht. apply andb_true_iff in Ht. destruct Ht as [Hc Ht].
  cbn [rstrip]. rewrite IH by exact Ht.
  unfold glyph in Hc. apply andb_true_iff in Hc. destruct Hc as [Hc _].
  apply negb_true_iff in Hc. rewrite Hc. now destruct t.
Qed.

Lemma rstrip_app_blank (a b : str) :
  rstrip b = [] -> rstrip (a ++ b) = rstrip a.
Proof.
  intros Hb. induction a as [|c a IH]; [exact Hb|].
  cbn [app rstrip]. now rewrite IH.
Qed.

Lemma rstrip_wrapped (color text : str) :
  rstrip (dict_get ANSI color [] ++ text ++ sgr "0")
  = dict_get ANSI color [] ++ text ++ sgr "0".
Proof.
  rewrite app_assoc. now rewrite rstrip_app_nonblank by discriminate.
Qed.

Lemma annotates_rstrip (on off : str) :
  annotates on off ->
  annotates (rstrip on) (rstrip off) /\ (rstrip on = [] <-> rstrip off = []).
Proof.
  induction 1
    as [|c on off Hc _ [IH Hiff]|color text on off Hne Ht Ha [IH Hiff]].
  - split; [constructor|tauto].
  - cbn [rstrip].
    destruct (rstrip on) as [|x on'] eqn:Eon;
      destruct (rstrip off) as [|y off'] eqn:Eoff.
    + destruct (isspace c).
      * split; [constructor|tauto].
      * split; [constructor; [exact Hc|constructor]|].
        split; discriminate.
    + destruct Hiff as [Hiff _]. specialize (Hiff eq_refl). discriminate.
    + destruct Hiff as [_ Hiff]. specialize (Hiff eq_refl). discriminate.
    + split; [now constructor|]. split; discriminate.
  - assert (Hnon : forall x : str, dict_get ANSI color [] ++ text ++ x <> []).
    { intros x E. apply app_eq_nil in E. destruct E as [_ E].
      apply app_eq_nil in E. tauto. }
    assert (Hnoff : forall x : str, text ++ x <> []).
    { intros x E. apply app_eq_nil in E. tauto. }
    replace (dict_get ANSI color [] ++ text ++ sgr "0" ++ on)
      with ((dict_get ANSI color [] ++ text ++ sgr "0") ++ on)
      by (now rewrite <- !app_assoc).
    assert (Hd : rstrip off = [] \/ rstrip off <> [])
      by (destruct (rstrip off); [left|right]; congruence).
    destruct Hd as [Eoff|Eoff].
    + assert (Eon : rstrip on = []) by tauto.
      rewrite (rstrip_app_blank _ on Eon), rstrip_wrapped.
      rewrite (rstrip_app_blank text off Eoff), (rstrip_glyphs text Ht).
      split.
      * rewrite <- (app_nil_r text) at 2.
        replace (dict_get ANSI color [] ++ text ++ sgr "0")
          with (dict_get ANSI color [] ++ text ++ sgr "0" ++ [])
          by (now rewrite app_nil_r).
        constructor; auto. constructor.
      * split; intros E; [now apply Hnon in E|].
        rewrite <- (app_nil_r text) in E. now apply Hnoff in E.
    + assert (Eon : rstrip on <> []) by tauto.
      rewrite (rstrip_app_nonblank _ on Eon).
      rewrite (rstrip_app_nonblank text off Eoff).
      rewrite <- !app_assoc. split.
      * constructor; auto.
      * split; intros E; [now apply Hnon in E|now apply Hnoff in E].
Qed.

(** ** The colorizer annotates *)

Lemma drawn_cons (c : char) (t : str) :
  drawn (c :: t) = true ->
  ((c =? sp)%N = true \/ glyph c = true) /\ drawn t = true.
Proof.
  unfold drawn. cbn [forallb]. intros Hd. apply andb_true_iff in Hd.
  destruct Hd as [Hc Ht]. apply orb_true_iff in Hc. auto.
Qed.

Lemma drawn_no_ESC (row : str) : drawn row = true -> ~ In ESC row.
Proof.
  unfold drawn. intros Hd Hin. rewrite forallb_forall in Hd.
  specialize (Hd ESC Hin). discriminate.
Qed.

Lemma annotates_wrap_one (ch : char) (c on off : str) :
  glyph ch = true -> annotates on off ->
  annotates (_color_wrap [ch] c true ++ on) (ch :: off).
Proof.
  intros Hg Ha. unfold _color_wrap. cbn [negb]. rewrite <- !app_assoc.
  change (dict_get ANSI (lit "reset") []) with (sgr "0").
  change (ch :: off) with ([ch] ++ off).
  constructor; [discriminate|cbn [forallb]; now rewrite Hg|exact Ha].
Qed.

Lemma annotates_wrap_bars (seg c on off : str) :
  seg <> [] -> Forall (fun ch => ch = bar) seg -> annotates on off ->
  annotates (_color_wrap seg c true ++ on) (seg ++ off).
Proof.
  intros Hne Hall Ha. unfold _color_wrap. cbn [negb]. rewrite <- !app_assoc.
  change (dict_get ANSI (lit "reset") []) with (sgr "0").
  constructor; [exact Hne| |exact Ha].
  apply forallb_forall. intros x Hx. rewrite Forall_forall in Hall.
  now rewrite (Hall x Hx).
Qed.

Section Annotating.
Context {G : Type} `{RandomSource G}.

Lemma fl_colorize_from_annotates kind (line : str) :
  forall skip (g : G) out g',
    drawn line = true ->
    Flowers.colorize_from kind skip line g = Some (out, g') ->
    annotates out (skipn skip line).
Proof.
  induction line as [|ch rest IH]; intros skip g out g' Hd E.
  - cbn in E. inversion E. destruct skip; constructor.
  - apply drawn_cons in Hd. destruct Hd as [Hch Hrest].
    cbn [Flowers.colorize_from] in E. destruct skip as [|k].
    2:{ cbn [skipn]. eapply IH; eauto. }
    cbn [skipn].
    destruct (N.eqb_spec ch sp) as [->|Hsp];
      [|destruct (N.eqb_spec ch bar) as [->|Hbar]].
    + apply bind_inv in E. destruct E as (o & g1 & E1 & E).
      apply IH in E1; [|exact Hrest]. injection E as <- _.
      constructor; [discriminate|exact E1].
    + apply bind_inv in E. destruct E as (o & g1 & E1 & E).
      apply IH in E1; [|exact Hrest]. injection E as <- _.
      destruct (takewhile_bar_prefix (bar :: rest)) as [Hfirst Hall].
      set (n := length (takewhile_bar (bar :: rest))) in *.
      assert (Hn : n = S (length (takewhile_bar rest))).
      { unfold n. cbn [takewhile_bar]. now rewrite N.eqb_refl. }
      rewrite <- Hfirst in Hall.
      assert (Hne : firstn n (bar :: rest) <> [])
        by (rewrite Hn; discriminate).
      assert (Hline : bar :: rest
                      = firstn n (bar :: rest) ++ skipn (n - 1) rest).
      { rewrite <- (firstn_skipn n (bar :: rest)) at 1. f_equal.
        rewrite Hn. cbn [skipn]. f_equal. lia. }
      set (seg := firstn n (bar :: rest)) in *.
      rewrite Hline.
      destruct (startswith kind (lit "flower_"));
        apply annotates_wrap_bars; auto.
    + apply bind_inv in E. destruct E as (c & g1 & Ec & E).
      apply bind_inv in E. destruct E as (o & g2 & E1 & E).
      apply IH in E1; [|exact Hrest]. injection E as <- _.
      apply annotates_wrap_one; [|exact E1].
      destruct Hch as [Hch|Hch]; [discriminate|exact Hch].
Qed.

Lemma gd_colorize_line_annotates kind (line : str) :
  forall (g : G) out g',
    drawn line = true ->
    Garden.colorize_line kind line g = Some (out, g') ->
    annotates out line.
Proof.
  induction line as [|ch rest IH]; intros g out g' Hd E.
  - cbn in E. inversion E. constructor.
  - apply drawn_cons in Hd. destruct Hd as [Hch Hrest].
    cbn [Garden.colorize_line] in E.
    destruct (N.eqb_spec ch sp) as [->|Hsp].
    + apply bind_inv in E. destruct E as (o & g1 & E1 & E).
      apply IH in E1; [|exact Hrest]. injection E as <- _.
      constructor; [discriminate|exact E1].
    + apply bind_inv in E. destruct E as (c & g1 & Ec & E).
      apply bind_inv in E. destruct E as (o & g2 & E1 & E).
      apply IH in E1; [|exact Hrest]. injection E as <- _.
      apply annotates_wrap_one; [|exact E1].
      destruct Hch as [Hch|Hch]; [discriminate|exact Hch].
Qed.

Lemma mapM_Forall2 {A B} (f : A -> M G B) (P : A -> Prop)
  (R : B -> A -> Prop) (l : list A) :
  (forall a g b g', P a -> f a g = Some (b, g') -> R b a) ->
  Forall P l ->
  forall g bs g', mapM f l g = Some (bs, g') -> Forall2 R bs l.
Proof.
  intros Hf HP. induction HP as [|a l Ha _ IH]; intros g bs g' E;
    cbn [mapM] in E.
  - inversion E. constructor.
  - apply bind_inv in E. destruct E as (b & g1 & E1 & E).
    apply bind_inv in E. destruct E as (bs' & g2 & E2 & E).
    inversion E; subst. constructor; eauto.
Qed.

Lemma fl_colorize_lines_annotates lines kind enabled (g : G) outs g' :
  Forall (fun row => drawn row = true) lines ->
  Flowers.colorize_lines lines kind enabled g = Some (outs, g') ->
  Forall2 annotates outs lines.
Proof.
  intros Hd E. unfold Flowers.colorize_lines in E.
  destruct enabled; cbn [negb] in E.
  - eapply (mapM_Forall2 _ (fun row => drawn row = true)); [|exact Hd|exact E].
    intros row g0 out g1 Hrow E0.
    now apply (fl_colorize_from_annotates kind row 0 g0 out g1 Hrow) in E0.
  - inversion E; subst. clear E.
    induction Hd as [|row rows Hrow _ IH]; constructor; [|exact IH].
    now apply annotates_refl, drawn_no_ESC.
Qed.

Lemma gd_colorize_lines_annotates lines kind enabled (g : G) outs g' :
  Forall (fun row => drawn row = true) lines ->
  Garden.colorize_lines lines kind enabled g = Some (outs, g') ->
  Forall2 annotates outs lines.
Proof.
  intros Hd E. unfold Garden.colorize_lines in E.
  destruct enabled; cbn [negb] in E.
  - eapply (mapM_Forall2 _ (fun row => drawn row = true)); [|exact Hd|exact E].
    intros row g0 out g1 Hrow E0.
    now apply (gd_colorize_line_annotates kind row g0 out g1 Hrow) in E0.
  - inversion E; subst. clear E.
    induction Hd as [|row rows Hrow _ IH]; constructor; [|exact IH].
    now apply annotates_refl, drawn_no_ESC.
Qed.

End Annotating.

(** ** The layout of annotated plants *)

Lemma Forall2_len {A B} (R : A -> B -> Prop) (l1 : list A) (l2 : list B) :
  Forall2 R l1 l2 -> len l1 = len l2.
Proof. intros HF. unfold len. now rewrite (Forall2_length HF). Qed.

Lemma Forall2_firstn {A B} (R : A -> B -> Prop) (n : nat) l1 l2 :
  Forall2 R l1 l2 -> Forall2 R (firstn n l1) (firstn n l2).
Proof.
  intros HF. revert n. induction HF; intros [|n]; cbn; constructor; auto.
Qed.

Lemma Forall2_skipn {A B} (R : A -> B -> Prop) (n : nat) l1 l2 :
  Forall2 R l1 l2 -> Forall2 R (skipn n l1) (skipn n l2).
Proof.
  intros HF. revert n. induction HF; intros [|n]; cbn; auto.
Qed.

Lemma Forall2_map_same {A B C} (R : B -> C -> Prop) (f : A -> B)
  (g : A -> C) (l : list A) :
  (forall a, In a l -> R (f a) (g a)) -> Forall2 R (map f l) (map g l).
Proof.
  induction l as [|a l IH]; intros Hfg; cbn [map]; constructor.
  - apply Hfg. now left.
  - apply IH. intros a' Hin. apply Hfg. now right.
Qed.

Lemma Forall2_map2 {A B C D} (R : A -> B -> Prop) (S : C -> D -> Prop)
  (f : A -> C) (g : B -> D) l1 l2 :
  (forall a b, R a b -> S (f a) (g b)) ->
  Forall2 R l1 l2 -> Forall2 S (map f l1) (map g l2).
Proof. intros Hfg HF. induction HF; cbn [map]; constructor; auto. Qed.

Lemma Forall2_flat_map {A B C D} (R : A -> B -> Prop) (S : C -> D -> Prop)
  (f : A -> list C) (g : B -> list D) l1 l2 :
  (forall a b, R a b -> Forall2 S (f a) (g b)) ->
  Forall2 R l1 l2 -> Forall2 S (flat_map f l1) (flat_map g l2).
Proof.
  intros Hfg HF. induction HF; cbn [flat_map]; [constructor|].
  apply Forall2_app; auto.
Qed.

Lemma Forall2_nth {A B} (R : A -> B -> Prop) (n : nat) l1 l2 d1 d2 :
  R d1 d2 -> Forall2 R l1 l2 -> R (nth n l1 d1) (nth n l2 d2).
Proof.
  intros Hd HF. revert n. induction HF; intros [|n]; cbn; auto.
Qed.

Lemma Forall2_repeat {A B} (R : A -> B -> Prop) (a : A) (b : B) (n : nat) :
  R a b -> Forall2 R (repeat a n) (repeat b n).
Proof. intros Hab. induction n; cbn; constructor; auto. Qed.

Lemma row_groups_Forall2 {A B} (R : A -> B -> Prop) l1 l2 (cols : Z) :
  Forall2 R l1 l2 ->
  Forall2 (Forall2 R) (row_groups l1 cols) (row_groups l2 cols).
Proof.
  intros HF. rewrite !row_groups_chunks.
  rewrite (Forall2_len R l1 l2 HF).
  apply Forall2_map_same. intros k _.
  now apply Forall2_firstn, Forall2_skipn.
Qed.

Lemma twin_visible_lens (p q : list str) :
  Forall2 annotates p q -> map _visible_len p = map _visible_len q.
Proof.
  induction 1 as [|on off p q Ha _ IH]; [reflexivity|].
  cbn [map]. now rewrite (annotates_visible_len on off Ha), IH.
Qed.

Lemma twin_width (p q : list str) :
  Forall2 annotates p q -> Flowers.plant_width p = Flowers.plant_width q.
Proof.
  intros HF. unfold Flowers.plant_width. now rewrite (twin_visible_lens p q HF).
Qed.

Lemma twin_heights (row row' : list (list str)) :
  Forall2 (Forall2 annotates) row row' -> map len row = map len row'.
Proof.
  induction 1 as [|p q row row' Hpq _ IH]; [reflexivity|].
  cbn [map]. now rewrite (Forall2_len _ p q Hpq), IH.
Qed.

Lemma twin_widths (plants plants' : list (list str)) :
  Forall2 (Forall2 annotates) plants plants' ->
  map Flowers.plant_width plants = map Flowers.plant_width plants'.
Proof.
  induction 1 as [|p q row row' Hpq _ IH]; [reflexivity|].
  cbn [map]. now rewrite (twin_width p q Hpq), IH.
Qed.

Lemma annotates_rpad (w : Z) (on off : str) :
  annotates on off ->
  annotates (on ++ spaces (w - _visible_len on))
            (off ++ spaces (w - _visible_len off)).
Proof.
  intros Ha. rewrite (annotates_visible_len on off Ha).
  apply annotates_app; [exact Ha|apply annotates_spaces].
Qed.

Section PaddedLayout.
Variable pad : Z -> list str -> Z -> list str.
Hypothesis pad_twin :
  forall (h w : Z) (p q : list str),
    Forall2 annotates p q -> Forall2 annotates (pad h p w) (pad h q w).

Lemma layout_row_twin (gap : Z) (row row' : list (list str)) :
  Forall2 (Forall2 annotates) row row' ->
  Forall2 annotates (layout_row pad gap row) (layout_row pad gap row').
Proof.
  intros HF. unfold layout_row. cbv zeta.
  rewrite (twin_heights row row' HF).
  apply Forall2_app; [|constructor; constructor].
  apply Forall2_map_same. intros r _.
  apply annotates_rstrip. apply annotates_join; [apply annotates_spaces|].
  rewrite !combine_map_r, !map_map. cbn [fst snd].
  eapply Forall2_map2; [|exact HF].
  intros p q Hpq. apply Forall2_nth; [constructor|].
  change (max_default 0 (map _visible_len p)) with (Flowers.plant_width p).
  change (max_default 0 (map _visible_len q)) with (Flowers.plant_width q).
  rewrite (twin_width p q Hpq). now apply pad_twin.
Qed.

Lemma layout_rows_twin (gap cols : Z) (plants plants' : list (list str)) :
  Forall2 (Forall2 annotates) plants plants' ->
  Forall2 annotates
    (flat_map (layout_row pad gap) (row_groups plants cols))
    (flat_map (layout_row pad gap) (row_groups plants' cols)).
Proof.
  intros HF.
  eapply Forall2_flat_map; [|apply row_groups_Forall2; exact HF].
  intros row row' Hrow. now apply layout_row_twin.
Qed.

End PaddedLayout.

Lemma fl_pad_plant_twin (h w : Z) (p q : list str) :
  Forall2 annotates p q ->
  Forall2 annotates (Flowers.pad_plant h p w) (Flowers.pad_plant h q w).
Proof.
  intros HF. unfold Flowers.pad_plant. cbv zeta.
  rewrite (Forall2_len _ p q HF).
  apply Forall2_app.
  - apply Forall2_repeat, annotates_spaces.
  - eapply Forall2_map2; [|exact HF]. intros on off. apply annotates_rpad.
Qed.

Lemma gd_pad_plant_twin (h w : Z) (p q : list str) :
  Forall2 annotates p q ->
  Forall2 annotates (Garden.pad_plant h p w) (Garden.pad_plant h q w).
Proof.
  intros HF. unfold Garden.pad_plant, len. cbv zeta.
  rewrite !length_map, (Forall2_length HF).
  apply Forall2_app.
  - eapply Forall2_map2; [|exact HF]. intros on off. apply annotates_rpad.
  - apply Forall2_repeat, annotates_spaces.
Qed.

Lemma annotates_text (lines lines' : list str) :
  Forall2 annotates lines lines' ->
  annotates (join [NL] lines ++ [NL]) (join [NL] lines' ++ [NL]).
Proof.
  intros HF.
  assert (Hnl : annotates [NL] [NL])
    by (constructor; [discriminate|constructor]).
  apply annotates_app; [|exact Hnl]. now apply annotates_join.
Qed.

Lemma fl_vertical_lines_twin (gap : Z) (plants plants' : list (list str)) :
  Forall2 (Forall2 annotates) plants plants' ->
  Forall2 annotates (Flowers.vertical_lines plants gap)
                    (Flowers.vertical_lines plants' gap).
Proof.
  induction 1 as [|p q ps qs Hpq HF IH]; [constructor|].
  destruct HF as [|p2 q2 ps2 qs2 Hpq2 HF2]; [exact Hpq|].
  rewrite !fl_vertical_lines_cons.
  apply Forall2_app; [exact Hpq|].
  apply Forall2_app; [apply Forall2_repeat; constructor|exact IH].
Qed.

Lemma fl_print_garden_twin env layout cols gap fit plants plants' out :
  Forall2 (Forall2 annotates) plants plants' ->
  Flowers.print_garden env plants layout cols gap fit = Some out ->
  exists out', Flowers.print_garden env plants' layout cols gap fit = Some out'
               /\ annotates out out'.
Proof.
  intros HF E. unfold Flowers.print_garden, Flowers.auto_fit_cols in *.
  rewrite <- (twin_widths plants plants' HF).
  destruct (str_eqb layout (lit "horizontal")).
  - destruct (if fit then _ else _) as [c|]; [|discriminate].
    inversion E; subst. eexists. split; [reflexivity|].
    apply annotates_text. rewrite !fl_render_horizontal_flat.
    apply (layout_rows_twin Flowers.pad_plant fl_pad_plant_twin). exact HF.
  - inversion E; subst. eexists. split; [reflexivity|].
    now apply annotates_text, fl_vertical_lines_twin.
Qed.

Lemma gd_print_garden_twin env layout cols gap fit plants plants' out :
  Forall2 (Forall2 annotates) plants plants' ->
  Garden.print_garden env plants layout cols gap fit = Some out ->
  exists out', Garden.print_garden env plants' layout cols gap fit = Some out'
               /\ annotates out out'.
Proof.
  intros HF E. unfold Garden.print_garden, Garden.auto_fit_cols in *.
  change Garden.plant_width with Flowers.plant_width in *.
  rewrite <- (twin_widths plants plants' HF).
  destruct (str_eqb layout (lit "horizontal")).
  - destruct (if fit then _ else _) as [c|]; [|discriminate].
    inversion E; subst. eexists. split; [reflexivity|].
    apply annotates_text. rewrite !gd_render_horizontal_flat.
    apply (layout_rows_twin Garden.pad_plant gd_pad_plant_twin). exact HF.
  - inversion E; subst. eexists. split; [reflexivity|].
    apply annotates_text. rewrite !gd_vertical_lines_same.
    now apply fl_vertical_lines_twin.
Qed.

(** ** What the generators draw *)

Lemma drawn_app (a b : str) :
  drawn a = true -> drawn b = true -> drawn (a ++ b) = true.
Proof.
  intros Ha Hb. unfold drawn in *. rewrite forallb_app.
  apply andb_true_iff. split; assumption.
Qed.

Lemma drawn_spaces (n : Z) : drawn (spaces n) = true.
Proof.
  rewrite spaces_repeat. induction (Z.to_nat n) as [|k IH]; [reflexivity|].
  cbn [repeat]. unfold drawn in *. cbn [forallb]. now rewrite IH.
Qed.

Lemma drawn_concat (rows : list str) :
  Forall (fun r => drawn r = true) rows -> drawn (concat rows) = true.
Proof.
  induction 1 as [|r rows Hr _ IH]; [reflexivity|].
  cbn [concat]. now apply drawn_app.
Qed.

Lemma Forall_repeat {A} (P : A -> Prop) (x : A) (n : nat) :
  P x -> Forall P (repeat x n).
Proof. intros Hx. induction n; cbn [repeat]; constructor; auto. Qed.

Lemma drawn_str_mul (s : str) (n : Z) :
  drawn s = true -> drawn (str_mul s n) = true.
Proof.
  intros Hs. unfold str_mul. now apply drawn_concat, Forall_repeat.
Qed.

Lemma drawn_rstrip (s : str) : drawn s = true -> drawn (rstrip s) = true.
Proof.
  induction s as [|c t IH]; [reflexivity|].
  intros Hd. apply drawn_cons in Hd. destruct Hd as [Hc Ht].
  specialize (IH Ht). apply orb_true_iff in Hc.
  cbn [rstrip]. destruct (rstrip t) as [|c' t'].
  - destruct (isspace c); [reflexivity|].
    unfold drawn. cbn [forallb]. now rewrite Hc.
  - unfold drawn in *. cbn [forallb] in *. now rewrite Hc, IH.
Qed.

Lemma drawn_replace_char (old : char) (new s : str) :
  drawn new = true -> drawn s = true ->
  drawn (replace_char old new s) = true.
Proof.
  intros Hn. unfold replace_char.
  induction s as [|c t IH]; [reflexivity|].
  intros Hd. apply drawn_cons in Hd. destruct Hd as [Hc Ht].
  cbn [flat_map]. apply drawn_app; [|now apply IH].
  destruct (c =? old)%N; [exact Hn|].
  apply orb_true_iff in Hc. unfold drawn. cbn [forallb]. now rewrite Hc.
Qed.

Lemma drawn_member (l : list str) (x : str) :
  forallb drawn l = true -> In x l -> drawn x = true.
Proof. intros Hl Hx. rewrite forallb_forall in Hl. now apply Hl. Qed.

Lemma drawn_plain (row : str) : drawn row = true -> plain row.
Proof. intros Hd. now apply esc_free_plain, drawn_no_ESC. Qed.

Create HintDb drawn.
#[local] Hint Resolve drawn_app drawn_spaces drawn_str_mul drawn_rstrip
  drawn_replace_char : drawn.
#[local] Hint Extern 1 (drawn ?x = true) =>
  (eapply drawn_member; [|eassumption]; reflexivity) : drawn.
#[local] Hint Extern 1 (drawn (lit _) = true) => reflexivity : drawn.
#[local] Hint Extern 1 (drawn Flowers.STEM_CHAR = true) => reflexivity : drawn.
#[local] Hint Extern 1 (drawn blossom = true) => reflexivity : drawn.

Lemma Forall_app_intro {A} (P : A -> Prop) (l1 l2 : list A) :
  Forall P l1 -> Forall P l2 -> Forall P (l1 ++ l2).
Proof. intros H1 H2. apply Forall_app. now split. Qed.

(** Reads off the rows of a generator's result. *)
Ltac rows_drawn :=
  try match goal with
      | Hrows : Forall _ (_ :: _) |- _ =>
          apply Forall_cons_iff in Hrows; destruct Hrows
      end;
  repeat first [ assumption
               | apply Forall_app_intro
               | apply Forall_nil
               | apply Forall_cons
               | apply Forall_repeat ];
  auto 12 with drawn.

Section Drawing.
Context {G : Type} `{RandomSource G}.
Variable nt : bool.

Lemma choice_In {A} (seq : list A) (g : G) x g' :
  choice seq g = Some (x, g') -> In x seq.
Proof.
  unfold choice. destruct seq as [|a seq']; [discriminate|].
  destruct (rs_randbelow g (len (a :: seq'))) as [i g1].
  destruct (nth_error (a :: seq') (Z.to_nat i)) as [y|] eqn:En;
    [|discriminate].
  intros E. inversion E; subst. eapply nth_error_In; eauto.
Qed.

Lemma Forall2_right {A B} (P : B -> Prop) (l : list A) (bs : list B) :
  Forall2 (fun _ b => P b) l bs -> Forall P bs.
Proof. induction 1; constructor; auto. Qed.

Lemma mapM_Forall {A B} (f : A -> M G B) (P : B -> Prop) (l : list A) :
  (forall a g b g', f a g = Some (b, g') -> P b) ->
  forall g bs g', mapM f l g = Some (bs, g') -> Forall P bs.
Proof.
  intros Hf g bs g' E.
  apply (Forall2_right P l). eapply mapM_inv; [|exact E]. exact Hf.
Qed.

(** Opens the next draw of a computation known to return. *)
Ltac undraw E x Hx :=
  let g1 := fresh "g" in
  let E1 := fresh "E" in
  apply bind_inv in E; destruct E as (x & g1 & E1 & E);
  first [apply choice_In in E1|idtac]; rename E1 into Hx; cbv beta in E.

Lemma ret_inv {A} (a b : A) (g g' : G) :
  ret a g = Some (b, g') -> b = a.
Proof. intros E. now inversion E. Qed.

Lemma ret_pair_inv {A B} (a b : A) (k k' : B) (g g' : G) :
  ret (a, k) g = Some (b, k', g') -> b = a.
Proof. intros E. now inversion E. Qed.

Ltac returned E := first [apply ret_pair_inv in E|apply ret_inv in E]; subst.

Lemma fl_round_cell_drawn radius petal center y x (g : G) cell g' :
  drawn petal = true -> drawn center = true ->
  Flowers.round_cell radius petal center y x g = Some (cell, g') ->
  drawn cell = true.
Proof.
  intros Hp Hc. unfold Flowers.round_cell, bind, random.
  destruct (rs_random g) as [r g1].
  repeat match goal with |- context [if ?b then _ else _] => destruct b end;
    intros E; inversion E; subst; auto.
Qed.

Lemma gd_round_cell_drawn radius petal center y x (g : G) cell g' :
  drawn petal = true -> drawn center = true ->
  Garden.round_cell radius petal center y x g = Some (cell, g') ->
  drawn cell = true.
Proof.
  intros Hp Hc. unfold Garden.round_cell, bind, random.
  destruct (rs_random g) as [r g1].
  repeat match goal with |- context [if ?b then _ else _] => destruct b end;
    intros E; inversion E; subst; auto.
Qed.

Lemma round_rows_drawn (cell : Z -> Z -> M G str) (ys xs : list Z)
  (g : G) lines g' :
  (forall y x g0 c g1, cell y x g0 = Some (c, g1) -> drawn c = true) ->
  mapM (fun y => row <- mapM (cell y) xs ;; ret (rstrip (concat row))) ys g
  = Some (lines, g') ->
  Forall (fun r => drawn r = true) lines.
Proof.
  intros Hcell. apply mapM_Forall. intros y g0 b g1 E.
  apply bind_inv in E. destruct E as (row & g2 & Erow & E). returned E.
  apply drawn_rstrip, drawn_concat.
  eapply mapM_Forall; [|exact Erow]. intros x g3 c g4. apply Hcell.
Qed.

Lemma fl_round_drawn size (g : G) lines g' :
  Flowers._make_round_flower size g = Some (lines, g') ->
  Forall (fun r => drawn r = true) lines.
Proof.
  unfold Flowers._make_round_flower. cbv zeta. intros E.
  undraw E petal Hp. undraw E center Hc. undraw E rows Hrows.
  undraw E h Hh.
  apply round_rows_drawn in Hrows.
  2:{ intros y x ga c gb. apply fl_round_cell_drawn; auto with drawn. }
  destruct rows as [|line0 rows']; [discriminate|]. returned E.
  rows_drawn.
Qed.

Lemma gd_round_drawn size (g : G) lines g' :
  Garden._make_round_flower size g = Some (lines, g') ->
  Forall (fun r => drawn r = true) lines.
Proof.
  unfold Garden._make_round_flower. cbv zeta. intros E.
  undraw E petal Hp. undraw E center Hc. undraw E rows Hrows.
  undraw E h Hh.
  apply round_rows_drawn in Hrows.
  2:{ intros y x ga c gb. apply gd_round_cell_drawn; auto with drawn. }
  destruct rows as [|line0 rows']; [discriminate|].
  undraw E stem Hstem. returned E.
  rows_drawn.
Qed.

Lemma fl_star_drawn size (g : G) lines g' :
  Flowers._make_star_flower size g = Some (lines, g') ->
  Forall (fun r => drawn r = true) lines.
Proof.
  unfold Flowers._make_star_flower. cbv zeta. intros E.
  undraw E petal Hp. undraw E center Hc. undraw E k Hk. returned E.
  rows_drawn.
Qed.

Lemma gd_star_drawn size (g : G) lines g' :
  Garden._make_star_flower size g = Some (lines, g') ->
  Forall (fun r => drawn r = true) lines.
Proof.
  unfold Garden._make_star_flower. cbv zeta. intros E.
  undraw E petal Hp. undraw E center Hc. undraw E stem Hstem.
  undraw E k Hk. returned E.
  rows_drawn.
Qed.

Lemma fl_tulip_drawn size (g : G) lines g' :
  Flowers._make_tulip size g = Some (lines, g') ->
  Forall (fun r => drawn r = true) lines.
Proof.
  unfold Flowers._make_tulip. cbv zeta. intros E.
  undraw E petal Hp. undraw E center Hc. undraw E leaves Hl.
  undraw E k Hk. returned E.
  rows_drawn.
Qed.

Lemma gd_tulip_drawn size (g : G) lines g' :
  Garden._make_tulip size g = Some (lines, g') ->
  Forall (fun r => drawn r = true) lines.
Proof.
  unfold Garden._make_tulip. cbv zeta. intros E.
  undraw E petal Hp. undraw E center Hc. undraw E leaves Hl.
  undraw E stem Hstem. undraw E k Hk. returned E.
  rows_drawn.
Qed.

Lemma fl_sunflower_drawn size (g : G) lines g' :
  Flowers._make_sunflower size g = Some (lines, g') ->
  Forall (fun r => drawn r = true) lines.
Proof.
  unfold Flowers._make_sunflower. cbv zeta. intros E.
  undraw E petal Hp. undraw E center Hc. returned E.
  rows_drawn.
Qed.

Lemma gd_sunflower_drawn size (g : G) lines g' :
  Garden._make_sunflower size g = Some (lines, g') ->
  Forall (fun r => drawn r = true) lines.
Proof.
  unfold Garden._make_sunflower. cbv zeta. intros E.
  undraw E petal Hp. undraw E center Hc. undraw E stem Hstem. returned E.
  rows_drawn.
Qed.

Lemma fl_cherry_drawn size (g : G) lines g' :
  Flowers._make_cherry_flower nt size g = Some (lines, g') ->
  Forall (fun r => drawn r = true) lines.
Proof.
  unfold Flowers._make_cherry_flower. cbv zeta. intros E.
  destruct nt; unfold negb in E;
    undraw E petal Hp; undraw E center Hc; returned E; rows_drawn.
Qed.

Lemma gd_cherry_drawn size (g : G) lines g' :
  Garden._make_cherry_flower nt size g = Some (lines, g') ->
  Forall (fun r => drawn r = true) lines.
Proof.
  unfold Garden._make_cherry_flower. cbv zeta. intros E.
  destruct nt; unfold negb in E;
    undraw E petal Hp; undraw E center Hc; undraw E stem Hstem;
    returned E; rows_drawn.
Qed.

(** Opens the dispatch of [random_flower] and [random_tree]. *)
Ltac dispatched E :=
  repeat match type of E with
         | context [if str_eqb ?k ?s then _ else _] => destruct (str_eqb k s)
         end.

Ltac generated E L :=
  let l := fresh "l" in
  let g1 := fresh "g" in
  let E1 := fresh "E" in
  apply bind_inv in E; destruct E as (l & g1 & E1 & E);
  returned E; apply L in E1; exact E1.

Lemma fl_random_flower_drawn size (g : G) lines kind g' :
  Flowers.random_flower nt size g = Some (lines, kind, g') ->
  Forall (fun r => drawn r = true) lines.
Proof.
  unfold Flowers.random_flower. intros E. undraw E k Hk. dispatched E.
  - generated E fl_round_drawn.
  - generated E fl_star_drawn.
  - generated E fl_sunflower_drawn.
  - generated E fl_cherry_drawn.
  - generated E fl_tulip_drawn.
Qed.

Lemma gd_random_flower_drawn size (g : G) lines kind g' :
  Garden.random_flower nt size g = Some (lines, kind, g') ->
  Forall (fun r => drawn r = true) lines.
Proof.
  unfold Garden.random_flower. intros E. undraw E k Hk. dispatched E.
  - generated E gd_round_drawn.
  - generated E gd_star_drawn.
  - generated E gd_sunflower_drawn.
  - generated E gd_cherry_drawn.
  - generated E gd_tulip_drawn.
Qed.

Lemma pine_rows_drawn (s : Z) :
  Forall (fun r => drawn r = true)
    (flat_map (fun layer =>
       map (fun row => spaces (4 * s + 2 - row)
                       ++ str_mul (lit "^") (1 + 2 * row))
           (range 0 (1 + 2 * (layer + s))))
       (range 0 3)).
Proof.
  apply Forall_forall. intros r Hr. apply in_flat_map in Hr.
  destruct Hr as (layer & _ & Hr). apply in_map_iff in Hr.
  destruct Hr as (row & <- & _). auto with drawn.
Qed.

Lemma fl_pine_drawn size :
  Forall (fun r => drawn r = true) (Flowers._make_pine_tree size).
Proof.
  unfold Flowers._make_pine_tree. cbv zeta.
  apply Forall_app. split; [apply pine_rows_drawn|].
  apply Forall_repeat. auto with drawn.
Qed.

Lemma gd_pine_drawn size :
  Forall (fun r => drawn r = true) (Garden._make_pine_tree size).
Proof.
  unfold Garden._make_pine_tree. cbv zeta.
  apply Forall_app. split; [apply pine_rows_drawn|].
  apply Forall_repeat. auto with drawn.
Qed.

Lemma canopy_rows_drawn (cell : Z -> Z -> str) (ys xs : list Z) :
  (forall y x, drawn (cell y x) = true) ->
  Forall (fun r => drawn r = true)
    (map (fun y => rstrip (concat (map (cell y) xs))) ys).
Proof.
  intros Hcell. apply Forall_forall. intros r Hr. apply in_map_iff in Hr.
  destruct Hr as (y & <- & _). apply drawn_rstrip, drawn_concat.
  apply Forall_forall. intros c Hc. apply in_map_iff in Hc.
  destruct Hc as (x & <- & _). apply Hcell.
Qed.

Lemma fl_broad_cell_drawn radius y x :
  drawn (Flowers.broad_cell radius (lit "#") y x) = true.
Proof.
  unfold Flowers.broad_cell. cbv zeta.
  match goal with |- context [if ?b then _ else _] => destruct b end;
    reflexivity.
Qed.

Lemma gd_broad_cell_drawn radius y x :
  drawn (Garden.broad_cell radius (lit "#") y x) = true.
Proof.
  unfold Garden.broad_cell. cbv zeta.
  match goal with |- context [if ?b then _ else _] => destruct b end;
    reflexivity.
Qed.

Lemma fl_broad_drawn size lines :
  Flowers._make_broad_tree size = Some lines ->
  Forall (fun r => drawn r = true) lines.
Proof.
  unfold Flowers._make_broad_tree. cbv zeta.
  match goal with |- context [map ?f (range ?a ?b)] =>
    pose proof (canopy_rows_drawn (Flowers.broad_cell (2 + size) (lit "#"))
                  (range a b) (range (- 2 * (2 + size)) (2 * (2 + size) + 1))
                  (fl_broad_cell_drawn (2 + size))) as Hrows;
    destruct (map f (range a b)) as [|line0 rows]
  end; [discriminate|].
  intros E. injection E as <-. rows_drawn.
Qed.

Lemma gd_broad_drawn size lines :
  Garden._make_broad_tree size = Some lines ->
  Forall (fun r => drawn r = true) lines.
Proof.
  unfold Garden._make_broad_tree. cbv zeta.
  match goal with |- context [map ?f (range ?a ?b)] =>
    pose proof (canopy_rows_drawn (Garden.broad_cell (2 + size) (lit "#"))
                  (range a b) (range (- 2 * (2 + size)) (2 * (2 + size) + 1))
                  (gd_broad_cell_drawn (2 + size))) as Hrows;
    destruct (map f (range a b)) as [|line0 rows]
  end; [discriminate|].
  intros E. injection E as <-. rows_drawn.
Qed.

Lemma stylized_art_drawn :
  Forall (fun r => drawn r = true) Flowers.stylized_art.
Proof. unfold Flowers.stylized_art. repeat constructor. Qed.

Lemma fl_stylized_drawn size (g : G) lines g' :
  Flowers._make_stylized_tree size g = Some (lines, g') ->
  Forall (fun r => drawn r = true) lines.
Proof.
  unfold Flowers._make_stylized_tree. cbv zeta. intros E.
  undraw E rows Hrows. returned E.
  assert (Hd : Forall (fun r => drawn r = true) rows).
  { eapply mapM_Forall; [|exact Hrows]. intros r g1 b g2 Er.
    undraw Er pat Hp. undraw Er j Hj. returned Er. auto with drawn. }
  pose proof stylized_art_drawn as Hart.
  destruct (3 <=? Z.max 1 size); rows_drawn.
Qed.

Lemma replaced_rows_drawn (new : str) (lines : list str) :
  drawn new = true ->
  Forall (fun r => drawn r = true) lines ->
  Forall (fun r => drawn r = true) (map (replace_char 35%N new) lines).
Proof.
  intros Hn Hl. apply Forall_forall. intros r Hr. apply in_map_iff in Hr.
  destruct Hr as (row & <- & Hin). rewrite Forall_forall in Hl.
  apply drawn_replace_char; auto.
Qed.

Ltac lifted E L :=
  let l := fresh "l" in
  let g1 := fresh "g" in
  let E1 := fresh "E" in
  apply bind_inv in E; destruct E as (l & g1 & E1 & E);
  unfold lift in E1;
  match type of E1 with
  | match ?o with _ => _ end _ = _ =>
      let Eo := fresh "E" in
      destruct o eqn:Eo; [|discriminate];
      apply L in Eo; returned E1
  end.

Lemma fl_random_tree_drawn size (g : G) lines kind g' :
  Flowers.random_tree nt size g = Some (lines, kind, g') ->
  Forall (fun r => drawn r = true) lines.
Proof.
  unfold Flowers.random_tree. intros E. undraw E k Hk. dispatched E.
  - returned E. apply fl_pine_drawn.
  - lifted E fl_broad_drawn. returned E. assumption.
  - lifted E fl_broad_drawn. returned E.
    apply replaced_rows_drawn; [destruct nt; reflexivity|assumption].
  - generated E fl_stylized_drawn.
  - lifted E fl_broad_drawn. returned E. assumption.
Qed.

Lemma gd_random_tree_drawn size (g : G) lines kind g' :
  Garden.random_tree nt size g = Some (lines, kind, g') ->
  Forall (fun r => drawn r = true) lines.
Proof.
  unfold Garden.random_tree. intros E. undraw E k Hk. dispatched E.
  - returned E. apply gd_pine_drawn.
  - lifted E gd_broad_drawn. returned E. assumption.
  - lifted E gd_broad_drawn. returned E.
    apply replaced_rows_drawn; [destruct nt; reflexivity|assumption].
  - lifted E gd_broad_drawn. returned E. assumption.
Qed.

End Drawing.

(** X13.  Whatever [random_flower] and [random_tree] of either file
    return holds spaces and visible characters only: no escape character,
    no tab, no other white space.  On such a row [_strip_ansi] changes
    nothing, and the visible length is the length. *)
Theorem generators_draw_plain_rows :
  forall {G : Type} `{RandomSource G} (nt : bool) (size : Z) (g : G),
    1 <= size ->
    returns_drawn (Flowers.random_flower nt size) g
    /\ returns_drawn (Flowers.random_tree nt size) g
    /\ returns_drawn (Garden.random_flower nt size) g
    /\ returns_drawn (Garden.random_tree nt size) g.
Proof.
  intros G RS nt size g Hs.
  assert (Hrows : forall lines : list str,
             Forall (fun r => drawn r = true) lines ->
             Forall (fun row => drawn row = true /\ _visible_len row = len row)
                    lines).
  { intros lines Hl. eapply Forall_impl; [|exact Hl].
    intros row Hd. split; [exact Hd|].
    unfold _visible_len. now rewrite (drawn_plain row Hd). }
  split; [|split; [|split]].
  - destruct (fl_random_flower_grounded nt size g Hs)
      as (lines & kind & g' & E & _).
    exists lines, kind, g'. split; [exact E|].
    apply Hrows. eapply fl_random_flower_drawn; exact E.
  - destruct (fl_random_tree_grounded nt size g Hs)
      as (lines & kind & g' & E & _).
    exists lines, kind, g'. split; [exact E|].
    apply Hrows. eapply fl_random_tree_drawn; exact E.
  - destruct (gd_random_flower_grounded nt size g Hs)
      as (lines & kind & g' & E & _).
    exists lines, kind, g'. split; [exact E|].
    apply Hrows. eapply gd_random_flower_drawn; exact E.
  - destruct (gd_random_tree_grounded nt size g Hs)
      as (lines & kind & g' & E & _).
    exists lines, kind, g'. split; [exact E|].
    apply Hrows. eapply gd_random_tree_drawn; exact E.
Qed.

Lemma generators_draw_plain_rows_witness :
  1 <= 2
  /\ returns_drawn (Flowers.random_flower false 2) {| lcg_state := 7 |}
  /\ returns_drawn (Flowers.random_tree false 2) {| lcg_state := 7 |}
  /\ returns_drawn (Garden.random_flower false 2) {| lcg_state := 7 |}
  /\ returns_drawn (Garden.random_tree false 2) {| lcg_state := 7 |}.
Proof.
  assert (Hs : 1 <= 2) by lia.
  split; [exact Hs|].
  exact (generators_draw_plain_rows false 2 {| lcg_state := 7 |} Hs).
Defined.

(** ** Colour is an annotation of the text *)

Section Twins.
Context {G : Type} `{RandomSource G}.
Variable nt : bool.

Lemma fl_make_plant_twin gen category (g : G) p g' :
  (forall g0 lines kind g1,
      gen g0 = Some (lines, kind, g1) ->
      Forall (fun r => drawn r = true) lines) ->
  Flowers.make_plant gen category true g = Some (p, g') ->
  exists q, Flowers.make_plant gen category false g = Some (q, g')
            /\ Forall2 annotates p q.
Proof.
  intros Hgen E. unfold Flowers.make_plant in *.
  apply bind_inv in E. destruct E as (sub & g1 & Es & E).
  rewrite (bind_some _ _ _ _ _ Es). unfold with_seed in *.
  match type of E with
  | match ?r with _ => _ end = _ =>
      destruct r as [[p0 g2]|] eqn:Ec; [|discriminate]
  end.
  inversion E; subst. clear E.
  apply bind_inv in Ec. destruct Ec as ([lines kind] & g3 & Eg & Ec).
  rewrite (bind_some _ _ _ _ _ Eg). cbn [fst snd] in *.
  exists lines. split; [reflexivity|].
  eapply fl_colorize_lines_annotates; [|exact Ec].
  eapply Hgen. exact Eg.
Qed.

Lemma gd_make_plant_twin gen category (g : G) p g' :
  (forall g0 lines kind g1,
      gen g0 = Some (lines, kind, g1) ->
      Forall (fun r => drawn r = true) lines) ->
  Garden.make_plant gen category true g = Some (p, g') ->
  exists q, Garden.make_plant gen category false g = Some (q, g')
            /\ Forall2 annotates p q.
Proof.
  intros Hgen E. unfold Garden.make_plant in *.
  apply bind_inv in E. destruct E as (sub & g1 & Es & E).
  rewrite (bind_some _ _ _ _ _ Es). unfold with_seed in *.
  match type of E with
  | match ?r with _ => _ end = _ =>
      destruct r as [[p0 g2]|] eqn:Ec; [|discriminate]
  end.
  inversion E; subst. clear E.
  apply bind_inv in Ec. destruct Ec as ([lines kind] & g3 & Eg & Ec).
  rewrite (bind_some _ _ _ _ _ Eg). cbn [fst snd] in *.
  exists lines. split; [reflexivity|].
  eapply gd_colorize_lines_annotates; [|exact Ec].
  eapply Hgen. exact Eg.
Qed.

Lemma loop_twin (mk : bool -> M G (list str)) (turns : list Z) :
  (forall g p g', mk true g = Some (p, g') ->
                  exists q, mk false g = Some (q, g')
                            /\ Forall2 annotates p q) ->
  forall g ps g',
    mapM (fun _ => mk true) turns g = Some (ps, g') ->
    exists qs, mapM (fun _ => mk false) turns g = Some (qs, g')
               /\ Forall2 (Forall2 annotates) ps qs.
Proof.
  intros Hmk. induction turns as [|t turns IH]; intros g ps g' E;
    cbn [mapM] in *.
  - inversion E; subst. exists []. split; [reflexivity|constructor].
  - apply bind_inv in E. destruct E as (p & g1 & Ep & E).
    apply bind_inv in E. destruct E as (ps' & g2 & Eps & E).
    inversion E; subst. clear E.
    destruct (Hmk _ _ _ Ep) as (q & Eq & Hpq).
    destruct (IH _ _ _ Eps) as (qs & Eqs & Hps).
    exists (q :: qs).
    rewrite (bind_some _ _ _ _ _ Eq), (bind_some _ _ _ _ _ Eqs).
    split; [reflexivity|now constructor].
Qed.

Lemma fl_main_twin (env : Env) (args : Args) (out : str) :
  Flowers.main nt env (with_color args (lit "on")) = Some out ->
  exists out', Flowers.main nt env (with_color args (lit "off")) = Some out'
               /\ annotates out out'.
Proof.
  unfold Flowers.main, with_color.
  cbn [count size seed trees color layout cols auto_fit].
  change (str_eqb (lit "on") (lit "on")) with true.
  change (str_eqb (lit "off") (lit "on")) with false.
  change (str_eqb (lit "off") (lit "off")) with true.
  cbv iota zeta. intros E.
  match type of E with
  | match ?r with _ => _ end = _ =>
      destruct r as [[plants g']|] eqn:Eg; [|discriminate]
  end.
  apply bind_inv in Eg. destruct Eg as (fs & g1 & Ef & Eg).
  apply bind_inv in Eg. destruct Eg as (ts & g2 & Et & Eg).
  inversion Eg; subst. clear Eg.
  apply (loop_twin (Flowers.make_plant (Flowers.random_flower nt (size args))
                      (lit "flower_"))) in Ef.
  2:{ intros g p g3. apply fl_make_plant_twin.
      intros g0 lines kind g4. apply fl_random_flower_drawn. }
  apply (loop_twin (Flowers.make_plant (Flowers.random_tree nt (size args))
                      (lit "tree_"))) in Et.
  2:{ intros g p g3. apply fl_make_plant_twin.
      intros g0 lines kind g4. apply fl_random_tree_drawn. }
  destruct Ef as (fs' & Ef & Hf). destruct Et as (ts' & Et & Ht).
  rewrite (bind_some _ _ _ _ _ Ef), (bind_some _ _ _ _ _ Et). cbn [ret].
  eapply fl_print_garden_twin; [|exact E].
  now apply Forall2_app.
Qed.

Lemma gd_main_twin (env : Env) (args : Args) (out : str) :
  Garden.main nt env (with_color args (lit "on")) = Some out ->
  exists out', Garden.main nt env (with_color args (lit "off")) = Some out'
               /\ annotates out out'.
Proof.
  unfold Garden.main, with_color.
  cbn [count size seed trees color layout cols auto_fit].
  change (str_eqb (lit "on") (lit "on")) with true.
  change (str_eqb (lit "off") (lit "on")) with false.
  change (str_eqb (lit "off") (lit "off")) with true.
  cbv iota zeta. intros E.
  match type of E with
  | match ?r with _ => _ end = _ =>
      destruct r as [[plants g']|] eqn:Eg; [|discriminate]
  end.
  apply bind_inv in Eg. destruct Eg as (fs & g1 & Ef & Eg).
  apply bind_inv in Eg. destruct Eg as (ts & g2 & Et & Eg).
  inversion Eg; subst. clear Eg.
  apply (loop_twin (Garden.make_plant (Garden.random_flower nt (size args))
                      (lit "flower_"))) in Ef.
  2:{ intros g p g3. apply gd_make_plant_twin.
      intros g0 lines kind g4. apply gd_random_flower_drawn. }
  apply (loop_twin (Garden.make_plant (Garden.random_tree nt (size args))
                      (lit "tree_"))) in Et.
  2:{ intros g p g3. apply gd_make_plant_twin.
      intros g0 lines kind g4. apply gd_random_tree_drawn. }
  destruct Ef as (fs' & Ef & Hf). destruct Et as (ts' & Et & Ht).
  rewrite (bind_some _ _ _ _ _ Ef), (bind_some _ _ _ _ _ Et). cbn [ret].
  eapply gd_print_garden_twin; [|exact E].
  now apply Forall2_app.
Qed.

End Twins.

(** X14.  Colour changes nothing but the escape sequences of the text: a
    run with [--color on] writes the text of the same run with
    [--color off] in which runs of visible characters are enclosed in a
    colour code and the reset code.  Stripping the coloured text gives the
    plain one: the same plants, the same columns, the same line breaks.
    The plain text holds no escape character.  [--color auto] is [on] on
    a terminal and [off] elsewhere. *)
Theorem color_only_annotates :
  forall {G : Type} `{RandomSource G} (nt : bool) (env : Env) (args : Args),
    1 <= size args ->
    (exists out,
        Flowers.main nt env (with_color args (lit "on")) = Some out
        /\ Flowers.main nt env (with_color args (lit "off"))
           = Some (_strip_ansi out)
        /\ annotates out (_strip_ansi out)
        /\ ~ In ESC (_strip_ansi out))
    /\ (exists out,
           Garden.main nt env (with_color args (lit "on")) = Some out
           /\ Garden.main nt env (with_color args (lit "off"))
              = Some (_strip_ansi out)
           /\ annotates out (_strip_ansi out)
           /\ ~ In ESC (_strip_ansi out))
    /\ Flowers.main nt env (with_color args (lit "auto"))
       = Flowers.main nt env
           (with_color args
              (if stdout_isatty env then lit "on" else lit "off"))
    /\ Garden.main nt env (with_color args (lit "auto"))
       = Garden.main nt env
           (with_color args
              (if stdout_isatty env then lit "on" else lit "off")).
Proof.
  intros G RS nt env args Hsize.
  split; [|split; [|split]].
  - destruct (fl_main_total nt env (with_color args (lit "on")) Hsize)
      as (out & E).
    destruct (fl_main_twin nt env args out E) as (out' & E' & Ha).
    exists out. rewrite (annotates_strip out out' Ha).
    split; [exact E|split; [exact E'|split; [exact Ha|]]].
    now apply (annotates_plain out out').
  - destruct (gd_main_total nt env (with_color args (lit "on")) Hsize)
      as (out & E).
    destruct (gd_main_twin nt env args out E) as (out' & E' & Ha).
    exists out. rewrite (annotates_strip out out' Ha).
    split; [exact E|split; [exact E'|split; [exact Ha|]]].
    now apply (annotates_plain out out').
  - unfold Flowers.main. destruct (stdout_isatty env); reflexivity.
  - unfold Garden.main. destruct (stdout_isatty env); reflexivity.
Qed.

Lemma color_only_annotates_witness :
  1 <= size demo_args
  /\ (exists out,
         Flowers.main (G := Lcg) false pipe_env
           (with_color demo_args (lit "on")) = Some out
         /\ Flowers.main (G := Lcg) false pipe_env
              (with_color demo_args (lit "off")) = Some (_strip_ansi out)
         /\ annotates out (_strip_ansi out)
         /\ ~ In ESC (_strip_ansi out)).
Proof.
  assert (Hs : 1 <= size demo_args) by (cbn; lia).
  split; [exact Hs|].
  exact (proj1 (color_only_annotates (G := Lcg) false pipe_env demo_args Hs)).
Defined.

(** ** How wide the horizontal layout is *)

Lemma len_app {A} (a b : list A) : len (a ++ b) = len a + len b.
Proof. unfold len. rewrite length_app. lia. Qed.

Lemma len_spaces (n : Z) : len (spaces n) = Z.max 0 n.
Proof. unfold len. rewrite spaces_length. lia. Qed.

Lemma rstrip_len_le (s : str) : len (rstrip s) <= len s.
Proof.
  unfold len. induction s as [|c t IH]; [reflexivity|].
  cbn [rstrip]. destruct (rstrip t) as [|c' t'].
  - destruct (isspace c); cbn [length] in *; lia.
  - cbn [length] in *. lia.
Qed.

Lemma join_len_le (sep : str) (parts : list str) (W : Z) :
  0 <= W ->
  (forall x, In x parts -> len x <= W) ->
  parts <> [] ->
  len (join sep parts) <= len parts * W + (len parts - 1) * len sep.
Proof.
  intros HW Hx Hne. induction parts as [|p [|q ps] IH]; [congruence| |].
  - cbn [join]. specialize (Hx p (or_introl eq_refl)).
    unfold len in *. cbn [length] in *. lia.
  - change (join sep (p :: q :: ps)) with (p ++ sep ++ join sep (q :: ps)).
    rewrite !len_app.
    assert (Hp : len p <= W) by (apply Hx; now left).
    assert (IH' : len (join sep (q :: ps))
                  <= len (q :: ps) * W + (len (q :: ps) - 1) * len sep).
    { apply IH; [|discriminate]. intros x Hin. apply Hx. now right. }
    replace (len (p :: q :: ps)) with (len (q :: ps) + 1)
      by (unfold len; cbn [length]; lia).
    assert (0 <= len sep) by (unfold len; lia).
    unfold str, char in *. nia.
Qed.

Lemma plain_visible_len (ln : str) : ~ In ESC ln -> _visible_len ln = len ln.
Proof.
  intros Hno. unfold _visible_len.
  now rewrite (esc_free_plain ln Hno).
Qed.

Lemma visible_len_le_len (s : str) : _visible_len s <= len s.
Proof.
  unfold _visible_len, len, _strip_ansi.
  pose proof (strip_from_length s 0). lia.
Qed.

Lemma plant_width_nonneg (p : list str) : 0 <= Flowers.plant_width p.
Proof.
  unfold Flowers.plant_width. apply max_default_nonneg.
  apply Forall_forall. intros x Hx. apply in_map_iff in Hx.
  destruct Hx as (ln & <- & _). unfold _visible_len, len. lia.
Qed.

Lemma rpad_len (p : list str) (ln : str) :
  ~ In ESC ln -> In ln p ->
  len (ln ++ spaces (Flowers.plant_width p - _visible_len ln))
  = Flowers.plant_width p.
Proof.
  intros Hno Hin. pose proof (visible_len_le_width p ln Hin) as Hle.
  rewrite len_app, len_spaces. rewrite (plain_visible_len ln Hno) in *. lia.
Qed.

Lemma fl_pad_plant_cells (h : Z) (p : list str) (cell : str) :
  Forall (fun r => ~ In ESC r) p ->
  In cell (Flowers.pad_plant h p (Flowers.plant_width p)) ->
  len cell <= Flowers.plant_width p.
Proof.
  intros Hp Hin. pose proof (plant_width_nonneg p) as Hw.
  unfold Flowers.pad_plant in Hin. cbv zeta in Hin.
  apply in_app_or in Hin. destruct Hin as [Hin|Hin].
  - apply repeat_spec in Hin. subst cell. rewrite len_spaces. lia.
  - apply in_map_iff in Hin. destruct Hin as (ln & <- & Hln).
    rewrite Forall_forall in Hp. rewrite rpad_len; auto. lia.
Qed.

Lemma gd_pad_plant_cells (h : Z) (p : list str) (cell : str) :
  Forall (fun r => ~ In ESC r) p ->
  In cell (Garden.pad_plant h p (Flowers.plant_width p)) ->
  len cell <= Flowers.plant_width p.
Proof.
  intros Hp Hin. pose proof (plant_width_nonneg p) as Hw.
  unfold Garden.pad_plant in Hin. cbv zeta in Hin.
  apply in_app_or in Hin. destruct Hin as [Hin|Hin].
  - apply in_map_iff in Hin. destruct Hin as (ln & <- & Hln).
    rewrite Forall_forall in Hp. rewrite rpad_len; auto. lia.
  - apply repeat_spec in Hin. subst cell. rewrite len_spaces. lia.
Qed.

Lemma twin_plain (plants plants' : list (list str)) :
  Forall2 (Forall2 annotates) plants plants' ->
  Forall (Forall (fun r => ~ In ESC r)) plants'.
Proof.
  induction 1 as [|p q ps qs Hpq _ IH]; constructor; [|exact IH].
  clear IH. induction Hpq as [|on off p q Ha _ IH]; constructor; [|exact IH].
  now apply annotates_plain in Ha.
Qed.

Lemma twin_lines_width (B : Z) (lines lines' : list str) :
  Forall2 annotates lines lines' ->
  Forall (fun ln => len ln <= B) lines' ->
  Forall (fun ln => _visible_len ln <= B) lines.
Proof.
  induction 1 as [|on off lines lines' Ha _ IH]; intros Hl; constructor.
  - inversion Hl; subst.
    rewrite (annotates_visible_len on off Ha).
    pose proof (visible_len_le_len off). lia.
  - apply IH. now inversion Hl.
Qed.

Section PaddedWidth.
Variable pad : Z -> list str -> Z -> list str.
Hypothesis pad_cells :
  forall (h : Z) (p : list str) (cell : str),
    Forall (fun r => ~ In ESC r) p ->
    In cell (pad h p (Flowers.plant_width p)) ->
    len cell <= Flowers.plant_width p.

Lemma layout_row_width (gap W : Z) (row : list (list str)) :
  0 <= gap -> 0 <= W -> row <> [] ->
  Forall (Forall (fun r => ~ In ESC r)) row ->
  (forall p, In p row -> Flowers.plant_width p <= W) ->
  Forall (fun ln => len ln <= len row * W + (len row - 1) * gap)
         (layout_row pad gap row).
Proof.
  intros Hgap HW Hne Hplain Hw.
  assert (Hn : 1 <= len row)
    by (destruct row; [congruence|unfold len; cbn [length]; lia]).
  unfold layout_row. cbv zeta. apply Forall_app. split.
  2:{ constructor; [|constructor]. unfold len at 1. cbn [length]. nia. }
  apply Forall_forall. intros ln Hln. apply in_map_iff in Hln.
  destruct Hln as (r & <- & _).
  etransitivity; [apply rstrip_len_le|].
  rewrite combine_map_r, !map_map. cbn [fst snd].
  match goal with |- len (join _ (map ?f row)) <= _ =>
    pose proof (join_len_le (spaces gap) (map f row) W HW) as Hj
  end.
  rewrite len_spaces in Hj. replace (Z.max 0 gap) with gap in Hj by lia.
  unfold len in Hj |- *. rewrite length_map in Hj.
  apply Hj.
  - intros x Hx. apply in_map_iff in Hx. destruct Hx as (p & <- & Hp).
    change (max_default 0 (map _visible_len p)) with (Flowers.plant_width p).
    specialize (Hw p Hp). pose proof (plant_width_nonneg p) as Hp0.
    rewrite Forall_forall in Hplain. specialize (Hplain p Hp).
    match goal with |- context [nth ?k ?blk []] =>
      destruct (nth_in_or_default k blk []) as [Hin|Hd]
    end.
    + pose proof (pad_cells _ p _ Hplain Hin) as Hc. unfold len in Hc.
      etransitivity; [exact Hc|exact Hw].
    + apply Z.le_trans with 0; [|lia]. apply Z.eq_le_incl.
      exact (f_equal (fun l : str => Z.of_nat (length l)) Hd).
  - destruct row; [congruence|discriminate].
Qed.

Lemma layout_rows_width (gap cols : Z) (plants : list (list str)) :
  0 <= gap ->
  Forall (Forall (fun r => ~ In ESC r)) plants ->
  let c := Z.max 1 cols in
  let W := max_default 0 (map Flowers.plant_width plants) in
  Forall (fun ln => len ln <= c * W + (c - 1) * gap)
         (flat_map (layout_row pad gap) (row_groups plants cols)).
Proof.
  intros Hgap Hplain c W.
  assert (HW : 0 <= W).
  { apply max_default_nonneg, Forall_forall. intros x Hx.
    apply in_map_iff in Hx. destruct Hx as (p & <- & _).
    apply plant_width_nonneg. }
  apply Forall_forall. intros ln Hln. apply in_flat_map in Hln.
  destruct Hln as (row & Hrow & Hln).
  pose proof (row_groups_sizes plants cols) as Hsz.
  rewrite Forall_forall in Hsz. specialize (Hsz row Hrow). cbv beta in Hsz.
  assert (Hsub : forall p, In p row -> In p plants).
  { intros p Hp. rewrite <- (row_groups_concat plants cols).
    apply in_concat. exists row. split; assumption. }
  assert (Hb : len ln <= len row * W + (len row - 1) * gap).
  { assert (Hl : Forall (fun ln => len ln
                                    <= len row * W + (len row - 1) * gap)
                         (layout_row pad gap row)).
    { apply layout_row_width; [exact Hgap|exact HW| | |].
      - intros ->. unfold len in Hsz. cbn [length] in Hsz. lia.
      - apply Forall_forall. intros p Hp. rewrite Forall_forall in Hplain.
        apply Hplain. now apply Hsub.
      - intros p Hp. apply max_default_ge. apply in_map. now apply Hsub. }
    rewrite Forall_forall in Hl. now apply Hl. }
  fold c in Hsz. nia.
Qed.

Hypothesis pad_twin :
  forall (h w : Z) (p q : list str),
    Forall2 annotates p q -> Forall2 annotates (pad h p w) (pad h q w).

Lemma twin_layout_width (gap cols : Z) (plants plants' : list (list str)) :
  Forall2 (Forall2 annotates) plants plants' ->
  0 <= gap ->
  let c := Z.max 1 cols in
  let W := max_default 0 (map Flowers.plant_width plants) in
  Forall (fun ln => _visible_len ln <= c * W + (c - 1) * gap)
         (flat_map (layout_row pad gap) (row_groups plants cols)).
Proof.
  intros Htw Hgap c W.
  unfold W. rewrite (twin_widths plants plants' Htw).
  eapply twin_lines_width.
  - apply (layout_rows_twin pad pad_twin). exact Htw.
  - apply layout_rows_width; [exact Hgap|].
    now apply (twin_plain plants plants').
Qed.

End PaddedWidth.

(** X15.  No line of the horizontal layout is wider than its columns
    allow: for plants as [colorize_lines] returns them (plain rows, or
    rows whose visible characters are wrapped in colour codes) and a gap
    of 0 or more, every line of [render_horizontal] of either file shows at
    most [c * W + (c - 1) * gap] characters, [c] being [max(1, cols)] and
    [W] the width of the widest plant.  Escape sequences do not count. *)
Theorem render_horizontal_line_width :
  forall (plants plain_plants : list (list str)) (cols gap : Z),
    Forall2 (Forall2 annotates) plants plain_plants ->
    0 <= gap ->
    let c := Z.max 1 cols in
    let W := max_default 0 (map Flowers.plant_width plants) in
    Forall (fun ln => _visible_len ln <= c * W + (c - 1) * gap)
           (Flowers.render_horizontal plants cols gap)
    /\ Forall (fun ln => _visible_len ln <= c * W + (c - 1) * gap)
              (Garden.render_horizontal plants cols gap).
Proof.
  intros plants plants' cols gap Htw Hgap c W.
  rewrite fl_render_horizontal_flat, gd_render_horizontal_flat. split.
  - apply (twin_layout_width Flowers.pad_plant fl_pad_plant_cells
             fl_pad_plant_twin gap cols plants plants' Htw Hgap).
  - apply (twin_layout_width Garden.pad_plant gd_pad_plant_cells
             gd_pad_plant_twin gap cols plants plants' Htw Hgap).
Qed.

Lemma render_horizontal_line_width_witness :
  Forall2 (Forall2 annotates)
    [[_color_wrap (lit "@") (lit "red") true; lit " |"]; [lit "##"]]
    [[lit "@"; lit " |"]; [lit "##"]]
  /\ 0 <= 3
  /\ Forall (fun ln => _visible_len ln <= 2 * 2 + (2 - 1) * 3)
       (Flowers.render_horizontal
          [[_color_wrap (lit "@") (lit "red") true; lit " |"]; [lit "##"]]
          2 3).
Proof.
  assert (Htw : Forall2 (Forall2 annotates)
            [[_color_wrap (lit "@") (lit "red") true; lit " |"]; [lit "##"]]
            [[lit "@"; lit " |"]; [lit "##"]]).
  { repeat constructor; try discriminate.
    apply (annotates_wrap (lit "red") (lit "@") [] []);
      [discriminate|reflexivity|constructor]. }
  assert (Hgap : 0 <= 3) by lia.
  split; [exact Htw|split; [exact Hgap|]].
  exact (proj1 (render_horizontal_line_width _ _ 2 3 Htw Hgap)).
Defined.

Lemma max_default_any (d d' : Z) (l : list Z) :
  l <> [] -> max_default d l = max_default d' l.
Proof. destruct l; [congruence|reflexivity]. Qed.

(** X16.  What auto-fit guarantees.  The column count is computed for a
    separation of [gap] and the layout is then drawn with [gap * 2]: a
    line of the auto-fit layout shows at most [max(W, T + (fit - 1) * gap)]
    characters, [T] being the terminal width, [W] the width of the widest
    plant and [fit] the column count.  With one column the line is as wide
    as the plant; with more it may pass the terminal width by [gap] for
    every column after the first. *)
Theorem auto_fit_line_width :
  forall (env : Env) (plants plain_plants : list (list str)) (gap : Z),
    Forall2 (Forall2 annotates) plants plain_plants ->
    0 < gap ->
    let W := max_default 1 (map Flowers.plant_width plants) in
    let T := get_terminal_columns env in
    let fit := Z.max 1 ((T + gap) / (W + gap)) in
    Flowers.auto_fit_cols env plants gap = Some fit
    /\ Garden.auto_fit_cols env plants gap = Some fit
    /\ Forall (fun ln => _visible_len ln <= Z.max W (T + (fit - 1) * gap))
              (Flowers.render_horizontal plants fit (gap * 2))
    /\ Forall (fun ln => _visible_len ln <= Z.max W (T + (fit - 1) * gap))
              (Garden.render_horizontal plants fit (gap * 2)).
Proof.
  intros env plants plants' gap Htw Hgap W T fit.
  pose proof (auto_fit_divisor_positive plants gap Hgap) as Hpos.
  fold W in Hpos.
  assert (Hfit : Flowers.auto_fit_cols env plants gap = Some fit).
  { unfold Flowers.auto_fit_cols. cbv zeta. fold W.
    destruct (Z.eqb_spec (W + gap) 0); [lia|reflexivity]. }
  split; [exact Hfit|split; [exact Hfit|]].
  destruct plants as [|p ps].
  { rewrite fl_render_horizontal_nil, gd_render_horizontal_nil.
    split; constructor. }
  assert (Hgap2 : 0 <= gap * 2) by lia.
  pose proof (twin_layout_width Flowers.pad_plant fl_pad_plant_cells
                fl_pad_plant_twin (gap * 2) fit (p :: ps) plants' Htw Hgap2)
    as Hf.
  pose proof (twin_layout_width Garden.pad_plant gd_pad_plant_cells
                gd_pad_plant_twin (gap * 2) fit (p :: ps) plants' Htw Hgap2)
    as Hg.
  cbv zeta in Hf, Hg.
  rewrite <- fl_render_horizontal_flat in Hf.
  rewrite <- gd_render_horizontal_flat in Hg.
  rewrite (max_default_any 0 1) in Hf, Hg by discriminate.
  fold W in Hf, Hg.
  assert (Hb : Z.max 1 fit * W + (Z.max 1 fit - 1) * (gap * 2)
               <= Z.max W (T + (fit - 1) * gap)).
  { assert (HW : 0 <= W).
    { unfold W. rewrite (max_default_any 1 0) by discriminate.
      apply max_default_nonneg, Forall_forall. intros x Hx.
      apply in_map_iff in Hx. destruct Hx as (q & <- & _).
      apply plant_width_nonneg. }
    replace (Z.max 1 fit) with fit by (unfold fit; lia).
    pose proof (Z.mul_div_le (T + gap) (W + gap) Hpos) as Hq.
    unfold fit. destruct (Z.max_spec 1 ((T + gap) / (W + gap)))
      as [[Hlt ->]|[Hge ->]]; nia. }
  split; eapply Forall_impl; try eassumption; cbv beta; intros ln Hln; lia.
Qed.

Lemma auto_fit_line_width_witness :
  Forall2 (Forall2 annotates) [[lit "##"]; [lit "#"; lit "|"]]
                              [[lit "##"]; [lit "#"; lit "|"]]
  /\ 0 < 1
  /\ Flowers.auto_fit_cols tty_env [[lit "##"]; [lit "#"; lit "|"]] 1
     = Some 40.
Proof.
  assert (Htw : Forall2 (Forall2 annotates) [[lit "##"]; [lit "#"; lit "|"]]
                                            [[lit "##"]; [lit "#"; lit "|"]])
    by (repeat constructor; discriminate).
  assert (Hgap : 0 < 1) by lia.
  split; [exact Htw|split; [exact Hgap|]].
  exact (proj1 (auto_fit_line_width tty_env _ _ 1 Htw Hgap)).
Defined.

(** ** Auto-fit can pass the terminal width *)

Lemma hashes_glyphs (w : Z) : forallb glyph (str_mul (lit "#") w) = true.
Proof.
  change (lit "#") with [35%N]. rewrite str_mul_char.
  induction (Z.to_nat w) as [|k IH]; [reflexivity|].
  cbn [repeat forallb]. now rewrite IH.
Qed.

Lemma glyphs_no_ESC (text : str) : forallb glyph text = true -> ~ In ESC text.
Proof.
  intros Ht Hin. rewrite forallb_forall in Ht.
  specialize (Ht ESC Hin). discriminate.
Qed.

Lemma hashes_len (w : Z) : 0 <= w -> len (str_mul (lit "#") w) = w.
Proof.
  intros Hw. change (lit "#") with [35%N]. rewrite str_mul_char.
  unfold len. rewrite repeat_length. lia.
Qed.

Lemma fl_two_plants_row (x : str) (gap : Z) :
  Flowers.render_row gap [[x]; [x]]
  = [rstrip ((x ++ spaces (_visible_len x - _visible_len x))
             ++ spaces gap
             ++ (x ++ spaces (_visible_len x - _visible_len x))); []].
Proof. reflexivity. Qed.

Lemma gd_two_plants_row (x : str) (gap : Z) :
  Garden.render_row gap [[x]; [x]]
  = [rstrip ((x ++ spaces (_visible_len x - _visible_len x))
             ++ spaces gap
             ++ (x ++ spaces (_visible_len x - _visible_len x))); []].
Proof. reflexivity. Qed.

Lemma two_plants_line (x : str) :
  x <> [] -> forallb glyph x = true ->
  rstrip ((x ++ spaces (_visible_len x - _visible_len x))
          ++ spaces (1 * 2)
          ++ (x ++ spaces (_visible_len x - _visible_len x)))
  = x ++ lit "  " ++ x.
Proof.
  intros Hne Hx. rewrite Z.sub_diag.
  change (spaces 0) with (@nil char). rewrite !app_nil_r.
  change (spaces (1 * 2)) with (lit "  ").
  rewrite app_assoc. rewrite rstrip_app_nonblank.
  - now rewrite (rstrip_glyphs x Hx), <- app_assoc.
  - now rewrite (rstrip_glyphs x Hx).
Qed.

(** X17.  The auto-fit layout can be wider than the terminal.  Two plants
    of one row of [w] characters on a terminal of [2 * w + 1] columns: the
    column count is 2, computed for one space between the plants, and the
    line is drawn with two, so it shows [2 * w + 2] characters.  In both
    files, for every [w] of at least 1. *)
Theorem auto_fit_overflows_terminal :
  forall (w cols : Z) (env : Env),
    1 <= w ->
    terminal_columns env = Some (2 * w + 1) ->
    let x := str_mul (lit "#") w in
    Flowers.print_garden env [[x]; [x]] (lit "horizontal") cols 1 true
    = Some (x ++ lit "  " ++ x ++ [NL; NL])
    /\ Garden.print_garden env [[x]; [x]] (lit "horizontal") cols 1 true
       = Some (x ++ lit "  " ++ x ++ [NL; NL])
    /\ _visible_len (x ++ lit "  " ++ x) = get_terminal_columns env + 1.
Proof.
  intros w cols env Hw Hterm x.
  pose proof (hashes_glyphs w) as Hx. fold x in Hx.
  pose proof (hashes_len w ltac:(lia)) as Hlen. fold x in Hlen.
  assert (Hne : x <> []).
  { intros E. rewrite E in Hlen. unfold len in Hlen. cbn in Hlen. lia. }
  assert (Hvis : _visible_len x = w)
    by (rewrite plain_visible_len; [exact Hlen|now apply glyphs_no_ESC]).
  assert (Hnz : (2 * w + 1 =? 0) = false) by (apply Z.eqb_neq; lia).
  assert (Hfit : Flowers.auto_fit_cols env [[x]; [x]] 1 = Some 2).
  { unfold Flowers.auto_fit_cols, get_terminal_columns, Flowers.plant_width.
    rewrite Hterm, Hnz. cbn [map max_default fold_left]. rewrite Hvis.
    replace (Z.max w w) with w by lia.
    replace ((2 * w + 1 + 1) / (w + 1)) with 2
      by (apply Z.div_unique with 0; lia).
    destruct (Z.eqb_spec (w + 1) 0); [lia|reflexivity]. }
  assert (Hline : forall y : str,
             join [NL] [y; []] ++ [NL] = y ++ [NL; NL]).
  { intros y. cbn [join]. rewrite app_nil_r, <- app_assoc. reflexivity. }
  split; [|split].
  - unfold Flowers.print_garden.
    change (str_eqb (lit "horizontal") (lit "horizontal")) with true.
    cbv iota. rewrite Hfit. cbv zeta.
    rewrite fl_render_horizontal_flat.
    change (row_groups [[x]; [x]] 2) with [[[x]; [x]]].
    cbn [flat_map]. rewrite app_nil_r, fl_two_plants_row.
    rewrite (two_plants_line x Hne Hx), Hline.
    now rewrite <- !app_assoc.
  - unfold Garden.print_garden.
    change (Garden.auto_fit_cols env [[x]; [x]] 1)
      with (Flowers.auto_fit_cols env [[x]; [x]] 1).
    change (str_eqb (lit "horizontal") (lit "horizontal")) with true.
    cbv iota. rewrite Hfit. cbv zeta.
    rewrite gd_render_horizontal_flat.
    change (row_groups [[x]; [x]] 2) with [[[x]; [x]]].
    cbn [flat_map]. rewrite app_nil_r, gd_two_plants_row.
    rewrite (two_plants_line x Hne Hx), Hline.
    now rewrite <- !app_assoc.
  - unfold get_terminal_columns. rewrite Hterm, Hnz.
    rewrite plain_visible_len.
    + rewrite !len_app. change (len (lit "  ")) with 2.
      unfold str, char in *. lia.
    + intros Hin. apply in_app_or in Hin. destruct Hin as [Hin|Hin];
        [now apply (glyphs_no_ESC x Hx)|].
      apply in_app_or in Hin. destruct Hin as [Hin|Hin];
        [|now apply (glyphs_no_ESC x Hx)].
      cbn in Hin. destruct Hin as [E|[E|[]]]; discriminate.
Qed.

Lemma auto_fit_overflows_terminal_witness :
  1 <= 3
  /\ terminal_columns
       {| stdout_isatty := true; terminal_columns := Some (2 * 3 + 1);
          entropy := 0 |} = Some (2 * 3 + 1)
  /\ Flowers.print_garden
       {| stdout_isatty := true; terminal_columns := Some (2 * 3 + 1);
          entropy := 0 |}
       [[str_mul (lit "#") 3]; [str_mul (lit "#") 3]] (lit "horizontal") 5 1
       true
     = Some (str_mul (lit "#") 3 ++ lit "  " ++ str_mul (lit "#") 3
             ++ [NL; NL]).
Proof.
  assert (Hw : 1 <= 3) by lia.
  assert (Ht : terminal_columns
                 {| stdout_isatty := true; terminal_columns := Some (2 * 3 + 1);
                    entropy := 0 |} = Some (2 * 3 + 1)) by reflexivity.
  split; [exact Hw|split; [exact Ht|]].
  exact (proj1 (auto_fit_overflows_terminal 3 5 _ Hw Ht)).
Defined.

(** ** The size of a flower *)

Lemma len_str_mul (s : str) (n : Z) : len (str_mul s n) = len s * Z.max 0 n.
Proof.
  unfold str_mul, len.
  replace (Z.max 0 n) with (Z.of_nat (Z.to_nat n)) by lia.
  induction (Z.to_nat n) as [|k IH]; cbn [repeat concat length]; [lia|].
  rewrite length_app. unfold str, char in *. lia.
Qed.

Lemma len_concat_units (row : list str) :
  Forall (fun c => len c = 1) row -> len (concat row) = len row.
Proof.
  unfold len. induction 1 as [|c row Hc _ IH]; [reflexivity|].
  cbn [concat length]. rewrite length_app. unfold str, char in *. lia.
Qed.

Section Measuring.
Context {G : Type} `{RandomSource G}.
Variable nt : bool.

Lemma randint_range (a b : Z) (g : G) k g' :
  randint a b g = Some (k, g') -> a <= k <= b.
Proof.
  unfold randint. destruct (Z.ltb_spec b a); [discriminate|].
  pose proof (rs_randbelow_range g (b - a + 1) ltac:(lia)) as Hr.
  destruct (rs_randbelow g (b - a + 1)) as [i g1]. cbn [fst] in Hr.
  intros E. inversion E; subst. lia.
Qed.

Lemma mapM_length {A B} (f : A -> M G B) (l : list A) (g : G) bs g' :
  mapM f l g = Some (bs, g') -> length bs = length l.
Proof.
  intros E. symmetry.
  apply (Forall2_length (R := fun _ _ => True)).
  eapply mapM_inv; [|exact E]. auto.
Qed.

(** Opens the next draw of a computation known to return, with what is
    known of the value drawn. *)
Ltac drawn_from E x Hx :=
  let g1 := fresh "g" in
  let E1 := fresh "E" in
  apply bind_inv in E; destruct E as (x & g1 & E1 & E);
  first [apply choice_In in E1|apply randint_range in E1|idtac];
  rename E1 into Hx; cbv beta in E.

Ltac result_of E :=
  first [apply ret_pair_inv in E|apply ret_inv in E]; subst.

(** The length of a glyph drawn from a list of glyphs. *)
Ltac one_char Hx :=
  match type of Hx with
  | In ?x _ =>
      let L := fresh "L" in
      assert (L : len x = 1)
        by (clear - Hx; repeat (destruct Hx as [<-|Hx]; [reflexivity|]);
            destruct Hx)
  end.

Ltac two_chars Hx :=
  match type of Hx with
  | In ?x _ =>
      let L := fresh "L" in
      assert (L : len x = 2)
        by (clear - Hx; repeat (destruct Hx as [<-|Hx]; [reflexivity|]);
            destruct Hx)
  end.

Ltac row_len :=
  rewrite ?len_app, ?len_spaces, ?len_str_mul;
  try change (len (lit " ")) with 1;
  try change (len Flowers.STEM_CHAR) with 1;
  unfold str, char in *; nia.

Ltac boxed :=
  unfold in_box; split;
  [ unfold len; rewrite ?length_app, ?repeat_length; cbn [length]; lia
  | repeat first [ apply Forall_app_intro
                 | apply Forall_nil
                 | apply Forall_cons
                 | apply Forall_repeat ];
    row_len ].

Lemma fl_round_cell_len radius petal center y x (g : G) cell g' :
  len petal = 1 -> len center = 1 ->
  Flowers.round_cell radius petal center y x g = Some (cell, g') ->
  len cell = 1.
Proof.
  intros Hp Hc. unfold Flowers.round_cell, bind, random.
  destruct (rs_random g) as [r g1].
  repeat match goal with |- context [if ?b then _ else _] => destruct b end;
    intros E; inversion E; subst; auto.
Qed.

Lemma gd_round_cell_len radius petal center y x (g : G) cell g' :
  len petal = 1 -> len center = 1 ->
  Garden.round_cell radius petal center y x g = Some (cell, g') ->
  len cell = 1.
Proof.
  intros Hp Hc. unfold Garden.round_cell, bind, random.
  destruct (rs_random g) as [r g1].
  repeat match goal with |- context [if ?b then _ else _] => destruct b end;
    intros E; inversion E; subst; auto.
Qed.

Lemma round_rows_len (cell : Z -> Z -> M G str) (ys xs : list Z)
  (g : G) lines g' :
  (forall y x g0 c g1, cell y x g0 = Some (c, g1) -> len c = 1) ->
  mapM (fun y => row <- mapM (cell y) xs ;; ret (rstrip (concat row))) ys g
  = Some (lines, g') ->
  length lines = length ys
  /\ Forall (fun r => len r <= len xs) lines.
Proof.
  intros Hcell E. split; [now apply mapM_length in E|].
  revert E. apply mapM_Forall. intros y g0 b g1 E.
  apply bind_inv in E. destruct E as (row & g2 & Erow & E). result_of E.
  etransitivity; [apply rstrip_len_le|].
  rewrite len_concat_units.
  - unfold len. now rewrite (mapM_length _ _ _ _ _ Erow).
  - eapply mapM_Forall; [|exact Erow]. intros x g3 c g4. apply Hcell.
Qed.

Lemma fl_round_box size (g : G) lines g' :
  1 <= size ->
  Flowers._make_round_flower size g = Some (lines, g') ->
  in_box (3 * size + 4, 4 * size + 5, 4 * size + 5) lines.
Proof.
  intros Hs. unfold Flowers._make_round_flower. cbv zeta. intros E.
  drawn_from E petal Hp. drawn_from E center Hc. drawn_from E rows Hrows.
  drawn_from E h Hh. one_char Hp. one_char Hc.
  apply round_rows_len in Hrows.
  2:{ intros y x ga c gb. now apply fl_round_cell_len. }
  destruct Hrows as [Hn Hw]. rewrite range_length in Hn.
  unfold len in Hw. rewrite range_length in Hw.
  destruct rows as [|line0 rows']; [discriminate|]. result_of E.
  assert (H0 : len line0 <= 4 * size + 5).
  { inversion Hw; subst. unfold len in *. lia. }
  unfold in_box. split.
  - unfold len. rewrite length_app, repeat_length. lia.
  - apply Forall_app_intro.
    + eapply Forall_impl; [|exact Hw]. cbv beta. intros r Hr.
      unfold len in *. lia.
    + apply Forall_repeat. rewrite len_app, len_spaces.
      change (len Flowers.STEM_CHAR) with 1.
      assert (0 <= len line0) by (unfold len; lia).
      assert (0 <= len line0 / 2) by (apply Z.div_pos; lia).
      assert (len line0 / 2 < 2 * size + 3)
        by (apply Z.div_lt_upper_bound; lia).
      lia.
Qed.

Lemma gd_round_box size (g : G) lines g' :
  1 <= size ->
  Garden._make_round_flower size g = Some (lines, g') ->
  in_box (3 * size + 4, 4 * size + 5, 4 * size + 5) lines.
Proof.
  intros Hs. unfold Garden._make_round_flower. cbv zeta. intros E.
  drawn_from E petal Hp. drawn_from E center Hc. drawn_from E rows Hrows.
  drawn_from E h Hh. one_char Hp. one_char Hc.
  apply round_rows_len in Hrows.
  2:{ intros y x ga c gb. now apply gd_round_cell_len. }
  destruct Hrows as [Hn Hw]. rewrite range_length in Hn.
  unfold len in Hw. rewrite range_length in Hw.
  destruct rows as [|line0 rows']; [discriminate|].
  drawn_from E stem Hstem. one_char Hstem. result_of E.
  assert (H0 : len line0 <= 4 * size + 5).
  { inversion Hw; subst. unfold len in *. lia. }
  unfold in_box. split.
  - unfold len. rewrite length_app, repeat_length. lia.
  - apply Forall_app_intro.
    + eapply Forall_impl; [|exact Hw]. cbv beta. intros r Hr.
      unfold len in *. lia.
    + apply Forall_repeat. rewrite len_app, len_spaces.
      assert (0 <= len line0) by (unfold len; lia).
      assert (0 <= len line0 / 2) by (apply Z.div_pos; lia).
      assert (len line0 / 2 < 2 * size + 3)
        by (apply Z.div_lt_upper_bound; lia).
      unfold str, char in *. lia.
Qed.

Lemma fl_star_box size (g : G) lines g' :
  1 <= size ->
  Flowers._make_star_flower size g = Some (lines, g') ->
  in_box (size + 6, 2 * size + 6, 4 * size + 1) lines.
Proof.
  intros Hs. unfold Flowers._make_star_flower. cbv zeta. intros E.
  drawn_from E petal Hp. drawn_from E center Hc. drawn_from E k Hk.
  result_of E. one_char Hp. one_char Hc. boxed.
Qed.

Lemma gd_star_box size (g : G) lines g' :
  1 <= size ->
  Garden._make_star_flower size g = Some (lines, g') ->
  in_box (size + 6, 2 * size + 6, 4 * size + 1) lines.
Proof.
  intros Hs. unfold Garden._make_star_flower. cbv zeta. intros E.
  drawn_from E petal Hp. drawn_from E center Hc. drawn_from E stem Hstem.
  drawn_from E k Hk.
  result_of E. one_char Hp. one_char Hc. one_char Hstem. boxed.
Qed.

Lemma fl_tulip_box size (g : G) lines g' :
  1 <= size ->
  Flowers._make_tulip size g = Some (lines, g') ->
  in_box (size + 5, size + 7, 3 * size + 4) lines.
Proof.
  intros Hs. unfold Flowers._make_tulip. cbv zeta. intros E.
  drawn_from E petal Hp. drawn_from E center Hc. drawn_from E leaves Hl.
  drawn_from E k Hk.
  result_of E. one_char Hp. one_char Hc. two_chars Hl. boxed.
Qed.

Lemma gd_tulip_box size (g : G) lines g' :
  1 <= size ->
  Garden._make_tulip size g = Some (lines, g') ->
  in_box (size + 5, size + 7, 3 * size + 4) lines.
Proof.
  intros Hs. unfold Garden._make_tulip. cbv zeta. intros E.
  drawn_from E petal Hp. drawn_from E center Hc. drawn_from E leaves Hl.
  drawn_from E stem Hstem. drawn_from E k Hk.
  result_of E. one_char Hp. one_char Hc. two_chars Hl. one_char Hstem. boxed.
Qed.

Lemma fl_sunflower_box size (g : G) lines g' :
  1 <= size ->
  Flowers._make_sunflower size g = Some (lines, g') ->
  in_box (size + 5, size + 5, 3 * size + 6) lines.
Proof.
  intros Hs. unfold Flowers._make_sunflower. cbv zeta. intros E.
  drawn_from E petal Hp. drawn_from E center Hc.
  result_of E. one_char Hp. one_char Hc. boxed.
Qed.

Lemma gd_sunflower_box size (g : G) lines g' :
  1 <= size ->
  Garden._make_sunflower size g = Some (lines, g') ->
  in_box (size + 5, size + 5, 3 * size + 6) lines.
Proof.
  intros Hs. unfold Garden._make_sunflower. cbv zeta. intros E.
  drawn_from E petal Hp. drawn_from E center Hc. drawn_from E stem Hstem.
  result_of E. one_char Hp. one_char Hc. one_char Hstem. boxed.
Qed.

Lemma fl_cherry_box size (g : G) lines g' :
  1 <= size ->
  Flowers._make_cherry_flower nt size g = Some (lines, g') ->
  in_box (size + 4, size + 4, size + 4) lines.
Proof.
  intros Hs. unfold Flowers._make_cherry_flower. cbv zeta. intros E.
  destruct nt; unfold negb in E;
    drawn_from E petal Hp; drawn_from E center Hc;
    result_of E; one_char Hp; one_char Hc; boxed.
Qed.

Lemma gd_cherry_box size (g : G) lines g' :
  1 <= size ->
  Garden._make_cherry_flower nt size g = Some (lines, g') ->
  in_box (size + 4, size + 4, size + 4) lines.
Proof.
  intros Hs. unfold Garden._make_cherry_flower. cbv zeta. intros E.
  destruct nt; unfold negb in E;
    drawn_from E petal Hp; drawn_from E center Hc; drawn_from E stem Hstem;
    result_of E; one_char Hp; one_char Hc; one_char Hstem; boxed.
Qed.

(** Opens the dispatch of [random_flower], keeping the tests. *)
Ltac dispatched_by E k :=
  repeat match type of E with
         | context [if str_eqb k ?s then _ else _] =>
             let T := fresh "T" in destruct (str_eqb k s) eqn:T
         end.

Ltac boxed_by E L :=
  let l := fresh "l" in
  let g1 := fresh "g" in
  let E1 := fresh "E" in
  apply bind_inv in E; destruct E as (l & g1 & E1 & E);
  apply ret_inv in E; injection E as <- <-;
  unfold flower_box; cbv zeta;
  repeat match goal with T : str_eqb _ _ = _ |- _ => rewrite T; clear T end;
  eapply L; eassumption.

Lemma fl_random_flower_box size (g : G) lines kind g' :
  1 <= size ->
  Flowers.random_flower nt size g = Some (lines, kind, g') ->
  in_box (flower_box size kind) lines.
Proof.
  intros Hs. unfold Flowers.random_flower. intros E.
  drawn_from E k Hk. dispatched_by E k.
  - boxed_by E fl_round_box.
  - boxed_by E fl_star_box.
  - boxed_by E fl_sunflower_box.
  - boxed_by E fl_cherry_box.
  - boxed_by E fl_tulip_box.
Qed.

Lemma gd_random_flower_box size (g : G) lines kind g' :
  1 <= size ->
  Garden.random_flower nt size g = Some (lines, kind, g') ->
  in_box (flower_box size kind) lines.
Proof.
  intros Hs. unfold Garden.random_flower. intros E.
  drawn_from E k Hk. dispatched_by E k.
  - boxed_by E gd_round_box.
  - boxed_by E gd_star_box.
  - boxed_by E gd_sunflower_box.
  - boxed_by E gd_cherry_box.
  - boxed_by E gd_tulip_box.
Qed.

End Measuring.

(** X18.  The size of a flower.  For a size of at least 1, [random_flower]
    of either file returns a flower that fits the box of its kind: a round
    flower has [3s + 4] to [4s + 5] rows of at most [4s + 5] characters, a
    star [s + 6] to [2s + 6] rows of at most [4s + 1], a sunflower [s + 5]
    rows of at most [3s + 6], a cherry flower [s + 4] rows of at most
    [s + 4], a tulip [s + 5] to [s + 7] rows of at most [3s + 4]. *)
Theorem flower_fits_its_box :
  forall {G : Type} `{RandomSource G} (nt : bool) (size : Z) (g : G),
    1 <= size ->
    returns_boxed (flower_box size) (Flowers.random_flower nt size) g
    /\ returns_boxed (flower_box size) (Garden.random_flower nt size) g.
Proof.
  intros G RS nt size g Hs. split.
  - destruct (fl_random_flower_grounded nt size g Hs)
      as (lines & kind & g' & E & _).
    exists lines, kind, g'. split; [exact E|].
    eapply fl_random_flower_box; eassumption.
  - destruct (gd_random_flower_grounded nt size g Hs)
      as (lines & kind & g' & E & _).
    exists lines, kind, g'. split; [exact E|].
    eapply gd_random_flower_box; eassumption.
Qed.

Lemma flower_fits_its_box_witness :
  1 <= 3
  /\ returns_boxed (flower_box 3) (Flowers.random_flower false 3)
       {| lcg_state := 11 |}
  /\ returns_boxed (flower_box 3) (Garden.random_flower false 3)
       {| lcg_state := 11 |}.
Proof.
  assert (Hs : 1 <= 3) by lia.
  split; [exact Hs|].
  exact (flower_fits_its_box false 3 {| lcg_state := 11 |} Hs).
Defined.

(** ** clean_garden.py *)

Lemma startswith_app (s p q : str) :
  startswith s (p ++ q) = true -> startswith s p = true.
Proof.
  revert s. induction p as [|y p IH]; intros s; [now destruct s|].
  destruct s as [|x s]; cbn [app startswith]; [discriminate|].
  intros E. apply andb_true_iff in E. destruct E as [Exy E].
  rewrite Exy. now apply IH.
Qed.

Lemma filter_implied {A} (f g : A -> bool) (l : list A) :
  (forall x, f x = true -> g x = true) -> filter g (filter f l) = filter f l.
Proof.
  intros Hfg. induction l as [|a l IH]; [reflexivity|].
  cbn [filter]. destruct (f a) eqn:Ea; [|exact IH].
  cbn [filter]. rewrite (Hfg a Ea). now rewrite IH.
Qed.

Lemma filter_all {A} (f : A -> bool) (l : list A) :
  Forall (fun x => f x = true) l -> filter f l = l.
Proof.
  induction 1 as [|a l Ha _ IH]; [reflexivity|].
  cbn [filter]. now rewrite Ha, IH.
Qed.

Lemma filter_passes {A} (f : A -> bool) (l : list A) :
  Forall (fun x => f x = true) (filter f l).
Proof.
  apply Forall_forall. intros x Hx. now apply filter_In in Hx.
Qed.

(** The two comprehensions keep what the first keeps. *)
Lemma lines_unfenced (s : str) :
  CleanGarden.lines s
  = filter (fun ln => negb (fenced ln)) (CleanGarden.splitlines s).
Proof.
  unfold CleanGarden.lines, fenced. cbv zeta. apply filter_implied.
  intros ln Hln. apply negb_true_iff in Hln. apply negb_true_iff.
  destruct (startswith (CleanGarden.strip ln) (lit "````")) eqn:E;
    [|reflexivity].
  change (lit "````") with (lit "```" ++ lit "`") in E.
  apply startswith_app in E. congruence.
Qed.

Lemma splitlines_breakfree (s : str) :
  forall after_cr,
    Forall (fun ln => forallb (fun c => negb (CleanGarden.linebreak c)) ln
                      = true)
           (CleanGarden.splitlines_from after_cr s).
Proof.
  induction s as [|c t IH]; intros after_cr; [constructor|].
  cbn [CleanGarden.splitlines_from].
  destruct (after_cr && (c =? 10)%N); [apply IH|].
  destruct (CleanGarden.linebreak c) eqn:Ec.
  - constructor; [reflexivity|apply IH].
  - specialize (IH false).
    destruct (CleanGarden.splitlines_from false t) as [|ln lns].
    + constructor; [|constructor]. cbn [forallb]. now rewrite Ec.
    + inversion IH; subst. constructor; [|assumption].
      cbn [forallb]. rewrite Ec. assumption.
Qed.

Lemma splitlines_line (ln rest : str) :
  forallb (fun c => negb (CleanGarden.linebreak c)) ln = true ->
  CleanGarden.splitlines_from false (ln ++ NL :: rest)
  = ln :: CleanGarden.splitlines_from false rest.
Proof.
  induction ln as [|c ln IH]; intros Hln; [reflexivity|].
  cbn [forallb] in Hln. apply andb_true_iff in Hln.
  destruct Hln as [Hc Hln]. apply negb_true_iff in Hc.
  cbn [app CleanGarden.splitlines_from andb]. rewrite Hc.
  now rewrite (IH Hln).
Qed.

Lemma splitlines_joined (lns : list str) :
  lns <> [] ->
  Forall (fun ln => forallb (fun c => negb (CleanGarden.linebreak c)) ln
                    = true) lns ->
  CleanGarden.splitlines (join [NL] lns ++ [NL]) = lns.
Proof.
  unfold CleanGarden.splitlines.
  induction lns as [|ln [|ln2 lns] IH]; intros Hne Hbf; [congruence| |].
  - cbn [join]. inversion Hbf; subst.
    now rewrite splitlines_line by assumption.
  - change (join [NL] (ln :: ln2 :: lns))
      with (ln ++ [NL] ++ join [NL] (ln2 :: lns)).
    rewrite <- !app_assoc. cbn [app]. inversion Hbf; subst.
    rewrite splitlines_line by assumption.
    f_equal. apply IH; [discriminate|assumption].
Qed.

Lemma lines_breakfree (s : str) :
  Forall (fun ln => forallb (fun c => negb (CleanGarden.linebreak c)) ln
                    = true)
         (CleanGarden.lines s).
Proof.
  rewrite lines_unfenced. apply Forall_forall. intros ln Hln.
  apply filter_In in Hln. destruct Hln as [Hln _].
  pose proof (splitlines_breakfree s false) as Hbf.
  rewrite Forall_forall in Hbf. now apply Hbf.
Qed.

(** The lines of the text written: the lines kept, or one empty line when
    none was kept. *)
Lemma splitlines_new (s : str) :
  CleanGarden.splitlines (CleanGarden.new s)
  = match CleanGarden.lines s with
    | [] => [[]]
    | lns => lns
    end.
Proof.
  unfold CleanGarden.new.
  destruct (CleanGarden.lines s) as [|ln lns] eqn:E; [reflexivity|].
  apply splitlines_joined; [discriminate|].
  rewrite <- E. apply lines_breakfree.
Qed.

Lemma lines_new (s : str) :
  CleanGarden.lines (CleanGarden.new s)
  = match CleanGarden.lines s with
    | [] => [[]]
    | lns => lns
    end.
Proof.
  rewrite lines_unfenced, splitlines_new.
  destruct (CleanGarden.lines s) as [|ln lns] eqn:E; [reflexivity|].
  apply filter_all. rewrite <- E, lines_unfenced. apply filter_passes.
Qed.

(** X19.  [clean_garden.py] removes the fenced lines and nothing else,
    and a second run changes nothing.  The second comprehension removes
    no line the first has kept (a line that starts with four backticks
    starts with three); the text written ends with a newline and none of
    its lines is fenced; the lines kept are those of the text read, in
    order; and cleaning the text written gives the same text again. *)
Theorem clean_garden_idempotent :
  forall (s p : str),
    CleanGarden.lines s
    = filter (fun ln => negb (fenced ln)) (CleanGarden.splitlines s)
    /\ CleanGarden.new s
       = join [NL] (filter (fun ln => negb (fenced ln))
                           (CleanGarden.splitlines s)) ++ [NL]
    /\ Forall (fun ln => fenced ln = false)
              (CleanGarden.splitlines (CleanGarden.new s))
    /\ CleanGarden.new (CleanGarden.new s) = CleanGarden.new s
    /\ CleanGarden.run (Some (CleanGarden.new s)) p
       = CleanGarden.run (Some s) p.
Proof.
  intros s p.
  assert (Hidem : CleanGarden.new (CleanGarden.new s) = CleanGarden.new s).
  { unfold CleanGarden.new at 1 3. rewrite lines_new.
    destruct (CleanGarden.lines s); reflexivity. }
  split; [apply lines_unfenced|split; [|split; [|split]]].
  - unfold CleanGarden.new. now rewrite lines_unfenced.
  - rewrite splitlines_new.
    destruct (CleanGarden.lines s) as [|ln lns] eqn:E.
    + constructor; [reflexivity|constructor].
    + rewrite <- E, lines_unfenced.
      eapply Forall_impl; [|apply filter_passes]. cbv beta.
      intros x Hx. now apply negb_true_iff in Hx.
  - exact Hidem.
  - unfold CleanGarden.run. now rewrite Hidem.
Qed.

